(** * Monitor hook: correlation of pre-commit captures with post-commit dispatch

    A shallow embedding of [src/monitor-hook.ts] (the version that handles
    create, update and delete events) and the statements proved about it.

    Conventions of the embedding:
    - a JS object is a finite map from property names to values;
      [Object.keys] enumerates the map's keys (the enumeration order of the
      map, not JS insertion order; the statements below hold for any order);
    - an array is a list;
    - numbers are integers (no NaN, no negative zero), and values of object
      type are opaque references compared by identity, as [===] does;
    - strings are byte strings (UTF-8), compared bytewise;
    - the logger, the handler and exceptions are explicit: an operation
      returns the new correlation store, the list of effects it performed, in
      order, and whether it returned or threw. *)

From Stdlib Require Import ZArith String Ascii List Bool Lia Sorting.Sorted Structures.OrderedTypeEx.
From stdpp Require Import base decidable option list gmap strings pretty sorting.

#[local] Open Scope string_scope.
#[local] Set Warnings "-clear-no-such-hyp".

(** ** Strings *)

Module Str.

Definition quote : string := String (ascii_of_nat 34) EmptyString.
Definition backslash : string := String (ascii_of_nat 92) EmptyString.

(** [s.endsWith(suffix)] *)
Fixpoint endsWith (s suffix : string) : bool :=
  if String.eqb s suffix then true
  else match s with
       | EmptyString => false
       | String _ s' => endsWith s' suffix
       end.

(** [s.split('.').pop()]: the part of [s] after its last dot. *)
Fixpoint last_segment_from (acc s : string) : string :=
  match s with
  | EmptyString => acc
  | String c s' =>
      if Ascii.eqb c "."%char then last_segment_from s' s'
      else last_segment_from acc s'
  end.

Definition split_pop (s : string) : string := last_segment_from s s.

Definition bytes (s : string) : list Z :=
  List.map (fun c => Z.of_nat (nat_of_ascii c)) (list_ascii_of_string s).

Definition hex_digit (n : Z) : ascii :=
  ascii_of_nat (Z.to_nat (if (n <? 10)%Z then 48 + n else 87 + n)%Z).

Definition hex_byte (b : Z) : string :=
  String (hex_digit (Z.shiftr b 4)) (String (hex_digit (Z.land b 15)) EmptyString).

Definition concat_map {A} (f : A -> string) (l : list A) : string :=
  fold_right (fun x acc => f x ++ acc) EmptyString l.

End Str.

(** ** MD5 ([createHash('md5').update(s).digest('hex')]) *)

Module Md5.
#[local] Open Scope Z_scope.

Definition mask32 (x : Z) : Z := Z.land x 0xFFFFFFFF.
Definition not32 (x : Z) : Z := Z.lxor x 0xFFFFFFFF.
Definition rotl (x c : Z) : Z :=
  mask32 (Z.lor (Z.shiftl x c) (Z.shiftr x (32 - c))).

Definition K : list Z :=
  [ 0xd76aa478; 0xe8c7b756; 0x242070db; 0xc1bdceee;
    0xf57c0faf; 0x4787c62a; 0xa8304613; 0xfd469501;
    0x698098d8; 0x8b44f7af; 0xffff5bb1; 0x895cd7be;
    0x6b901122; 0xfd987193; 0xa679438e; 0x49b40821;
    0xf61e2562; 0xc040b340; 0x265e5a51; 0xe9b6c7aa;
    0xd62f105d; 0x02441453; 0xd8a1e681; 0xe7d3fbc8;
    0x21e1cde6; 0xc33707d6; 0xf4d50d87; 0x455a14ed;
    0xa9e3e905; 0xfcefa3f8; 0x676f02d9; 0x8d2a4c8a;
    0xfffa3942; 0x8771f681; 0x6d9d6122; 0xfde5380c;
    0xa4beea44; 0x4bdecfa9; 0xf6bb4b60; 0xbebfbc70;
    0x289b7ec6; 0xeaa127fa; 0xd4ef3085; 0x04881d05;
    0xd9d4d039; 0xe6db99e5; 0x1fa27cf8; 0xc4ac5665;
    0xf4292244; 0x432aff97; 0xab9423a7; 0xfc93a039;
    0x655b59c3; 0x8f0ccc92; 0xffeff47d; 0x85845dd1;
    0x6fa87e4f; 0xfe2ce6e0; 0xa3014314; 0x4e0811a1;
    0xf7537e82; 0xbd3af235; 0x2ad7d2bb; 0xeb86d391 ].

Definition shifts : list Z :=
  [ 7; 12; 17; 22; 7; 12; 17; 22; 7; 12; 17; 22; 7; 12; 17; 22;
    5; 9; 14; 20; 5; 9; 14; 20; 5; 9; 14; 20; 5; 9; 14; 20;
    4; 11; 16; 23; 4; 11; 16; 23; 4; 11; 16; 23; 4; 11; 16; 23;
    6; 10; 15; 21; 6; 10; 15; 21; 6; 10; 15; 21; 6; 10; 15; 21 ].

(** The [n] low bytes of [x], least significant first. *)
Fixpoint le_bytes (n : nat) (x : Z) : list Z :=
  match n with
  | O => []
  | S n' => Z.land x 255 :: le_bytes n' (Z.shiftr x 8)
  end.

Definition pad (msg : list Z) : list Z :=
  let len := Z.of_nat (List.length msg) in
  msg ++ [128] ++ List.repeat 0 (Z.to_nat ((55 - len) mod 64))
      ++ le_bytes 8 (8 * len).

Definition word_at (block : list Z) (g : nat) : Z :=
  let b i := List.nth (4 * g + i)%nat block 0 in
  b 0%nat + Z.shiftl (b 1%nat) 8 + Z.shiftl (b 2%nat) 16 + Z.shiftl (b 3%nat) 24.

Definition step (block : list Z) (st : Z * Z * Z * Z) (i : nat) : Z * Z * Z * Z :=
  let '(a, b, c, d) := st in
  let '(f, g) :=
    if (i <? 16)%nat then (Z.lor (Z.land b c) (Z.land (not32 b) d), i)
    else if (i <? 32)%nat then
      (Z.lor (Z.land d b) (Z.land (not32 d) c), ((5 * i + 1) mod 16)%nat)
    else if (i <? 48)%nat then
      (Z.lxor b (Z.lxor c d), ((3 * i + 5) mod 16)%nat)
    else (Z.lxor c (Z.lor b (not32 d)), ((7 * i) mod 16)%nat) in
  let f' := mask32 (f + a + List.nth i K 0 + word_at block g) in
  (d, mask32 (b + rotl f' (List.nth i shifts 0)), b, c).

Definition compress (st : Z * Z * Z * Z) (block : list Z) : Z * Z * Z * Z :=
  let '(a0, b0, c0, d0) := st in
  let '(a, b, c, d) := List.fold_left (step block) (List.seq 0 64) st in
  (mask32 (a0 + a), mask32 (b0 + b), mask32 (c0 + c), mask32 (d0 + d)).

(** Splits the padded message into 64-byte blocks; [n] bounds the number
    of blocks. *)
Fixpoint blocks (n : nat) (l : list Z) : list (list Z) :=
  match n, l with
  | O, _ | _, [] => []
  | S n', _ => List.firstn 64 l :: blocks n' (List.skipn 64 l)
  end.

Definition digest (msg : list Z) : list Z :=
  let p := pad msg in
  let '(a, b, c, d) :=
    List.fold_left compress (blocks (List.length p) p)
      (0x67452301, 0xefcdab89, 0x98badcfe, 0x10325476) in
  le_bytes 4 a ++ le_bytes 4 b ++ le_bytes 4 c ++ le_bytes 4 d.

Definition hex (s : string) : string :=
  Str.concat_map Str.hex_byte (digest (Str.bytes s)).

End Md5.

(** ** JS values and objects *)

Inductive value : Type :=
  | VUndefined
  | VNull
  | VBool (b : bool)
  | VNum (n : Z)
  | VStr (s : string)
  | VRef (loc : nat).

#[global] Instance value_eq_dec : EqDecision value.
Proof. solve_decision. Defined.

(** [a === b] *)
Definition strict_eq (a b : value) : bool := bool_decide (a = b).

(** A template literal [`${v}`]. *)
Definition to_string (v : value) : string :=
  match v with
  | VUndefined => "undefined"
  | VNull => "null"
  | VBool true => "true"
  | VBool false => "false"
  | VNum n => pretty n
  | VStr s => s
  | VRef _ => "[object Object]"
  end.

Abbreviation obj := (gmap string value).

(** [o[f]]: a missing property reads as [undefined]. *)
Definition get (o : obj) (f : string) : value := default VUndefined (o !! f).

(** [Object.keys(o)] *)
Definition object_keys {A} (o : gmap string A) : list string := (map_to_list o).*1.

(** ** Primary keys, their sorting and the fingerprint *)

Inductive PrimaryKey : Type :=
  | PNum (n : Z)
  | PStr (s : string).

#[global] Instance PrimaryKey_eq_dec : EqDecision PrimaryKey.
Proof. solve_decision. Defined.

Definition key_value (k : PrimaryKey) : value :=
  match k with PNum n => VNum n | PStr s => VStr s end.

Definition key_string (k : PrimaryKey) : string := to_string (key_value k).

Module Array.

(** [fields.includes(f)] *)
Definition includes (l : list string) (f : string) : bool := bool_decide (f ∈ l).

(** [keys.sort()] with the default comparator: elements are compared by
    their string forms, and elements with the same string form keep their
    order. *)
Fixpoint sort_insert (x : PrimaryKey) (l : list PrimaryKey) : list PrimaryKey :=
  match l with
  | [] => [x]
  | y :: l' =>
      if String.ltb (key_string x) (key_string y) then x :: l
      else y :: sort_insert x l'
  end.

Definition sort (keys : list PrimaryKey) : list PrimaryKey :=
  foldl (fun sorted x => sort_insert x sorted) [] keys.

End Array.

Module Json.

Definition escape_char (c : ascii) : string :=
  let n := nat_of_ascii c in
  if Nat.eqb n 34 then Str.backslash ++ Str.quote
  else if Nat.eqb n 92 then Str.backslash ++ Str.backslash
  else if Nat.eqb n 8 then Str.backslash ++ "b"
  else if Nat.eqb n 9 then Str.backslash ++ "t"
  else if Nat.eqb n 10 then Str.backslash ++ "n"
  else if Nat.eqb n 12 then Str.backslash ++ "f"
  else if Nat.eqb n 13 then Str.backslash ++ "r"
  else if Nat.ltb n 32 then Str.backslash ++ "u00" ++ Str.hex_byte (Z.of_nat n)
  else String c EmptyString.

Definition str (s : string) : string :=
  Str.quote ++ Str.concat_map escape_char (list_ascii_of_string s) ++ Str.quote.

Definition key (k : PrimaryKey) : string :=
  match k with PNum n => pretty n | PStr s => str s end.

Fixpoint comma_sep (l : list string) : string :=
  match l with
  | [] => EmptyString
  | [x] => x
  | x :: l' => x ++ "," ++ comma_sep l'
  end.

Definition array (l : list string) : string := "[" ++ comma_sep l ++ "]".

(** [JSON.stringify({ hookId, event, keys })] *)
Definition fingerprint_source (hookId : nat) (event : string) (keys : list PrimaryKey) : string :=
  "{" ++ str "hookId" ++ ":" ++ pretty hookId
      ++ "," ++ str "event" ++ ":" ++ str event
      ++ "," ++ str "keys" ++ ":" ++ array (key <$> keys) ++ "}".

End Json.

(** [createFingerprint(event, keys)] of the registration [hookId]. The
    argument array is sorted in place; callers go on with the sorted array. *)
Definition createFingerprint (hookId : nat) (event : string) (keys : list PrimaryKey) : string :=
  Md5.hex (Json.fingerprint_source hookId event (Array.sort keys)).

(** ** The monitor: options, correlation store, change records *)

Inductive Action : Type := create | update | delete.

#[global] Instance Action_eq_dec : EqDecision Action.
Proof. solve_decision. Defined.

(** The second argument of [monitor] when it is an options object. *)
Record Options : Type := {
  opt_fields : list string;
  opt_includeUnchanged : option bool;
  opt_events : option (list Action);
  opt_useAccountability : option bool;
}.

Record MonitorOptions : Type := {
  fields : list string;
  includeUnchanged : option bool;
  events : list Action;
  useAccountability : option bool;
}.

(** An optional boolean used as a condition: [undefined] is falsy. *)
Definition truthy (b : option bool) : bool := default false b.

Definition monitorOptions (monitorFieldsOrOptions : list string + Options) : MonitorOptions :=
  match monitorFieldsOrOptions with
  | inl monitorFields =>
      {| fields := monitorFields; includeUnchanged := Some false;
         events := [create; update; delete]; useAccountability := Some true |}
  | inr o =>
      {| fields := opt_fields o; includeUnchanged := opt_includeUnchanged o;
         events := default [create; update; delete] (opt_events o);
         useAccountability := opt_useAccountability o |}
  end.

(** An item of a captured snapshot: [{ key, data }]. *)
Record SnapshotItem : Type := { item_key : value; item_data : obj }.

(** A value of [mutationsInProgress]. *)
Record Mutation : Type := {
  m_timestamp : Z;
  m_event : string;
  m_keys : list PrimaryKey;
  m_fields : list string;
  m_current : list SnapshotItem;
}.

Abbreviation Store := (gmap string Mutation).

(** An element of the array given to the handler. *)
Record ChangeRecord : Type := {
  action : Action;
  key : value;
  previous : obj;
  current : obj;
}.

(** [record.hasChanged(field, from, to)]; an omitted argument is
    [VUndefined]. Records of a create event carry no such method. *)
Definition hasChanged (r : ChangeRecord) (field : string) (from to : value) : option bool :=
  match action r with
  | create => None
  | delete => Some false
  | update =>
      Some (negb (strict_eq (get (previous r) field) (get (current r) field))
            && (strict_eq from VUndefined || strict_eq (get (previous r) field) from)
            && (strict_eq to VUndefined || strict_eq (get (current r) field) to))
  end.

(** The payload of an event: an object of field values, or, for a delete,
    the array of the keys being deleted. *)
Inductive Payload : Type :=
  | PObject (o : obj)
  | PArray (keys : list PrimaryKey).

(** [{ ...payload }]: an array spreads to its indices. *)
Definition spread (payload : Payload) : obj :=
  match payload with
  | PObject o => o
  | PArray keys => list_to_map (imap (fun i k => (pretty i, key_value k)) keys)
  end.

(** [payload as PrimaryKey[]], on which [sort] is then called. *)
Definition as_keys (payload : Payload) : option (list PrimaryKey) :=
  match payload with
  | PObject _ => None
  | PArray keys => Some keys
  end.

(** What the host passes to a filter hook besides the payload. The host
    gives the key of the operation as [meta.key] or as [meta.keys]. *)
Record FilterMeta : Type := {
  fm_event : string;
  fm_collection : string;
  fm_target : PrimaryKey + list PrimaryKey;
}.

Record ActionMeta : Type := {
  am_event : string;
  am_collection : string;
  am_payload : Payload;
  am_target : PrimaryKey + list PrimaryKey;
}.

(** [meta.key] *)
Definition meta_key (target : PrimaryKey + list PrimaryKey) : value :=
  match target with
  | inl k => key_value k
  | inr _ => VUndefined
  end.

(** [meta.keys ?? [meta.key]] *)
Definition meta_keys (target : PrimaryKey + list PrimaryKey) : list PrimaryKey :=
  match target with
  | inl k => [k]
  | inr keys => keys
  end.

(** The arguments of one handler call (the context is left out). *)
Record HandlerCall : Type := {
  call_mutations : list ChangeRecord;
  call_collection : string;
  call_event : string;
  call_payload : Payload;
}.

(** One registration made by [monitor]. [handler] tells whether the
    subscriber's callback completes ([true]) or throws ([false]). *)
Record Monitor : Type := {
  hookId : nat;
  monitorCollection : string;
  options : MonitorOptions;
  handler : HandlerCall -> bool;
}.

(** [monitor(collection, fieldsOrOptions, handler)] with the global counter
    [lastHookId] passed in and out. *)
Definition monitor (lastHookId : nat) (collection : string)
    (monitorFieldsOrOptions : list string + Options) (h : HandlerCall -> bool) : Monitor * nat :=
  ({| hookId := lastHookId; monitorCollection := collection;
      options := monitorOptions monitorFieldsOrOptions; handler := h |},
   S lastHookId).

Definition action_name (a : Action) : string :=
  match a with create => "create" | update => "update" | delete => "delete" end.

(** [`${monitorCollection}.items.create`] and the like. *)
Definition event_name (collection : string) (a : Action) : string :=
  collection ++ ".items." ++ action_name a.

(** The events for which the filter and action hooks are bound. *)
Definition bound_events (mon : Monitor) : list string :=
  event_name (monitorCollection mon) <$>
    (List.filter (fun a => bool_decide (a ∈ events (options mon))) [create; update; delete]).

(** ** Effects and results *)

Inductive Exception : Type :=
  | Error (msg : string)
  | TypeError
  | StoreError (e : string).

Inductive Effect : Type :=
  | LogWarn (msg : string)
  | LogError (msg : string)
  | CallHandler (call : HandlerCall).

Inductive Outcome : Type :=
  | Returned
  | Thrown (e : Exception).

Record Result : Type := {
  res_store : Store;
  res_effects : list Effect;
  res_outcome : Outcome;
}.

(** The query passed to [ItemsService.readMany]. [q_elevated] is set when the
    service is built with a null accountability. *)
Record ReadQuery : Type := {
  q_collection : string;
  q_elevated : bool;
  q_keys : list PrimaryKey;
  q_fields : list string;
  q_limit : nat;
}.

(** The host: the primary-key field of each collection and the record
    store, whose read fails with an error or returns items. *)
Record Host : Type := {
  primary : string -> string;
  readMany : ReadQuery -> string + list obj;
}.

(** [try { await handler(...) } catch (error) { logger.error(...) }] *)
Definition call_handler (mon : Monitor) (event : string) (mutations : list ChangeRecord)
    (collection : string) (payload : Payload) : list Effect :=
  let call := {| call_mutations := mutations; call_collection := collection;
                 call_event := event; call_payload := payload |} in
  CallHandler call ::
    (if handler mon call then []
     else [LogError ("Error in monitor hook handler for event " ++ event)]).

(** The fields of the payload that are monitored; an empty list of monitored
    fields lets every field of the payload through. *)
Definition payload_fields (o : MonitorOptions) (payload : Payload) : list string :=
  List.filter (fun field => Nat.eqb (List.length (fields o)) 0 || Array.includes (fields o) field)
    (object_keys (spread payload)).

(** ** Pre-commit capture: the filter hook *)

Definition FIVE_MINUTES : Z := 1000 * 60 * 5.

Definition warn_old (fingerprint : string) : Effect :=
  LogWarn ("removing old in progress mutation " ++ fingerprint
           ++ " because the corresponding action hook never fired").

(** [now - mutationsInProgress[key].timestamp > FIVE_MINUTES] *)
Definition is_old (now : Z) (m : Mutation) : bool :=
  bool_decide (FIVE_MINUTES < now - m_timestamp m)%Z.

Definition oldMutations (now : Z) (st : Store) : list string :=
  List.filter (fun key => from_option (is_old now) false (st !! key)) (object_keys st).

(** The sweep that ends a capture: one warning and one [delete] for each old
    fingerprint. *)
Definition sweep (now : Z) (st : Store) : Store * list Effect :=
  let old := oldMutations now st in
  (foldl (fun s fingerprint => base.delete fingerprint s) st old, warn_old <$> old).

(** [currentItems.map(item => { key: item[pk], data: item without pk })] *)
Definition snapshot_item (primaryKeyField : string) (item : obj) : SnapshotItem :=
  {| item_key := get item primaryKeyField;
     item_data := base.delete primaryKeyField item |}.

(** The fields whose current values a capture reads. *)
Definition capture_fields (o : MonitorOptions) (eventName : string) (payload : Payload) : list string :=
  if truthy (includeUnchanged o) || String.eqb eventName "delete" then fields o
  else payload_fields o payload.

(** The keys of the operation: the payload itself for a delete, where a
    payload that is no array has no [sort] to call. *)
Definition capture_keys (eventName : string) (payload : Payload) (meta : FilterMeta)
    : option (list PrimaryKey) :=
  if String.eqb eventName "delete" then as_keys payload
  else Some (meta_keys (fm_target meta)).

(** [itemsService.readMany(keys, { fields: [primaryKeyField, ...fields],
    limit: keys.length })] on a service built with the accountability of the
    user, or with none. *)
Definition capture_query (host : Host) (o : MonitorOptions) (collection : string)
    (keys : list PrimaryKey) (fields : list string) : ReadQuery :=
  {| q_collection := collection;
     q_elevated := negb (truthy (useAccountability o));
     q_keys := keys;
     q_fields := primary host collection :: fields;
     q_limit := List.length keys |}.

(** The filter hook bound to [event]. [now_insert] and [now_sweep] are the
    two readings of [Date.now()]. *)
Definition filter_hook (host : Host) (mon : Monitor) (event : string)
    (now_insert now_sweep : Z) (st : Store) (payload : Payload) (meta : FilterMeta) : Result :=
  let o := options mon in
  if Str.endsWith (fm_event meta) ".items.create" then
    {| res_store := st; res_effects := []; res_outcome := Returned |}
  else if negb (Str.endsWith (fm_event meta) ".items.update")
          && negb (Str.endsWith (fm_event meta) ".items.delete") then
    {| res_store := st; res_effects := [];
       res_outcome := Thrown (Error ("Unexpected event " ++ fm_event meta)) |}
  else
    let eventName := Str.split_pop (fm_event meta) in
    let collection := fm_collection meta in
    let fields := capture_fields o eventName payload in
    match capture_keys eventName payload meta with
    | None =>
        {| res_store := st; res_effects := []; res_outcome := Thrown TypeError |}
    | Some keys0 =>
        let fingerprint := createFingerprint (hookId mon) event keys0 in
        let keys := Array.sort keys0 in
        let primaryKeyField := primary host collection in
        match readMany host (capture_query host o collection keys fields) with
        | inl e =>
            {| res_store := st; res_effects := []; res_outcome := Thrown (StoreError e) |}
        | inr currentItems =>
            let st1 :=
              <[fingerprint :=
                  {| m_timestamp := now_insert; m_event := event; m_keys := keys;
                     m_fields := fields;
                     m_current := snapshot_item primaryKeyField <$> currentItems |}]> st in
            let '(st2, warnings) := sweep now_sweep st1 in
            {| res_store := st2; res_effects := warnings; res_outcome := Returned |}
        end
    end.

(** ** Post-commit dispatch: the action hook *)

(** The names of the members of [Object.prototype]: read on an object that
    has no property of that name of its own, each of them gives the member
    inherited, a function or, for [__proto__], the prototype. *)
Definition inherited_names : list string :=
  [ "constructor"; "__defineGetter__"; "__defineSetter__"; "hasOwnProperty";
    "__lookupGetter__"; "__lookupSetter__"; "isPrototypeOf"; "propertyIsEnumerable";
    "toString"; "valueOf"; "__proto__"; "toLocaleString" ].

(** [typeof o[field] === 'undefined'] on an object made by a spread: a
    property of its own counts by its value, and without one the read goes
    to [Object.prototype]. *)
Definition reads_undefined (o : obj) (field : string) : bool :=
  match o !! field with
  | Some v => strict_eq v VUndefined
  | None => negb (Array.includes inherited_names field)
  end.

(** The [current] of a create record: the payload without the fields that
    are not monitored, and [null] for each monitored field that reads as
    undefined. *)
Definition create_current (o : MonitorOptions) (payload : Payload) : obj :=
  let current := spread payload in
  let current :=
    foldl (fun cur key => if negb (Array.includes (fields o) key) then base.delete key cur else cur)
      current (object_keys current) in
  foldl (fun cur field => if reads_undefined cur field then <[field := VNull]> cur else cur)
    current (fields o).

Definition delete_record (m : SnapshotItem) : ChangeRecord :=
  {| action := delete; key := item_key m; previous := item_data m; current := ∅ |}.

(** [mutation.current.forEach(item => delete item.data[removedField])] *)
Definition remove_field (removedField : string) (snapshot : list SnapshotItem) : list SnapshotItem :=
  (fun item => {| item_key := item_key item;
                   item_data := base.delete removedField (item_data item) |}) <$> snapshot.

Definition warn_added (event addedField : string) : Effect :=
  LogWarn ("Field " ++ addedField
           ++ " was added by another filter hook after the mutation was prepared for event "
           ++ event).

(** One turn of the loop that shakes out fields: [field] is deleted from
    both objects when it is not monitored, or when it is unchanged and
    [includeUnchanged] is not set. *)
Definition shake_step (o : MonitorOptions) (pc : obj * obj) (field : string) : obj * obj :=
  let '(previous, current) := pc in
  if negb (Array.includes (fields o) field)
     || (negb (truthy (includeUnchanged o))
         && strict_eq (get previous field) (get current field))
  then (base.delete field previous, base.delete field current)
  else (previous, current).

Definition shake (o : MonitorOptions) (previous current : obj) : obj * obj :=
  foldl (shake_step o) (previous, current) (object_keys previous ++ object_keys current).

(** [monitorOptions.fields.some(field => previous[field] !== current[field])] *)
Definition hasChangesToMonitoredFields (o : MonitorOptions) (previous current : obj) : bool :=
  existsb (fun field => negb (strict_eq (get previous field) (get current field))) (fields o).

(** A record pushed by the update loop. Its [previous] is the data object of
    a snapshot item, shared with the snapshot and not copied: the record
    holds the position of that item, and later deletions on the item's data
    show in the record. Its [current] is an object of its own. *)
Record Pushed : Type := {
  pushed_key : PrimaryKey;
  pushed_previous : nat;
  pushed_current : obj;
}.

(** [mutation.current.find(item => `${item.key}` === `${key}`)] with the
    position of the item found. *)
Definition find_item (snapshot : list SnapshotItem) (k : PrimaryKey) : option (nat * SnapshotItem) :=
  list_find (fun item => to_string (item_key item) = key_string k) snapshot.

(** The loop over the keys of an update. [None] is the [TypeError] raised by
    reading [.data] of [undefined] when a key has no snapshot item. *)
Fixpoint update_loop (o : MonitorOptions) (payload : Payload) (keys : list PrimaryKey)
    (snapshot : list SnapshotItem) (mutations : list Pushed)
    : option (list SnapshotItem * list Pushed) :=
  match keys with
  | [] => Some (snapshot, mutations)
  | k :: keys' =>
      match find_item snapshot k with
      | None => None
      | Some (i, item) =>
          let previous := item_data item in
          let current :=
            spread payload ∪ (if truthy (includeUnchanged o) then previous else ∅) in
          if hasChangesToMonitoredFields o previous current then
            let '(previous', current') := shake o previous current in
            update_loop o payload keys'
              (<[i := {| item_key := item_key item; item_data := previous' |}]> snapshot)
              (mutations ++ [{| pushed_key := k; pushed_previous := i;
                                pushed_current := current' |}])
          else update_loop o payload keys' snapshot mutations
      end
  end.

(** The records as the handler sees them when it is called. *)
Definition update_record (snapshot : list SnapshotItem) (p : Pushed) : ChangeRecord :=
  {| action := update;
     key := key_value (pushed_key p);
     previous := from_option item_data ∅ (snapshot !! pushed_previous p);
     current := pushed_current p |}.

(** The monitored fields as the action hook sees them in the committed
    payload. *)
Definition dispatch_fields (o : MonitorOptions) (payload : Payload) : list string :=
  if truthy (includeUnchanged o) then fields o else payload_fields o payload.

(** The captured fields that are no longer among [fields]. *)
Definition removedFields (mutation : Mutation) (fields : list string) : list string :=
  List.filter (fun field => negb (Array.includes fields field)) (m_fields mutation).

(** The fields among [fields] that were not captured. *)
Definition addedFields (mutation : Mutation) (fields : list string) : list string :=
  List.filter (fun field => negb (Array.includes (m_fields mutation) field)) fields.

(** The snapshot once the removed fields are deleted from the data of each
    of its items. *)
Definition reconcile (mutation : Mutation) (fields : list string) : list SnapshotItem :=
  foldl (fun snapshot removedField => remove_field removedField snapshot)
    (m_current mutation) (removedFields mutation fields).

(** The action hook bound to [event]. The delete branch has no [return]:
    after the handler call it goes on with the statements written for an
    update. The payload is taken as an array of its own (not the array of
    [meta.keys], which [createFingerprint] sorts). *)
Definition action_hook (mon : Monitor) (event : string) (st : Store) (meta : ActionMeta) : Result :=
  let o := options mon in
  let collection := am_collection meta in
  let payload := am_payload meta in
  let eventName := Str.split_pop (am_event meta) in
  if String.eqb eventName "create" then
    let mutations :=
      [ {| action := create; key := meta_key (am_target meta);
           previous := ∅; current := create_current o payload |} ] in
    {| res_store := st;
       res_effects := call_handler mon event mutations collection payload;
       res_outcome := Returned |}
  else
    let fingerprint := createFingerprint (hookId mon) event (meta_keys (am_target meta)) in
    let keys := Array.sort (meta_keys (am_target meta)) in
    match st !! fingerprint with
    | None =>
        {| res_store := st;
           res_effects :=
             [LogWarn ("No matching filter hook for action hook with fingerprint " ++ fingerprint)];
           res_outcome := Returned |}
    | Some mutation =>
        let st' := base.delete fingerprint st in
        let deleted :=
          if Str.endsWith event ".items.delete" then
            call_handler mon event (delete_record <$> m_current mutation) collection payload
          else [] in
        let fields := dispatch_fields o payload in
        let snapshot := reconcile mutation fields in
        let warnings := warn_added event <$> addedFields mutation fields in
        match update_loop o payload keys snapshot [] with
        | None =>
            {| res_store := st'; res_effects := deleted ++ warnings;
               res_outcome := Thrown TypeError |}
        | Some (snapshot', pushed) =>
            let mutations := update_record snapshot' <$> pushed in
            {| res_store := st';
               res_effects :=
                 deleted ++ warnings ++
                 (if Nat.ltb 0 (List.length mutations)
                  then call_handler mon event mutations collection payload else []);
               res_outcome := Returned |}
        end
    end.

(** ** Notions used in the statements *)

(** [a] does not come after [b] in the order of the default comparator. *)
Definition key_le (a b : PrimaryKey) : Prop :=
  String.leb (key_string a) (key_string b) = true.

(** No two distinct keys of the list have the same string form. *)
Definition distinct_strings (keys : list PrimaryKey) : Prop :=
  forall a b, a ∈ keys -> b ∈ keys -> key_string a = key_string b -> a = b.

(** The host calls a hook bound to [event] for that event only, and passes
    the event name as [meta.event]; the events bound by a monitor are those
    of its collection. *)
Definition bound_to (mon : Monitor) (a : Action) (event meta_event : string) : Prop :=
  event = event_name (monitorCollection mon) a /\ meta_event = event.

(** The condition under which the shake loop deletes [field]. *)
Definition shaken_out (o : MonitorOptions) (previous current : obj) (field : string) : bool :=
  negb (Array.includes (fields o) field)
  || (negb (truthy (includeUnchanged o))
      && strict_eq (get previous field) (get current field)).

(** The handler calls among the effects, in order. *)
Definition handler_calls (effects : list Effect) : list HandlerCall :=
  omap (fun e => match e with CallHandler c => Some c | _ => None end) effects.

(** The [current] object built for a key of an update whose captured data
    is [previous]. *)
Definition committed (o : MonitorOptions) (payload : Payload) (previous : obj) : obj :=
  spread payload ∪ (if truthy (includeUnchanged o) then previous else ∅).

(** A snapshot item without the fields [removed]. *)
Definition strip_fields (removed : list string) (item : SnapshotItem) : SnapshotItem :=
  {| item_key := item_key item;
     item_data := foldl (fun data field => base.delete field data) (item_data item) removed |}.

(** The keys of an operation have pairwise different string forms. *)
Definition distinct_keys (keys : list PrimaryKey) : Prop :=
  NoDup (key_string <$> keys).

(** ** Invariants of the update loop *)

(** With [includeUnchanged], the loop never deletes a monitored field. *)
Definition keeps_monitored (o : MonitorOptions) (payload : Payload)
    (snapshot0 : list SnapshotItem) (handled : list PrimaryKey) (snapshot : list SnapshotItem)
    (mutations : list Pushed) : Prop :=
  item_key <$> snapshot = item_key <$> snapshot0
  ∧ (∀ (i : nat) item item0, snapshot !! i = Some item → snapshot0 !! i = Some item0 →
       ∀ f, f ∈ fields o → item_data item !! f = item_data item0 !! f)
  ∧ (∀ p, p ∈ mutations →
       pushed_key p ∈ handled
       ∧ ∃ item0, find_item snapshot0 (pushed_key p) = Some (pushed_previous p, item0)
           ∧ ∀ f, f ∈ fields o →
               pushed_current p !! f = committed o payload (item_data item0) !! f).

(** With keys of pairwise different string forms, each record comes from
    one turn of the loop on an item that no other turn touches. *)
Definition one_turn_each (o : MonitorOptions) (payload : Payload)
    (snapshot0 : list SnapshotItem) (handled : list PrimaryKey) (snapshot : list SnapshotItem)
    (mutations : list Pushed) : Prop :=
  NoDup (key_string <$> handled) →
  item_key <$> snapshot = item_key <$> snapshot0
  ∧ (∀ (i : nat) item, snapshot !! i = Some item →
       (∀ k, k ∈ handled → to_string (item_key item) ≠ key_string k) →
       snapshot0 !! i = Some item)
  ∧ (∀ p, p ∈ mutations →
       pushed_key p ∈ handled
       ∧ ∃ item0, find_item snapshot0 (pushed_key p) = Some (pushed_previous p, item0)
           ∧ hasChangesToMonitoredFields o (item_data item0)
               (committed o payload (item_data item0)) = true
           ∧ snapshot !! pushed_previous p
             = Some {| item_key := item_key item0;
                       item_data := (shake o (item_data item0)
                                       (committed o payload (item_data item0))).1 |}
           ∧ pushed_current p
             = (shake o (item_data item0) (committed o payload (item_data item0))).2).

(** ** Example data *)

(** A record store over the rows of one collection whose primary-key field
    is [id]: a read returns, for the rows whose key is asked for, the
    fields asked for, up to the limit. *)
Definition table (rows : list obj) : Host :=
  {| primary := fun _ => "id";
     readMany := fun q =>
       inr (take (q_limit q)
              ((fun row => filter (fun kv => kv.1 ∈ q_fields q) row)
               <$> List.filter
                     (fun row =>
                        bool_decide (to_string (get row "id") ∈ (key_string <$> q_keys q)))
                     rows)) |}.

(** A record store whose reads fail. *)
Definition unreachable : Host :=
  {| primary := fun _ => "id"; readMany := fun _ => inl "ECONNREFUSED" |}.

(** A subscriber that completes. *)
Definition quiet : HandlerCall -> bool := fun _ => true.

Definition article (id : Z) (status title : string) : obj :=
  {[ "id" := VNum id; "status" := VStr status; "title" := VStr title ]}.

Definition filter_meta (a : Action) (target : PrimaryKey + list PrimaryKey) : FilterMeta :=
  {| fm_event := event_name "articles" a; fm_collection := "articles"; fm_target := target |}.

Definition action_meta (a : Action) (payload : Payload) (target : PrimaryKey + list PrimaryKey)
    : ActionMeta :=
  {| am_event := event_name "articles" a; am_collection := "articles";
     am_payload := payload; am_target := target |}.

(** A monitor of the articles, the first registered, given a list of fields. *)
Definition watch (monitorFields : list string) : Monitor :=
  (monitor 0 "articles" (inl monitorFields) quiet).1.

(** The same with [includeUnchanged]. *)
Definition watch_unchanged (monitorFields : list string) : Monitor :=
  (monitor 0 "articles"
     (inr {| opt_fields := monitorFields; opt_includeUnchanged := Some true;
             opt_events := None; opt_useAccountability := Some true |}) quiet).1.

(** The store after the capture of one operation on an empty store, and the
    action hook of an operation. *)
Definition captured (host : Host) (mon : Monitor) (a : Action) (payload : Payload)
    (keys : list PrimaryKey) : Store :=
  res_store (filter_hook host mon (event_name "articles" a) 1000 1001 ∅ payload
               (filter_meta a (inr keys))).

Definition dispatched (mon : Monitor) (a : Action) (st : Store) (payload : Payload)
    (target : PrimaryKey + list PrimaryKey) : Result :=
  action_hook mon (event_name "articles" a) st (action_meta a payload target).

(** The call of the handler of the articles with the given records. *)
Definition called (a : Action) (payload : Payload) (mutations : list ChangeRecord) : HandlerCall :=
  {| call_mutations := mutations; call_collection := "articles";
     call_event := event_name "articles" a; call_payload := payload |}.

(** A store that holds one entry, under the fingerprint of an operation of
    the monitor on the given keys. *)
Definition holding (mon : Monitor) (a : Action) (keys : list PrimaryKey) (m : Mutation) : Store :=
  {[ createFingerprint (hookId mon) (event_name "articles" a) keys := m ]}.

(** The entry of an operation on article 1, captured at time 1000 with the
    given fields and data. *)
Definition entry (a : Action) (keys : list PrimaryKey) (captured_fields : list string)
    (data : obj) : Mutation :=
  {| m_timestamp := 1000; m_event := event_name "articles" a; m_keys := keys;
     m_fields := captured_fields;
     m_current := [ {| item_key := VNum 1; item_data := data |} ] |}.

(** An entry captured at time 0 and never consumed, and a store that holds
    it. *)
Definition abandoned : Mutation :=
  {| m_timestamp := 0; m_event := event_name "articles" update; m_keys := [PNum 7];
     m_fields := ["status"]; m_current := [] |}.

Definition littered : Store := {[ "0123456789abcdef0123456789abcdef" := abandoned ]}.

(** ** Notions used in the further statements *)

(** The monitor with another subscriber. *)
Definition with_handler (mon : Monitor) (h : HandlerCall -> bool) : Monitor :=
  {| hookId := hookId mon; monitorCollection := monitorCollection mon;
     options := options mon; handler := h |}.

(** Every field that the object holds is monitored. *)
Definition scoped (o : MonitorOptions) (data : obj) : Prop :=
  forall f, is_Some (data !! f) -> f ∈ fields o.

(** The records pushed so far hold monitored fields only, and their keys
    follow the order of the keys handled. *)
Definition pushed_scoped (o : MonitorOptions) (handled : list PrimaryKey)
    (snapshot : list SnapshotItem) (mutations : list Pushed) : Prop :=
  (forall p, p ∈ mutations ->
     pushed_key p ∈ handled
     /\ scoped o (pushed_current p)
     /\ exists item, snapshot !! pushed_previous p = Some item /\ scoped o (item_data item))
  /\ (pushed_key <$> mutations) `sublist_of` handled.

(** One run of a hook of the monitor, seen from the correlation store. A
    hook touches the store in one stretch without [await] (a filter hook
    after its read, an action hook before its handler call), so that the
    hooks that run between a capture and its dispatch come one after the
    other as far as the store goes. *)
Inductive HookRun : Type :=
  | RunFilter (host : Host) (event : string) (now_insert now_sweep : Z) (payload : Payload)
      (meta : FilterMeta)
  | RunAction (event : string) (meta : ActionMeta).

Definition run_hook (mon : Monitor) (st : Store) (run : HookRun) : Store :=
  match run with
  | RunFilter host event now_insert now_sweep payload meta =>
      res_store (filter_hook host mon event now_insert now_sweep st payload meta)
  | RunAction event meta => res_store (action_hook mon event st meta)
  end.

(** The run leaves alone the entry of fingerprint [fingerprint] that was
    captured at time [timestamp]: it is neither a capture nor a dispatch of
    that fingerprint, and if it is a capture, its sweep reads the clock no
    later than five minutes after [timestamp]. *)
Definition leaves_alone (mon : Monitor) (fingerprint : string) (timestamp : Z) (run : HookRun)
    : Prop :=
  match run with
  | RunFilter host event now_insert now_sweep payload meta =>
      (forall keys0,
         capture_keys (Str.split_pop (fm_event meta)) payload meta = Some keys0 ->
         createFingerprint (hookId mon) event keys0 <> fingerprint)
      /\ (now_sweep - timestamp <= FIVE_MINUTES)%Z
  | RunAction event meta =>
      createFingerprint (hookId mon) event (meta_keys (am_target meta)) <> fingerprint
  end.

(** * Locks: [thread-safe.ts] *)

Module ThreadSafe.

(** A queued request. [grant] names the promise that the request waits on;
    calling it resolves that promise. *)
Record LockQueueItem : Type := {
  shared : bool;
  grant : nat;
}.

(** What a method does besides changing the lock: [Granted w] is a call of
    the [grant] of waiter [w], [Resolved w] a request of [w] that returns
    without waiting, [Released] the emit of ['released']. *)
Inductive Event : Type :=
  | Granted (waiter : nat)
  | Resolved (waiter : nat)
  | Released.

#[global] Instance Event_eq_dec : EqDecision Event.
Proof. solve_decision. Defined.

(** [listening] tells whether the listener that [acquireLock] registers with
    [once] is still registered. The [achieved] date is left out. *)
Record ThreadSafeLock : Type := {
  target : nat;
  _shared : bool;
  shares : nat;
  queue : list LockQueueItem;
  listening : bool;
}.

(** [new ThreadSafeLock(target, shared)] *)
Definition new_lock (target0 : nat) (shared0 : bool) : ThreadSafeLock :=
  {| target := target0; _shared := shared0; shares := 0; queue := []; listening := false |}.

(** [while (this.queue.length > 0 && this.queue[0].shared) this.queue.shift().grant()]:
    the requests granted and the queue that is left. *)
Fixpoint grant_shared (q : list LockQueueItem) : list LockQueueItem * list LockQueueItem :=
  match q with
  | next :: q' =>
      if shared next then let '(granted, rest) := grant_shared q' in (next :: granted, rest)
      else ([], q)
  | [] => ([], [])
  end.

Definition release (l : ThreadSafeLock) : ThreadSafeLock * list Event :=
  if _shared l && Nat.ltb 0 (shares l) then
    ({| target := target l; _shared := _shared l; shares := shares l - 1; queue := queue l;
        listening := listening l |}, [])
  else
    match queue l with
    | next :: q =>
        if shared next then
          let '(granted, rest) := grant_shared q in
          ({| target := target l; _shared := true; shares := shares l; queue := rest;
              listening := listening l |},
           Granted (grant next) :: (Granted ∘ grant <$> granted))
        else
          ({| target := target l; _shared := false; shares := shares l; queue := q;
              listening := listening l |},
           [Granted (grant next)])
    | [] =>
        ({| target := target l; _shared := _shared l; shares := shares l; queue := [];
            listening := false |}, [Released])
    end.

(** [request(shared)] made by [waiter]. *)
Definition request (l : ThreadSafeLock) (shared0 : bool) (waiter : nat)
    : ThreadSafeLock * list Event :=
  if _shared l && shared0 then
    ({| target := target l; _shared := _shared l; shares := shares l + 1; queue := queue l;
        listening := listening l |}, [Resolved waiter])
  else
    ({| target := target l; _shared := _shared l; shares := shares l;
        queue := (queue l ++ [{| shared := shared0; grant := waiter |}])%list;
        listening := listening l |}, []).

(** The objects that exist, by address, and the module's map of the locks
    in use: a target is mapped to the address of its lock. *)
Record Locks : Type := {
  heap : list ThreadSafeLock;
  currentLocks : gmap nat nat;
}.

Definition no_locks : Locks := {| heap := []; currentLocks := ∅ |}.

(** [acquireLock(target, shared)] called by [waiter]: the state, the address
    of the lock that the caller gets, and what happens. *)
Definition acquireLock (s : Locks) (target0 : nat) (shared0 : bool) (waiter : nat)
    : Locks * nat * list Event :=
  match currentLocks s !! target0 with
  | None =>
      let newLock :=
        {| target := target0; _shared := shared0; shares := 0; queue := []; listening := true |} in
      ({| heap := (heap s ++ [newLock])%list;
          currentLocks := <[target0 := length (heap s)]> (currentLocks s) |},
       length (heap s), [Resolved waiter])
  | Some existingLock =>
      match heap s !! existingLock with
      | Some l =>
          let '(l', events) := request l shared0 waiter in
          ({| heap := <[existingLock := l']> (heap s); currentLocks := currentLocks s |},
           existingLock, events)
      | None => (s, existingLock, [])
      end
  end.

(** [lock.release()] on the lock at [address], with the listener of
    [acquireLock] run when ['released'] is emitted and it is registered. *)
Definition release_lock (s : Locks) (address : nat) : Locks * list Event :=
  match heap s !! address with
  | Some l =>
      let '(l', events) := release l in
      ({| heap := <[address := l']> (heap s);
          currentLocks :=
            if bool_decide (Released ∈ events) && listening l
            then base.delete (target l) (currentLocks s) else currentLocks s |},
       events)
  | None => (s, [])
  end.

(** *** Sequences of calls *)

Inductive Op : Type :=
  | Request (shared0 : bool) (waiter : nat)
  | Release.

Definition step (l : ThreadSafeLock) (op : Op) : ThreadSafeLock * list Event :=
  match op with
  | Request shared0 waiter => request l shared0 waiter
  | Release => release l
  end.

Fixpoint run (l : ThreadSafeLock) (ops : list Op) : ThreadSafeLock * list Event :=
  match ops with
  | [] => (l, [])
  | op :: ops' =>
      let '(l1, events1) := step l op in
      let '(l2, events2) := run l1 ops' in
      (l2, (events1 ++ events2)%list)
  end.

(** The waiters that got the lock, in order. *)
Definition entered (events : list Event) : list nat :=
  omap (fun e => match e with Granted w | Resolved w => Some w | Released => None end) events.

(** The waiters whose [grant] was called, and those whose request returned
    without waiting. *)
Definition granted (events : list Event) : list nat :=
  omap (fun e => match e with Granted w => Some w | _ => None end) events.

Definition resolved (events : list Event) : list nat :=
  omap (fun e => match e with Resolved w => Some w | _ => None end) events.

Definition requested (ops : list Op) : list LockQueueItem :=
  omap (fun op => match op with
                  | Request shared0 waiter => Some {| shared := shared0; grant := waiter |}
                  | Release => None
                  end) ops.

(** The number of holders after [ops], from [n] holders: a request that is
    granted or resolved adds a holder, a release is made by a holder and
    takes one away. [None] when a release is made without a holder. *)
Fixpoint holders (n : nat) (l : ThreadSafeLock) (ops : list Op) : option nat :=
  match ops with
  | [] => Some n
  | op :: ops' =>
      let '(l', events) := step l op in
      match op, n with
      | Release, 0 => None
      | Release, S m => holders (m + length (entered events)) l' ops'
      | Request _ _, _ => holders (n + length (entered events)) l' ops'
      end
  end.

Inductive Call : Type :=
  | Acquire (target0 : nat) (shared0 : bool) (waiter : nat)
  | ReleaseLock (address : nat).

Definition call (s : Locks) (c : Call) : Locks :=
  match c with
  | Acquire target0 shared0 waiter => (acquireLock s target0 shared0 waiter).1.1
  | ReleaseLock address => (release_lock s address).1
  end.

(** The map holds, for each target, the lock of that target whose listener
    is registered, and no lock with a registered listener is missing. *)
Definition registered (s : Locks) : Prop :=
  (forall t a, currentLocks s !! t = Some a ->
     exists l, heap s !! a = Some l /\ target l = t /\ listening l = true)
  /\ (forall a l, heap s !! a = Some l -> listening l = true ->
        currentLocks s !! target l = Some a).

End ThreadSafe.

(** * Authorisation of custom endpoints: [auth.ts] *)

Module Auth.

(** [s.split('?').shift()]: the part of [s] before its first question
    mark. *)
Fixpoint split_shift (s : string) : string :=
  match s with
  | EmptyString => EmptyString
  | String c s' =>
      if Ascii.eqb c "?"%char then EmptyString else String c (split_shift s')
  end.

(** [ids.includes(id)] *)
Definition includes (ids : list value) (id : value) : bool :=
  existsb (fun x => strict_eq x id) ids.

(** An accountability is an object with the properties [role], [user],
    [admin] and others; a request may carry none. *)
Record ApiEndpointRequest : Type := {
  originalUrl : string;
  accountability : option obj;
}.

(** An item of [config_endpoints] as the query returns it, with the ids of
    the related roles and users. *)
Record ConfigEndpointsQueryItem : Type := {
  status : string;
  allow_public_access : option bool;
  roles : list value;
  users : list value;
}.

(** The error caught: one of the three thrown by the middleware itself, with
    the messages [Unconfigured endpoint], [DISABLED endpoint] and
    [User not authorized: ] followed by the accountability as JSON, or the
    error of a read that failed. *)
Inductive Failure : Type :=
  | Unconfigured
  | Disabled
  | NotAuthorized (accountability : option obj)
  | ReadFailed (message : string).

(** [LogError url failure] stands for the line
    [endpointAuth: Endpoint authR failed for ${url}: ${message}]; [Next None]
    is [next()] and [Next (Some code)] is [next(error)] with an error made
    by [createError(code, '')]. A call of [next] is taken to return. *)
Inductive Effect : Type :=
  | LogDebug (message : string)
  | LogError (url : string) (failure : Failure)
  | Next (error : option string).

(** [endpointConfigService.readByQuery] with the filter
    [{ endpoint: { _eq: endpointUrl } }]: an error or the items found. *)
Record Host : Type := {
  readByQuery : string -> string + list ConfigEndpointsQueryItem;
}.

(** [req.accountability?.role] and [req.accountability?.user] *)
Definition property (accountability : option obj) (name : string) : value :=
  match accountability with
  | Some a => get a name
  | None => VUndefined
  end.

(** The body of the [try] block: what it does before it ends, and the error
    it throws, if any. *)
Definition check (host : Host) (endpointUrl : string) (req : ApiEndpointRequest)
    : list Effect * option Failure :=
  match readByQuery host endpointUrl with
  | inl message => ([], Some (ReadFailed message))
  | inr [] => ([], Some Unconfigured)
  | inr (currentEndpointConfig :: _) =>
      if negb (String.eqb (status currentEndpointConfig) "enabled") then ([], Some Disabled)
      else if truthy (allow_public_access currentEndpointConfig) then
        ([LogDebug ("endpointAuth: Endpoint " ++ endpointUrl ++ " allows public access");
          Next None], None)
      else
        let authorizedRoles := roles currentEndpointConfig in
        let authorizedUsers := users currentEndpointConfig in
        if negb (includes authorizedRoles (property (accountability req) "role"))
           && negb (includes authorizedUsers (property (accountability req) "user"))
        then ([], Some (NotAuthorized (accountability req)))
        else ([Next None], None)
  end.

(** The middleware that [endpointAuth(context)] returns. *)
Definition endpointAuth (host : Host) (req : ApiEndpointRequest) : list Effect :=
  let endpointUrl := split_shift (originalUrl req) in
  let '(effects, thrown) := check host endpointUrl req in
  LogDebug ("endpointAuth: Checking authR on endpoint " ++ endpointUrl)
    :: effects
    ++ match thrown with
       | Some failure =>
           [LogError (originalUrl req) failure; Next (Some "ENDPOINT_AUTH_FORBIDDEN")]
       | None => []
       end.

(** [{ ...accountability, admin: true }] *)
Definition elevateRights (accountability : obj) : obj :=
  <["admin" := VBool true]> accountability.

(** The calls of [next], in order. *)
Definition next_calls (effects : list Effect) : list (option string) :=
  omap (fun e => match e with Next error => Some error | _ => None end) effects.

Definition errors_logged (effects : list Effect) : list Failure :=
  omap (fun e => match e with LogError _ failure => Some failure | _ => None end) effects.

(** The configuration that lets a request through. *)
Definition lets_through (config : ConfigEndpointsQueryItem) (req : ApiEndpointRequest) : Prop :=
  status config = "enabled"
  /\ (allow_public_access config = Some true
      \/ property (accountability req) "role" ∈ roles config
      \/ property (accountability req) "user" ∈ users config).

End Auth.

(** * Logging of synchronisation errors: [errors.ts] *)

Module Errors.
#[local] Open Scope list_scope.

(** A JS string as the sequence of its UTF-16 code units: [s.length] is the
    length of the sequence and [s.slice(0, n)] its first [n] units. *)
Definition Text : Type := list nat.

(** The text of a literal of the source, or of a number written out: all
    its characters are ASCII. *)
Definition text (s : string) : Text := nat_of_ascii <$> list_ascii_of_string s.

(** An id of an item: a number, given by the text that JS writes for it,
    or a string. *)
Inductive Id : Type :=
  | IdNumber (written : Text)
  | IdString (t : Text).

(** [`${id}`] and [id.toString()], which give the same text. *)
Definition id_text (id : Id) : Text :=
  match id with
  | IdNumber written => written
  | IdString t => t
  end.

(** [details.error]: an [Error] with its message and its stack, which may
    be undefined, or a message only. *)
Inductive ErrorOrString : Type :=
  | AnError (message : Text) (stack : option Text)
  | AString (message : Text).

(** What [JSON.stringify] does with the debug data: it returns a text, or
    returns [undefined] (for data whose [toJSON] gives nothing), or throws
    (for data with a cycle or with a BigInt). *)
Inductive Stringify : Type :=
  | Stringified (json : Text)
  | NotStringified
  | StringifyThrows (err : string).

(** [targetId], [debugData] and [customMessage] are [None] when they are
    missing; [debugData], when there is one, stands for what
    [JSON.stringify] does with it. *)
Record SyncErrorDetails : Type := {
  sourceService : Text;
  sourceCollection : Text + list Text;
  sourceId : Id;
  targetService : Text;
  targetCollection : Text + list Text;
  targetId : option Id;
  error : ErrorOrString;
  debugData : option Stringify;
  customMessage : option Text;
}.

(** The value of a column that may be left empty. *)
Inductive Column : Type :=
  | ColumnText (t : Text)
  | ColumnNull
  | ColumnUndefined.

Record SyncErrorsItem : Type := {
  source : Text;
  source_id : Text;
  target : Text;
  target_id : Column;
  message : Text;
  stack_trace : Column;
  debug_data : Column;
}.

Inductive Effect : Type :=
  | LogError (line : Text)
  | CreateOne (item : SyncErrorsItem)
  | LogFatal (err : string).

(** [directus.getSchema()], [new directus.services.ItemsService(...)] and
    [errorsItemService.createOne(item)], each of which may fail with an
    error. *)
Record Host : Type := {
  getSchema : option string;
  newItemsService : option string;
  createOne : SyncErrorsItem -> option string;
}.

Definition MAX_MESSAGE_LENGTH : nat := 255.

(** [array.join(',')], which is what a template literal makes of an array
    of strings. *)
Fixpoint join (l : list Text) : Text :=
  match l with
  | [] => []
  | [x] => x
  | x :: l' => x ++ text "," ++ join l'
  end.

Definition collection_text (c : Text + list Text) : Text :=
  match c with
  | inl t => t
  | inr l => join l
  end.

(** The message: the custom message, when there is one and it is not
    empty, then the message of the error. *)
Definition full_message (details : SyncErrorDetails) : Text :=
  match customMessage details with
  | Some [] | None => []
  | Some custom => custom ++ text " | "
  end
  ++ match error details with
     | AnError msg _ => msg
     | AString msg => msg
     end.

Definition console_line (details : SyncErrorDetails) : Text :=
  text "SYNC ERROR: " ++ sourceService details ++ text "."
  ++ collection_text (sourceCollection details)
  ++ text " (id " ++ id_text (sourceId details) ++ text ") -> "
  ++ targetService details ++ text "." ++ collection_text (targetCollection details)
  ++ text " (id " ++ from_option id_text (text "null") (targetId details) ++ text "): "
  ++ full_message details.

(** The object given to [createOne]. Its properties are evaluated in order,
    [debug_data] last: when [JSON.stringify] throws there, there is no
    object, and the error is the result. *)
Definition sync_errors_item (details : SyncErrorDetails) : string + SyncErrorsItem :=
  let item (data : Column) : SyncErrorsItem :=
    {| source := sourceService details ++ text "." ++ collection_text (sourceCollection details);
       source_id := id_text (sourceId details);
       target := targetService details ++ text "." ++ collection_text (targetCollection details);
       target_id := from_option (fun id => ColumnText (id_text id)) ColumnNull (targetId details);
       message := take MAX_MESSAGE_LENGTH (full_message details);
       stack_trace :=
         match error details with
         | AnError _ (Some stack) => ColumnText stack
         | AnError _ None => ColumnUndefined
         | AString _ => ColumnNull
         end;
       debug_data := data |} in
  match debugData details with
  | None => inr (item ColumnNull)
  | Some (Stringified json) => inr (item (ColumnText json))
  | Some NotStringified => inr (item ColumnUndefined)
  | Some (StringifyThrows err) => inl err
  end.

(** [logSyncError(directus, details)]: what it does, and the error it
    throws, if any. The schema is read and the service is made before the
    [try]; the object is built and [createOne] is called inside it, and its
    [catch] logs the error as fatal. *)
Definition logSyncError (host : Host) (details : SyncErrorDetails)
    : list Effect * option string :=
  match getSchema host with
  | Some err => ([LogError (console_line details)], Some err)
  | None =>
      match newItemsService host with
      | Some err => ([LogError (console_line details)], Some err)
      | None =>
          match sync_errors_item details with
          | inl err => ([LogError (console_line details); LogFatal err], None)
          | inr item =>
              (LogError (console_line details) :: CreateOne item ::
                 match createOne host item with
                 | Some err => [LogFatal err]
                 | None => []
                 end,
               None)
          end
      end
  end.

(** The items created, in order. *)
Definition created (effects : list Effect) : list SyncErrorsItem :=
  omap (fun e => match e with CreateOne item => Some item | _ => None end) effects.

Definition fatal (effects : list Effect) : list string :=
  omap (fun e => match e with LogFatal err => Some err | _ => None end) effects.

End Errors.

(** * The copy made by [minimalUpsert]: [cloneDeep] *)

Module MinimalUpsert.
#[local] Set Warnings "-register-all".

(** The values given to [cloneDeep]: primitives, dates (objects without
    enumerable properties of their own), arrays, and plain objects as the
    list of their own properties in the order of [Object.keys], in which no
    key occurs twice. *)
Inductive Json : Type :=
  | JUndefined
  | JNull
  | JBool (b : bool)
  | JNum (n : Z)
  | JStr (s : string)
  | JDate (time : Z)
  | JArray (items : list Json)
  | JObject (props : list (string * Json)).

(** The values it returns. An object of the copy is made by [{}] and has
    the prototype of objects ([proto] is [None]), unless the copy of a
    property named [__proto__] was assigned to it: the assignment goes to
    the setter of [Object.prototype], which makes no property and, given an
    object or [null], makes it the prototype of the copy. *)
Inductive Copy : Type :=
  | CUndefined
  | CNull
  | CBool (b : bool)
  | CNum (n : Z)
  | CStr (s : string)
  | CArray (items : list Copy)
  | CObject (proto : option Copy) (props : list (string * Copy)).

(** The values that the setter of [__proto__] takes for a prototype. *)
Definition settable (c : Copy) : bool :=
  match c with
  | CNull | CArray _ | CObject _ _ => true
  | _ => false
  end.

(** The loop over the keys of an object, with the function that copies a
    value as a parameter: the prototype and the properties of the copy. A
    property whose value is undefined is skipped. [cloneDeep] below has the
    same loop inside. *)
Definition copy_props (clone : Json -> Copy)
    : list (string * Json) -> option Copy * list (string * Copy) :=
  fix copy (props : list (string * Json)) : option Copy * list (string * Copy) :=
    match props with
    | [] => (None, [])
    | (key, JUndefined) :: rest => copy rest
    | (key, value) :: rest =>
        let '(proto, out) := copy rest in
        if String.eqb key "__proto__" then
          (match proto with
           | Some _ => proto
           | None => if settable (clone value) then Some (clone value) else None
           end, out)
        else (proto, (key, clone value) :: out)
    end.

(** [cloneDeep(val)]: an array is mapped, a primitive is returned as it is,
    and any other object is rebuilt from its own enumerable properties. *)
Fixpoint cloneDeep (val : Json) : Copy :=
  match val with
  | JUndefined => CUndefined
  | JNull => CNull
  | JBool b => CBool b
  | JNum n => CNum n
  | JStr s => CStr s
  | JDate _ => CObject None []
  | JArray items => CArray (List.map cloneDeep items)
  | JObject props =>
      let '(proto, out) :=
        (fix copy (props : list (string * Json)) : option Copy * list (string * Copy) :=
           match props with
           | [] => (None, [])
           | (key, JUndefined) :: rest => copy rest
           | (key, value) :: rest =>
               let '(proto, out) := copy rest in
               if String.eqb key "__proto__" then
                 (match proto with
                  | Some _ => proto
                  | None => if settable (cloneDeep value) then Some (cloneDeep value) else None
                  end, out)
               else (proto, (key, cloneDeep value) :: out)
           end) props in
      CObject proto out
  end.

Definition is_undefined (val : Json) : bool :=
  match val with JUndefined => true | _ => false end.

(** The value that a copy shows through the properties of its own. *)
Fixpoint own (c : Copy) : Json :=
  match c with
  | CUndefined => JUndefined
  | CNull => JNull
  | CBool b => JBool b
  | CNum n => JNum n
  | CStr s => JStr s
  | CArray items => JArray (List.map own items)
  | CObject _ props => JObject (List.map (fun kv => let '(key, c') := kv in (key, own c')) props)
  end.

(** Every object of the copy has the prototype of objects. *)
Fixpoint default_prototypes (c : Copy) : bool :=
  match c with
  | CArray items => forallb default_prototypes items
  | CObject None props => forallb (fun kv => let '(_, c') := kv in default_prototypes c') props
  | CObject (Some _) _ => false
  | _ => true
  end.

(** A value without dates, without properties whose value is undefined and
    without properties named [__proto__], at any depth. An undefined element
    of an array is allowed. *)
Fixpoint plain (val : Json) : bool :=
  match val with
  | JArray items => forallb plain items
  | JObject props =>
      forallb (fun kv => let '(key, value) := kv in
                         negb (String.eqb key "__proto__")
                         && negb (is_undefined value) && plain value) props
  | JDate _ => false
  | _ => true
  end.

(** The properties that the copy of an object takes over. *)
Definition copied (kv : string * Json) : bool :=
  negb (is_undefined kv.2) && negb (String.eqb kv.1 "__proto__").

End MinimalUpsert.

(** ** Further example data *)

(** A monitor of the status of the articles, the entry of an operation on
    article 1 captured as a draft, and the store that holds it. *)
Definition status_watch : Monitor := watch ["status"].

Definition draft_item : SnapshotItem :=
  {| item_key := VNum 1; item_data := {[ "status" := VStr "draft" ]} |}.

Definition draft_entry (a : Action) : Mutation :=
  entry a [PNum 1] ["status"] {[ "status" := VStr "draft" ]}.

Definition draft_store (a : Action) : Store :=
  holding status_watch a [PNum 1] (draft_entry a).

(** The payload that publishes, the metadata of its update of article 1 and
    the record that the handler is given for it. *)
Definition publish : Payload := PObject {[ "status" := VStr "published" ]}.

Definition publish_meta : ActionMeta := action_meta update publish (inr [PNum 1]).

Definition published_record : ChangeRecord :=
  {| action := update; key := VNum 1;
     previous := {[ "status" := VStr "draft" ]};
     current := {[ "status" := VStr "published" ]} |}.

(** The hooks of an update that archives article 2, captured at time 2000
    and dispatched. *)
Definition meanwhile : list HookRun :=
  [ RunFilter (table [article 2 "draft" "U"]) (event_name "articles" update) 2000 2001
      (PObject {[ "status" := VStr "archived" ]}) (filter_meta update (inr [PNum 2]));
    RunAction (event_name "articles" update)
      (action_meta update (PObject {[ "status" := VStr "archived" ]}) (inr [PNum 2])) ].

(** The metadata of the delete of article 1. *)
Definition remove_meta : ActionMeta := action_meta delete (PArray [PNum 1]) (inr [PNum 1]).

(** A new exclusive lock after two shared requests and an exclusive one:
    all three wait. *)
Definition readers_then_writer : ThreadSafe.ThreadSafeLock :=
  (ThreadSafe.run (ThreadSafe.new_lock 0 false)
     [ThreadSafe.Request true 1; ThreadSafe.Request true 2; ThreadSafe.Request false 3]).1.

(** * Properties *)

(** ** MD5 and the fingerprint on known inputs *)

Example md5_empty : Md5.hex EmptyString = "d41d8cd98f00b204e9800998ecf8427e".
Proof. vm_compute. reflexivity. Qed.

Example md5_abc : Md5.hex "abc" = "900150983cd24fb0d6963f7d28e17f72".
Proof. vm_compute. reflexivity. Qed.

Example md5_fox :
  Md5.hex "The quick brown fox jumps over the lazy dog"
  = "9e107d9d372bb6826bd81d3542a419d6".
Proof. vm_compute. reflexivity. Qed.

Example md5_two_blocks :
  Md5.hex "aaaaaaaaaaaaaaaaaaaaaaaaaaaaaaaaaaaaaaaaaaaaaaaaaaaaaaaaaaaaaaaa"
  = "014842d480b571495a4a0363793f7367".
Proof. vm_compute. reflexivity. Qed.

Example fingerprint_12 :
  createFingerprint 0 "articles.items.update" [PNum 2; PNum 1]
  = "7d6c74475e188ec47d424e3d08eee477".
Proof. vm_compute. reflexivity. Qed.

Example fingerprint_mixed :
  createFingerprint 0 "articles.items.update" [PNum 1; PStr "1"] = "fee635a9a263e2135fc17a15ea6577fd"
  /\ createFingerprint 0 "articles.items.update" [PStr "1"; PNum 1] = "fa8b9c835dec0bdfff4f3706da290b9d".
Proof. vm_compute. split; reflexivity. Qed.

Example sort_by_string : Array.sort [PNum 9; PNum 10; PNum 1] = [PNum 1; PNum 10; PNum 9].
Proof. vm_compute. reflexivity. Qed.

(** ** Event names *)

Lemma string_length_app s1 s2 :
  String.length (s1 ++ s2) = String.length s1 + String.length s2.
Proof. induction s1 as [|c s1 IH]; simpl; [done | by rewrite IH]. Qed.

Lemma eqb_length_ne s1 s2 :
  String.length s1 ≠ String.length s2 → String.eqb s1 s2 = false.
Proof. intros Hlen. apply String.eqb_neq. by intros ->. Qed.

Lemma endsWith_short s suffix :
  String.length s < String.length suffix → Str.endsWith s suffix = false.
Proof.
  induction s as [|c s IH]; intros Hlen.
  - destruct suffix; simpl in *; [lia | done].
  - cbn [Str.endsWith]. rewrite eqb_length_ne by lia. apply IH. simpl in Hlen. lia.
Qed.

Lemma endsWith_same_length a b :
  String.length a = String.length b → Str.endsWith a b = String.eqb a b.
Proof.
  intros Hlen. destruct a as [|c a]; cbn [Str.endsWith].
  - by destruct (String.eqb _ _).
  - destruct (String.eqb (String c a) b); [done|].
    apply endsWith_short. simpl in Hlen. lia.
Qed.

Lemma endsWith_app p a b :
  String.length a = String.length b → Str.endsWith (p ++ a) b = String.eqb a b.
Proof.
  intros Hlen. induction p as [|c p IH].
  - by apply endsWith_same_length.
  - change (String c p ++ a) with (String c (p ++ a)). cbn [Str.endsWith].
    rewrite eqb_length_ne; [done|]. simpl. rewrite string_length_app. lia.
Qed.

Lemma last_segment_app acc p a w :
  (∀ acc', Str.last_segment_from acc' a = w) →
  Str.last_segment_from acc (p ++ a) = w.
Proof.
  intros Ha. revert acc. induction p as [|c p IH]; intros acc; simpl; [done|].
  by destruct (Ascii.eqb c "."%char).
Qed.

Lemma bound_to_tests mon a event meta_event :
  bound_to mon a event meta_event →
  Str.split_pop meta_event = action_name a
  ∧ Str.endsWith meta_event ".items.create" = bool_decide (a = create)
  ∧ Str.endsWith meta_event ".items.update" = bool_decide (a = update)
  ∧ Str.endsWith meta_event ".items.delete" = bool_decide (a = delete)
  ∧ Str.endsWith event ".items.delete" = bool_decide (a = delete).
Proof.
  intros [-> ->]. unfold event_name, Str.split_pop.
  split; [|rewrite !endsWith_app by (by destruct a)]; destruct a; simpl;
    try (by apply last_segment_app); done.
Qed.

(** ** Sorting of keys *)

Section sorting.

Lemma ltb_leb s1 s2 : String.ltb s1 s2 = true → String.leb s1 s2 = true.
Proof. unfold String.ltb, String.leb. destruct (String.compare s1 s2); simpl; congruence. Qed.

Lemma ltb_false_leb s1 s2 : String.ltb s1 s2 = false → String.leb s2 s1 = true.
Proof.
  unfold String.ltb, String.leb. rewrite (String.compare_antisym s1 s2).
  destruct (String.compare s2 s1); simpl; congruence.
Qed.

Lemma leb_trans s1 s2 s3 :
  String.leb s1 s2 = true → String.leb s2 s3 = true → String.leb s1 s3 = true.
Proof.
  unfold String.leb. intros H12 H23.
  destruct (String.compare s1 s2) eqn:E12; [| |done].
  { apply String.compare_eq_iff in E12. by subst. }
  destruct (String.compare s2 s3) eqn:E23; [| |done].
  { apply String.compare_eq_iff in E23. subst. by rewrite E12. }
  apply String_as_OT.cmp_lt in E12, E23.
  pose proof (String_as_OT.lt_trans _ _ _ E12 E23) as H13.
  apply String_as_OT.cmp_lt in H13. unfold String_as_OT.cmp in H13. by rewrite H13.
Qed.

#[local] Instance key_le_trans : Transitive key_le.
Proof. intros a b c. apply leb_trans. Qed.

Lemma sort_insert_perm x l : Array.sort_insert x l ≡ₚ x :: l.
Proof.
  induction l as [|y l IH]; simpl; [done|].
  destruct (String.ltb _ _); [done|]. by rewrite IH, Permutation_swap.
Qed.

Lemma sort_insert_sorted x l : Sorted key_le l → Sorted key_le (Array.sort_insert x l).
Proof.
  induction 1 as [|y l Hl IH Hy]; simpl.
  { by repeat constructor. }
  destruct (String.ltb (key_string x) (key_string y)) eqn:E.
  { constructor; [by constructor|]. constructor. by apply ltb_leb. }
  constructor; [done|].
  destruct Hy as [|z l Hyz]; simpl.
  - constructor. by apply ltb_false_leb.
  - destruct (String.ltb (key_string x) (key_string z)); constructor;
      [by apply ltb_false_leb | done].
Qed.

Lemma foldl_sort_insert acc l :
  Sorted key_le acc →
  Sorted key_le (foldl (fun sorted x => Array.sort_insert x sorted) acc l)
  ∧ foldl (fun sorted x => Array.sort_insert x sorted) acc l ≡ₚ acc ++ l.
Proof.
  revert acc. induction l as [|x l IH]; intros acc Hacc; simpl.
  { by rewrite app_nil_r. }
  destruct (IH (Array.sort_insert x acc)) as [Hs Hp]; [by apply sort_insert_sorted|].
  split; [done|]. rewrite Hp, sort_insert_perm. simpl. apply Permutation_middle.
Qed.

Lemma sort_sorted keys : Sorted key_le (Array.sort keys).
Proof. apply foldl_sort_insert. constructor. Qed.

Lemma sort_perm keys : Array.sort keys ≡ₚ keys.
Proof. apply (foldl_sort_insert [] keys). constructor. Qed.

Lemma elem_of_sort k keys : k ∈ Array.sort keys ↔ k ∈ keys.
Proof. by rewrite sort_perm. Qed.

Lemma elem_of_sort_1 k keys : k ∈ Array.sort keys → k ∈ keys.
Proof. apply elem_of_sort. Qed.

Lemma elem_of_sort_2 k keys : k ∈ keys → k ∈ Array.sort keys.
Proof. apply elem_of_sort. Qed.

Lemma sort_permutation keys keys' :
  distinct_strings keys → keys ≡ₚ keys' → Array.sort keys = Array.sort keys'.
Proof.
  intros Hinj Hp. apply (Sorted_unique_strong key_le).
  - intros a b Ha Hb Hab Hba.
    rewrite elem_of_sort in Ha. rewrite elem_of_sort in Hb.
    apply Hinj; [done | by rewrite Hp |]. by apply String.leb_antisym.
  - apply sort_sorted.
  - apply sort_sorted.
  - by rewrite !sort_perm.
Qed.

Lemma distinct_strings_numbers (ns : list Z) : distinct_strings (PNum <$> ns).
Proof.
  intros a b (n & -> & _)%list_elem_of_fmap (m & -> & _)%list_elem_of_fmap.
  unfold key_string; simpl. intros H. f_equal. by apply (inj (pretty : Z → string)).
Qed.

Lemma distinct_strings_strings (ss : list string) : distinct_strings (PStr <$> ss).
Proof.
  intros a b (n & -> & _)%list_elem_of_fmap (m & -> & _)%list_elem_of_fmap.
  unfold key_string; simpl. by intros ->.
Qed.

End sorting.

(** ** Objects *)

Lemma includes_true l f : Array.includes l f = true ↔ f ∈ l.
Proof. unfold Array.includes. by rewrite bool_decide_eq_true. Qed.

Lemma includes_false l f : Array.includes l f = false ↔ f ∉ l.
Proof. unfold Array.includes. by rewrite bool_decide_eq_false. Qed.

Lemma strict_eq_true a b : strict_eq a b = true ↔ a = b.
Proof. unfold strict_eq. by rewrite bool_decide_eq_true. Qed.

Lemma strict_eq_false a b : strict_eq a b = false ↔ a ≠ b.
Proof. unfold strict_eq. by rewrite bool_decide_eq_false. Qed.

Section maps.
Context {A : Type}.
Implicit Types (m : gmap string A) (k : string).

Lemma elem_of_object_keys m k : k ∈ object_keys m ↔ is_Some (m !! k).
Proof.
  unfold object_keys. rewrite list_elem_of_fmap. split.
  - intros ([k' x] & -> & Hkx). apply elem_of_map_to_list in Hkx. by exists x.
  - intros [x Hx]. exists (k, x). split; [done|]. by apply elem_of_map_to_list.
Qed.

Lemma NoDup_object_keys m : NoDup (object_keys m).
Proof. apply NoDup_fst_map_to_list. Qed.

(** A run of [delete] statements. *)
Lemma lookup_foldl_delete (l : list string) m k :
  foldl (fun s x => base.delete x s) m l !! k
  = if decide (k ∈ l) then None else m !! k.
Proof.
  revert m. induction l as [|x l IH]; intros m; cbn [foldl].
  { case_decide; [set_solver | done]. }
  rewrite IH, lookup_delete. repeat case_decide; simplify_eq; try done; set_solver.
Qed.

End maps.

Lemma get_delete (o : obj) f g :
  get (base.delete f o) g = if decide (f = g) then VUndefined else get o g.
Proof. unfold get. rewrite lookup_delete. by destruct (decide (f = g)). Qed.

Lemma get_undefined_not_key (o : obj) f : f ∉ object_keys o → get o f = VUndefined.
Proof.
  rewrite elem_of_object_keys, <-eq_None_not_Some. unfold get. by intros ->.
Qed.

(** ** The shake loop *)

Section shake.
Variable o : MonitorOptions.

Lemma shake_step_eq previous current field :
  shake_step o (previous, current) field
  = if shaken_out o previous current field
    then (base.delete field previous, base.delete field current)
    else (previous, current).
Proof. reflexivity. Qed.

Lemma foldl_shake_step l previous current g :
  (foldl (shake_step o) (previous, current) l).1 !! g
  = (if bool_decide (g ∈ l) && shaken_out o previous current g then None else previous !! g)
  ∧ (foldl (shake_step o) (previous, current) l).2 !! g
    = (if bool_decide (g ∈ l) && shaken_out o previous current g then None else current !! g).
Proof.
  revert previous current. induction l as [|f l IH]; intros previous current; cbn [foldl].
  { done. }
  rewrite shake_step_eq.
  destruct (shaken_out o previous current f) eqn:Hf.
  - destruct (IH (base.delete f previous) (base.delete f current)) as [IH1 IH2].
    rewrite IH1, IH2. destruct (decide (g = f)) as [->|Hne].
    + rewrite !lookup_delete_eq, (bool_decide_eq_true_2 (f ∈ f :: l)) by set_solver.
      rewrite Hf. simpl. by destruct (_ && _).
    + rewrite !lookup_delete_ne by done.
      assert (bool_decide (g ∈ f :: l) = bool_decide (g ∈ l)) as ->.
      { apply bool_decide_ext. set_solver. }
      assert (shaken_out o (base.delete f previous) (base.delete f current) g
              = shaken_out o previous current g) as ->; [|done].
      unfold shaken_out. by rewrite !get_delete, !decide_False by done.
  - destruct (IH previous current) as [IH1 IH2]. rewrite IH1, IH2.
    destruct (decide (g = f)) as [->|Hne].
    + rewrite Hf, !andb_false_r. done.
    + assert (bool_decide (g ∈ f :: l) = bool_decide (g ∈ l)) as ->; [|done].
      apply bool_decide_ext. set_solver.
Qed.

Lemma shake_lookup previous current g :
  (shake o previous current).1 !! g
  = (if shaken_out o previous current g then None else previous !! g)
  ∧ (shake o previous current).2 !! g
    = (if shaken_out o previous current g then None else current !! g).
Proof.
  unfold shake.
  destruct (foldl_shake_step (object_keys previous ++ object_keys current)%list previous current g)
    as [H1 H2].
  rewrite H1, H2. clear H1 H2.
  destruct (decide (g ∈ (object_keys previous ++ object_keys current)%list)) as [Hin|Hnin].
  { by rewrite bool_decide_eq_true_2. }
  rewrite bool_decide_eq_false_2 by done. simpl.
  rewrite elem_of_app, !elem_of_object_keys in Hnin.
  assert (previous !! g = None) as -> by (apply eq_None_not_Some; tauto).
  assert (current !! g = None) as -> by (apply eq_None_not_Some; tauto).
  by destruct (shaken_out _ _ _ _).
Qed.

End shake.

(** ** The fingerprint *)

(** C5 (amended): the fingerprint is the same for two orders of the keys when
    no two distinct keys have the same string form, as in a list of numbers
    only or of strings only; an entry stored under the fingerprint of one
    order is then found under the fingerprint of the other. *)
Theorem C5_fingerprint_permutation (hookId : nat) (event : string)
    (keys keys' : list PrimaryKey) (st : Store) (m : Mutation) :
  distinct_strings keys →
  keys ≡ₚ keys' →
  createFingerprint hookId event keys = createFingerprint hookId event keys'
  ∧ <[createFingerprint hookId event keys := m]> st
      !! createFingerprint hookId event keys' = Some m.
Proof.
  intros Hd Hp.
  assert (createFingerprint hookId event keys = createFingerprint hookId event keys') as E.
  { unfold createFingerprint. by rewrite (sort_permutation keys keys'). }
  split; [done|]. rewrite E. apply lookup_insert_eq.
Qed.

(** ** The sweep *)

Lemma elem_of_oldMutations now (st : Store) k :
  k ∈ oldMutations now st ↔ ∃ m, st !! k = Some m ∧ is_old now m = true.
Proof.
  unfold oldMutations. rewrite list_elem_of_In, filter_In, <-list_elem_of_In.
  rewrite elem_of_object_keys. split.
  - intros [[m Hm] H]. rewrite Hm in H. by exists m.
  - intros (m & Hm & H). rewrite Hm. split; [by exists m | done].
Qed.

Lemma NoDup_oldMutations now (st : Store) : NoDup (oldMutations now st).
Proof.
  unfold oldMutations. apply NoDup_ListNoDup, List.NoDup_filter, NoDup_ListNoDup.
  apply NoDup_object_keys.
Qed.

Lemma sweep_lookup now (st : Store) k :
  (sweep now st).1 !! k
  = match st !! k with
    | Some m => if is_old now m then None else Some m
    | None => None
    end.
Proof.
  unfold sweep. cbn [fst]. rewrite lookup_foldl_delete.
  destruct (decide (k ∈ oldMutations now st)) as [Hin|Hnin].
  - apply elem_of_oldMutations in Hin as (m & -> & ->). done.
  - destruct (st !! k) as [m|] eqn:Hm; [|done].
    destruct (is_old now m) eqn:Ho; [|done].
    destruct Hnin. apply elem_of_oldMutations. by exists m.
Qed.

Lemma sweep_store now (st : Store) :
  (sweep now st).1 = filter (fun kv => is_old now kv.2 = false) st.
Proof.
  apply map_eq. intros k. rewrite sweep_lookup. apply option_eq. intros m.
  rewrite map_lookup_filter_Some. cbn [snd]. split.
  - destruct (st !! k) as [m'|]; [|done].
    destruct (is_old now m') eqn:Ho; [done|]. by intros [= ->].
  - intros [-> ->]. done.
Qed.

(** ** The filter hook *)

(** What a capture that reaches the store read does, by the answer of the
    store. *)
Lemma filter_hook_capture host mon a event now_insert now_sweep st payload meta keys0 :
  bound_to mon a event (fm_event meta) →
  a ≠ create →
  capture_keys (action_name a) payload meta = Some keys0 →
  let o := options mon in
  let flds := capture_fields o (action_name a) payload in
  let pk := primary host (fm_collection meta) in
  filter_hook host mon event now_insert now_sweep st payload meta
  = match readMany host (capture_query host o (fm_collection meta) (Array.sort keys0) flds) with
    | inl e => {| res_store := st; res_effects := []; res_outcome := Thrown (StoreError e) |}
    | inr currentItems =>
        let st1 :=
          <[createFingerprint (hookId mon) event keys0 :=
              {| m_timestamp := now_insert; m_event := event; m_keys := Array.sort keys0;
                 m_fields := flds;
                 m_current := snapshot_item pk <$> currentItems |}]> st in
        {| res_store := (sweep now_sweep st1).1;
           res_effects := (sweep now_sweep st1).2;
           res_outcome := Returned |}
    end.
Proof.
  intros Hb Ha Hk. apply bound_to_tests in Hb as (Hn & Hc & Hu & Hd & _).
  unfold filter_hook. rewrite Hc, Hu, Hd, Hn, Hk.
  rewrite (bool_decide_eq_false_2 (a = create)) by done.
  assert (negb (bool_decide (a = update)) && negb (bool_decide (a = delete)) = false) as ->.
  { destruct a; done. }
  cbn zeta. by destruct (readMany _ _).
Qed.

(** C8: when the store read of a capture fails, the filter hook throws that
    failure to the host: it is not caught, nothing is logged, and the
    correlation store is left as it was. *)
Theorem C8_read_failure_propagates host mon a event now_insert now_sweep st payload meta keys0 e :
  bound_to mon a event (fm_event meta) →
  a ≠ create →
  capture_keys (action_name a) payload meta = Some keys0 →
  readMany host
    (capture_query host (options mon) (fm_collection meta) (Array.sort keys0)
       (capture_fields (options mon) (action_name a) payload)) = inl e →
  filter_hook host mon event now_insert now_sweep st payload meta
  = {| res_store := st; res_effects := []; res_outcome := Thrown (StoreError e) |}.
Proof.
  intros Hb Ha Hk He. rewrite (filter_hook_capture _ _ a _ _ _ _ _ _ keys0) by done.
  cbn zeta. by rewrite He.
Qed.

(** A capture and then the lookup made by the action hook of the same
    operation, with the keys in whatever order: unless the clock ran more
    than five minutes between the two readings of the capture, the entry is
    found. *)
Lemma capture_then_lookup host mon a event now_insert now_sweep st payload meta keys0 keys'
    currentItems :
  bound_to mon a event (fm_event meta) →
  a ≠ create →
  capture_keys (action_name a) payload meta = Some keys0 →
  readMany host
    (capture_query host (options mon) (fm_collection meta) (Array.sort keys0)
       (capture_fields (options mon) (action_name a) payload)) = inr currentItems →
  (now_sweep - now_insert ≤ FIVE_MINUTES)%Z →
  distinct_strings keys0 →
  keys0 ≡ₚ keys' →
  res_store (filter_hook host mon event now_insert now_sweep st payload meta)
    !! createFingerprint (hookId mon) event keys'
  = Some {| m_timestamp := now_insert; m_event := event; m_keys := Array.sort keys0;
            m_fields := capture_fields (options mon) (action_name a) payload;
            m_current := snapshot_item (primary host (fm_collection meta)) <$> currentItems |}.
Proof.
  intros Hb Ha Hk Hread Hclock Hd Hp.
  rewrite (filter_hook_capture _ _ a _ _ _ _ _ _ keys0) by done.
  cbn zeta. rewrite Hread. cbn [res_store]. rewrite sweep_lookup.
  assert (createFingerprint (hookId mon) event keys' = createFingerprint (hookId mon) event keys0)
    as ->.
  { unfold createFingerprint. by rewrite (sort_permutation keys0 keys'). }
  rewrite lookup_insert_eq. unfold is_old. cbn [m_timestamp].
  by rewrite bool_decide_eq_false_2 by lia.
Qed.

(** ** The action hook *)

Lemma handler_calls_app e1 e2 :
  handler_calls (e1 ++ e2)%list = (handler_calls e1 ++ handler_calls e2)%list.
Proof. apply omap_app. Qed.

Lemma handler_calls_call_handler mon event mutations collection payload :
  handler_calls (call_handler mon event mutations collection payload)
  = [ {| call_mutations := mutations; call_collection := collection;
         call_event := event; call_payload := payload |} ].
Proof. unfold call_handler. cbn. by destruct (handler mon _). Qed.

Lemma handler_calls_warn_added event l : handler_calls (warn_added event <$> l) = [].
Proof. induction l as [|f l IH]; [done|]. apply IH. Qed.

Lemma handler_calls_warn_old l : handler_calls (warn_old <$> l) = [].
Proof. induction l as [|f l IH]; [done|]. apply IH. Qed.

Lemma elem_of_handler_calls c effects : c ∈ handler_calls effects ↔ CallHandler c ∈ effects.
Proof.
  unfold handler_calls. rewrite list_elem_of_omap. split.
  - intros (e & He & Hc). destruct e; by simplify_eq.
  - intros He. by exists (CallHandler c).
Qed.

(** The action hook of an update or of a delete whose entry is not found. *)
Lemma action_hook_unmatched mon a event st meta :
  bound_to mon a event (am_event meta) →
  a ≠ create →
  st !! createFingerprint (hookId mon) event (meta_keys (am_target meta)) = None →
  action_hook mon event st meta
  = {| res_store := st;
       res_effects :=
         [LogWarn ("No matching filter hook for action hook with fingerprint "
                   ++ createFingerprint (hookId mon) event (meta_keys (am_target meta)))];
       res_outcome := Returned |}.
Proof.
  intros Hb Ha Hst. apply bound_to_tests in Hb as (Hn & _).
  unfold action_hook. rewrite Hn, Hst. by destruct a.
Qed.

(** C7: when the fingerprint recomputed by the action hook of an update or
    of a delete has no entry in the correlation store, the hook logs one
    warning and returns: the handler is not called, no record is built and
    the store is left as it was. *)
Theorem C7_unmatched_dispatch mon a event st meta :
  bound_to mon a event (am_event meta) →
  a = update ∨ a = delete →
  st !! createFingerprint (hookId mon) event (meta_keys (am_target meta)) = None →
  action_hook mon event st meta
  = {| res_store := st;
       res_effects :=
         [LogWarn ("No matching filter hook for action hook with fingerprint "
                   ++ createFingerprint (hookId mon) event (meta_keys (am_target meta)))];
       res_outcome := Returned |}
  ∧ handler_calls (res_effects (action_hook mon event st meta)) = [].
Proof.
  intros Hb Ha Hst.
  assert (a ≠ create) as Hne by (by destruct Ha as [-> | ->]).
  by rewrite (action_hook_unmatched mon a event st meta).
Qed.

(** The action hook of an update or of a delete whose entry is found. *)
Lemma action_hook_found mon a event st meta mutation :
  bound_to mon a event (am_event meta) →
  a ≠ create →
  st !! createFingerprint (hookId mon) event (meta_keys (am_target meta)) = Some mutation →
  let o := options mon in
  let payload := am_payload meta in
  let flds := dispatch_fields o payload in
  let deleted :=
    if bool_decide (a = delete)
    then call_handler mon event (delete_record <$> m_current mutation) (am_collection meta) payload
    else [] in
  let warnings := warn_added event <$> addedFields mutation flds in
  let st' := base.delete (createFingerprint (hookId mon) event (meta_keys (am_target meta))) st in
  action_hook mon event st meta
  = match update_loop o payload (Array.sort (meta_keys (am_target meta)))
            (reconcile mutation flds) [] with
    | None =>
        {| res_store := st'; res_effects := (deleted ++ warnings)%list;
           res_outcome := Thrown TypeError |}
    | Some (snapshot', pushed) =>
        {| res_store := st';
           res_effects :=
             (deleted ++ warnings ++
              (if Nat.ltb 0 (length (update_record snapshot' <$> pushed))
               then call_handler mon event (update_record snapshot' <$> pushed)
                      (am_collection meta) payload
               else []))%list;
           res_outcome := Returned |}
    end.
Proof.
  intros Hb Ha Hst. apply bound_to_tests in Hb as (Hn & _ & _ & _ & Hd).
  unfold action_hook. rewrite Hn, Hst, Hd.
  assert (String.eqb (action_name a) "create" = false) as -> by (by destruct a).
  cbn zeta. destruct (update_loop _ _ _ _ _) as [[snapshot' pushed]|]; done.
Qed.

(** *** Reconciliation of the captured fields *)

Lemma strip_fields_nil item : strip_fields [] item = item.
Proof. by destruct item. Qed.

Lemma reconcile_fmap mutation flds :
  reconcile mutation flds = strip_fields (removedFields mutation flds) <$> m_current mutation.
Proof.
  unfold reconcile. generalize (removedFields mutation flds) as removed.
  generalize (m_current mutation) as snapshot.
  intros snapshot removed. revert snapshot.
  induction removed as [|r removed IH]; intros snapshot; cbn [foldl].
  - induction snapshot as [|item snapshot IHs]; [done|].
    csimpl. by rewrite strip_fields_nil, <-IHs.
  - rewrite IH. unfold remove_field. rewrite <-list_fmap_compose.
    apply list_fmap_ext. by intros ? [] _.
Qed.

Lemma find_item_fmap (g : SnapshotItem → SnapshotItem) snapshot k :
  (∀ item, item_key (g item) = item_key item) →
  find_item (g <$> snapshot) k = prod_map id g <$> find_item snapshot k.
Proof.
  intros Hg. unfold find_item. rewrite list_find_fmap. f_equal.
  apply list_find_ext. intros item. simpl. by rewrite Hg.
Qed.

Lemma find_item_index snapshot k :
  fst <$> find_item snapshot k
  = fst <$> list_find (fun v => to_string v = key_string k) (item_key <$> snapshot).
Proof.
  rewrite list_find_fmap. unfold find_item.
  by destruct (list_find _ snapshot) as [[i item]|].
Qed.

Lemma find_item_same_keys snapshot snapshot' k i item :
  item_key <$> snapshot = item_key <$> snapshot' →
  find_item snapshot k = Some (i, item) →
  ∃ item', find_item snapshot' k = Some (i, item').
Proof.
  intros Hkeys Hfind. pose proof (find_item_index snapshot' k) as H'.
  rewrite <-Hkeys, <-find_item_index, Hfind in H'.
  destruct (find_item snapshot' k) as [[i' item']|]; [|done].
  simplify_eq/=. by exists item'.
Qed.

Lemma find_item_Some (snapshot : list SnapshotItem) k (i : nat) item :
  find_item snapshot k = Some (i, item) →
  snapshot !! i = Some item ∧ to_string (item_key item) = key_string k.
Proof. unfold find_item. rewrite list_find_Some. naive_solver. Qed.

Lemma insert_same_key (snapshot : list SnapshotItem) (i : nat) item item' :
  snapshot !! i = Some item →
  item_key item' = item_key item →
  item_key <$> <[i := item']> snapshot = item_key <$> snapshot.
Proof.
  intros Hi Hk. rewrite list_fmap_insert, Hk. apply list_insert_id.
  by rewrite list_lookup_fmap, Hi.
Qed.

Lemma find_item_None_keys snapshot snapshot' k :
  item_key <$> snapshot = item_key <$> snapshot' →
  find_item snapshot k = None → find_item snapshot' k = None.
Proof.
  intros Hkeys Hfind. pose proof (find_item_index snapshot' k) as H'.
  rewrite <-Hkeys, <-find_item_index, Hfind in H'.
  by destruct (find_item snapshot' k).
Qed.

(** *** The loop over the keys of an update *)

Section update_loop.
Variables (o : MonitorOptions) (payload : Payload).

Lemma update_loop_cons k keys snapshot mutations :
  update_loop o payload (k :: keys) snapshot mutations
  = match find_item snapshot k with
    | None => None
    | Some (i, item) =>
        let previous := item_data item in
        let current := committed o payload previous in
        if hasChangesToMonitoredFields o previous current then
          update_loop o payload keys
            (<[i := {| item_key := item_key item;
                       item_data := (shake o previous current).1 |}]> snapshot)
            (mutations ++ [{| pushed_key := k; pushed_previous := i;
                              pushed_current := (shake o previous current).2 |}])
        else update_loop o payload keys snapshot mutations
    end.
Proof.
  cbn [update_loop]. unfold committed.
  destruct (find_item snapshot k) as [[i item]|]; [|done].
  cbn zeta. by destruct (shake _ _ _).
Qed.

(** The loop throws exactly when some key has no item in the snapshot. *)
Lemma update_loop_None keys snapshot mutations :
  update_loop o payload keys snapshot mutations = None
  ↔ Exists (fun k => find_item snapshot k = None) keys.
Proof.
  revert snapshot mutations. induction keys as [|k keys IH]; intros snapshot mutations.
  { cbn. split; [done | by intros ?%Exists_nil]. }
  rewrite update_loop_cons, Exists_cons.
  destruct (find_item snapshot k) as [[i item]|] eqn:Hk; [|by split; [left|]].
  apply find_item_Some in Hk as Hi. destruct Hi as [Hi _].
  cbn zeta. destruct (hasChangesToMonitoredFields _ _ _).
  - rewrite IH. split.
    + intros H. right. eapply Exists_impl; [done|]. intros k'.
      apply find_item_None_keys. by apply (insert_same_key _ _ item).
    + intros [?|H]; [done|]. eapply Exists_impl; [done|]. intros k'.
      apply find_item_None_keys. symmetry. by apply (insert_same_key _ _ item).
  - rewrite IH. naive_solver.
Qed.

(** A property of the keys handled so far, of the snapshot and of the
    records pushed holds when the loop ends if each turn keeps it. *)
Lemma update_loop_invariant
    (P : list PrimaryKey → list SnapshotItem → list Pushed → Prop) :
  (∀ handled k snapshot mutations i item,
     P handled snapshot mutations →
     find_item snapshot k = Some (i, item) →
     hasChangesToMonitoredFields o (item_data item)
       (committed o payload (item_data item)) = false →
     P (handled ++ [k])%list snapshot mutations) →
  (∀ handled k snapshot mutations i item,
     P handled snapshot mutations →
     find_item snapshot k = Some (i, item) →
     hasChangesToMonitoredFields o (item_data item)
       (committed o payload (item_data item)) = true →
     P (handled ++ [k])%list
       (<[i := {| item_key := item_key item;
                  item_data := (shake o (item_data item)
                                  (committed o payload (item_data item))).1 |}]> snapshot)
       (mutations ++ [{| pushed_key := k; pushed_previous := i;
                         pushed_current := (shake o (item_data item)
                                              (committed o payload (item_data item))).2 |}])%list) →
  ∀ keys handled snapshot mutations snapshot' mutations',
    P handled snapshot mutations →
    update_loop o payload keys snapshot mutations = Some (snapshot', mutations') →
    P (handled ++ keys)%list snapshot' mutations'.
Proof.
  intros Hsame Hchanged keys.
  induction keys as [|k keys IH]; intros handled snapshot mutations snapshot' mutations' HP.
  { cbn. intros [= <- <-]. by rewrite app_nil_r. }
  rewrite update_loop_cons.
  destruct (find_item snapshot k) as [[i item]|] eqn:Hk; [|done].
  cbn zeta.
  destruct (hasChangesToMonitoredFields _ _ _) eqn:Hc; intros Hloop;
    rewrite (cons_middle k), (assoc_L (++)%list); eapply IH; eauto.
Qed.

(** Without a change to a monitored field for any key, the loop pushes
    nothing and leaves the snapshot as it is. *)
Lemma update_loop_unchanged keys snapshot mutations snapshot' mutations' :
  (∀ k i item, k ∈ keys → find_item snapshot k = Some (i, item) →
     hasChangesToMonitoredFields o (item_data item)
       (committed o payload (item_data item)) = false) →
  update_loop o payload keys snapshot mutations = Some (snapshot', mutations') →
  snapshot' = snapshot ∧ mutations' = mutations.
Proof.
  revert snapshot' mutations'. induction keys as [|k keys IH]; intros snapshot' mutations' Hsame.
  { cbn. by intros [= <- <-]. }
  rewrite update_loop_cons.
  destruct (find_item snapshot k) as [[i item]|] eqn:Hk; [|done].
  cbn zeta. rewrite (Hsame k i item) by (done || set_solver).
  apply IH. intros k' i' item' Hin. apply Hsame. set_solver.
Qed.

End update_loop.

(** *** Records of an update: what the aliasing of [previous] allows *)

Section records.
Variables (o : MonitorOptions) (payload : Payload) (snapshot0 : list SnapshotItem).

Lemma same_keys_lookup (snapshot snapshot' : list SnapshotItem) (i : nat) item :
  item_key <$> snapshot = item_key <$> snapshot' →
  snapshot !! i = Some item →
  ∃ item', snapshot' !! i = Some item' ∧ item_key item' = item_key item.
Proof.
  intros Hkeys Hi.
  assert ((item_key <$> snapshot') !! i = Some (item_key item)) as H0.
  { by rewrite <-Hkeys, list_lookup_fmap, Hi. }
  rewrite list_lookup_fmap in H0. destruct (snapshot' !! i) as [item'|]; [|done].
  exists item'. by simplify_eq/=.
Qed.

Lemma shaken_out_monitored previous current f :
  truthy (includeUnchanged o) = true → f ∈ fields o → shaken_out o previous current f = false.
Proof.
  intros Hiu Hf. unfold shaken_out. rewrite Hiu.
  by rewrite (proj2 (includes_true _ _) Hf).
Qed.

Lemma update_loop_keeps_monitored keys snapshot' mutations' :
  truthy (includeUnchanged o) = true →
  update_loop o payload keys snapshot0 [] = Some (snapshot', mutations') →
  keeps_monitored o payload snapshot0 keys snapshot' mutations'.
Proof.
  intros Hiu Hloop.
  apply (update_loop_invariant o payload (keeps_monitored o payload snapshot0))
    with (handled := []) in Hloop; [done| | |].
  - intros handled k snapshot mutations i item (Ha & Hb & Hc) Hk _.
    split_and!; [done..|]. intros p Hp. destruct (Hc p Hp) as [? ?]. split; [set_solver|done].
  - intros handled k snapshot mutations i item (Ha & Hb & Hc) Hk _.
    apply find_item_Some in Hk as Hi. destruct Hi as [Hi Hs].
    destruct (find_item_same_keys _ snapshot0 _ _ _ Ha Hk) as [item0 Hk0].
    apply find_item_Some in Hk0 as Hi0. destruct Hi0 as [Hi0 _].
    split_and!.
    + rewrite <-Ha. by apply (insert_same_key _ _ item).
    + intros j itemj item0j Hj H0j f Hf.
      apply list_lookup_insert_Some in Hj as [(-> & <- & _)|[Hne Hj]]; [|by eapply Hb].
      cbn. rewrite (proj1 (shake_lookup o _ _ f)), shaken_out_monitored by done.
      by eapply Hb.
    + intros p [Hp| ->%list_elem_of_singleton]%elem_of_app.
      { destruct (Hc p Hp) as [? ?]. split; [set_solver|done]. }
      cbn. split; [set_solver|]. exists item0. split; [done|]. intros f Hf.
      rewrite (proj2 (shake_lookup o _ _ f)), shaken_out_monitored by done.
      unfold committed. rewrite Hiu, !lookup_union. by rewrite (Hb i item item0).
  - split_and!; [done| |set_solver]. intros i item item0 Hi Hi0. by simplify_eq.
Qed.

Lemma update_loop_one_turn_each keys snapshot' mutations' :
  update_loop o payload keys snapshot0 [] = Some (snapshot', mutations') →
  one_turn_each o payload snapshot0 keys snapshot' mutations'.
Proof.
  intros Hloop.
  apply (update_loop_invariant o payload (one_turn_each o payload snapshot0))
    with (handled := []) in Hloop; [done| | |].
  - intros handled k snapshot mutations i item HP Hk _ Hnd.
    rewrite fmap_app in Hnd. apply NoDup_app in Hnd as (Hnd & _ & _).
    destruct (HP Hnd) as (Ha & Hb & Hc). split_and!; [done| |].
    + intros j itemj Hj Hne. apply Hb; [done|]. intros k' Hk'. apply Hne. set_solver.
    + intros p Hp. destruct (Hc p Hp) as [? ?]. split; [set_solver|done].
  - intros handled k snapshot mutations i item HP Hk Hchg Hnd.
    rewrite fmap_app in Hnd. apply NoDup_app in Hnd as (Hnd & Hfresh & _).
    destruct (HP Hnd) as (Ha & Hb & Hc).
    apply find_item_Some in Hk as Hi. destruct Hi as [Hi Hs].
    assert (∀ k', k' ∈ handled → key_string k' ≠ key_string k) as Hfresh'.
    { intros k' Hk' Heq. apply (Hfresh (key_string k')); [|rewrite Heq]; set_solver. }
    assert (snapshot0 !! i = Some item) as Hi0.
    { apply Hb; [done|]. intros k' Hk'. rewrite Hs. intros Heq. by apply (Hfresh' k'). }
    assert (find_item snapshot0 k = Some (i, item)) as Hk0.
    { destruct (find_item_same_keys _ snapshot0 _ _ _ Ha Hk) as [item0 Hk0].
      apply find_item_Some in Hk0 as Hi0'. destruct Hi0' as [Hi0' _]. by simplify_eq. }
    split_and!.
    + rewrite <-Ha. by apply (insert_same_key _ _ item).
    + intros j itemj Hj Hne.
      apply list_lookup_insert_Some in Hj as [(-> & <- & _)|[Hnej Hj]].
      { destruct (Hne k); [set_solver | done]. }
      apply Hb; [done|]. intros k' Hk'. apply Hne. set_solver.
    + intros p [Hp| ->%list_elem_of_singleton]%elem_of_app.
      * destruct (Hc p Hp) as (Hin & item0 & Hf0 & Hc0 & Hp0 & Hcur). split; [set_solver|].
        exists item0. split_and!; [done..| |done].
        rewrite list_lookup_insert_ne; [done|]. intros ->.
        apply find_item_Some in Hf0 as [Hi0' Hs0].
        rewrite Hi0 in Hi0'. injection Hi0' as ->.
        apply (Hfresh' (pushed_key p)); [done | congruence].
      * cbn. split; [set_solver|]. exists item. split_and!; [done..| |done].
        apply list_lookup_insert_eq. by eapply lookup_lt_Some.
  - intros _. split_and!; [done..|set_solver].
Qed.

End records.

(** *** Fields removed by the reconciliation *)

Lemma strip_fields_lookup removed item f :
  item_data (strip_fields removed item) !! f
  = if decide (f ∈ removed) then None else item_data item !! f.
Proof. apply lookup_foldl_delete. Qed.

Lemma find_item_reconcile mutation flds k :
  find_item (reconcile mutation flds) k
  = prod_map id (strip_fields (removedFields mutation flds)) <$> find_item (m_current mutation) k.
Proof. rewrite reconcile_fmap. by apply find_item_fmap. Qed.

Lemma find_item_reconcile_Some mutation flds k i item' :
  find_item (reconcile mutation flds) k = Some (i, item') →
  ∃ item, find_item (m_current mutation) k = Some (i, item)
          ∧ item' = strip_fields (removedFields mutation flds) item.
Proof.
  rewrite find_item_reconcile.
  destruct (find_item (m_current mutation) k) as [[i0 item]|]; [|done].
  intros [= <- <-]. by exists item.
Qed.

Lemma elem_of_removedFields mutation flds f :
  f ∈ removedFields mutation flds ↔ f ∈ m_fields mutation ∧ f ∉ flds.
Proof.
  unfold removedFields. rewrite list_elem_of_In, filter_In, <-list_elem_of_In.
  by rewrite negb_true_iff, includes_false.
Qed.

Lemma elem_of_payload_fields o payload f :
  f ∈ payload_fields o payload
  ↔ is_Some (spread payload !! f) ∧ (fields o = [] ∨ f ∈ fields o).
Proof.
  unfold payload_fields. rewrite list_elem_of_In, filter_In, <-list_elem_of_In.
  rewrite elem_of_object_keys, orb_true_iff, includes_true, Nat.eqb_eq.
  by rewrite length_zero_iff_nil.
Qed.

(** A monitored field is removed only without [includeUnchanged], when the
    committed payload does not hold it. *)
Lemma removed_monitored o payload mutation f :
  f ∈ fields o →
  f ∈ removedFields mutation (dispatch_fields o payload) →
  truthy (includeUnchanged o) = false ∧ spread payload !! f = None.
Proof.
  intros Hf [_ Hnot]%elem_of_removedFields. unfold dispatch_fields in Hnot.
  destruct (truthy (includeUnchanged o)); [done|]. split; [done|].
  rewrite elem_of_payload_fields in Hnot. apply eq_None_not_Some. tauto.
Qed.

Lemma hasChanges_false o previous current :
  hasChangesToMonitoredFields o previous current = false
  ↔ ∀ f, f ∈ fields o → get previous f = get current f.
Proof.
  unfold hasChangesToMonitoredFields. rewrite <-not_true_iff_false, existsb_exists. split.
  - intros Hno f Hf. apply strict_eq_true. apply not_false_iff_true. intros Hne.
    apply Hno. exists f. split; [by apply list_elem_of_In | by rewrite Hne].
  - intros Hall (f & Hf%list_elem_of_In & Hne). apply negb_true_iff, strict_eq_false in Hne.
    by apply Hne, Hall.
Qed.

Lemma committed_lookup o payload previous f :
  committed o payload previous !! f
  = match spread payload !! f with
    | Some v => Some v
    | None => if truthy (includeUnchanged o) then previous !! f else None
    end.
Proof.
  unfold committed. rewrite lookup_union.
  destruct (spread payload !! f), (truthy (includeUnchanged o)); try done;
    by destruct (previous !! f).
Qed.


(** C10: in the action hook of an update whose entry is found, the lookup of
    the snapshot item of a key is not guarded. When every key of the
    operation has an item in the captured snapshot the hook returns; when
    some key has none, the hook throws a [TypeError]: the handler is not
    called and no warning is logged for the missing key (the effects are the
    warnings about added fields, logged before the loop). *)
Theorem C10_unguarded_snapshot_lookup mon event st meta mutation :
  bound_to mon update event (am_event meta) →
  st !! createFingerprint (hookId mon) event (meta_keys (am_target meta)) = Some mutation →
  (Forall (fun k => is_Some (find_item (m_current mutation) k)) (meta_keys (am_target meta)) →
   res_outcome (action_hook mon event st meta) = Returned)
  ∧ (Exists (fun k => find_item (m_current mutation) k = None) (meta_keys (am_target meta)) →
     res_outcome (action_hook mon event st meta) = Thrown TypeError
     ∧ res_effects (action_hook mon event st meta)
       = warn_added event
           <$> addedFields mutation (dispatch_fields (options mon) (am_payload meta))).
Proof.
  intros Hb Hst. rewrite (action_hook_found mon update event st meta mutation) by done.
  cbn zeta. rewrite (bool_decide_eq_false_2 (update = delete)) by done.
  destruct (update_loop _ _ _ _ _) as [[snapshot' pushed]|] eqn:Hloop.
  - split; [done|]. intros Hex. exfalso.
    assert (update_loop (options mon) (am_payload meta) (Array.sort (meta_keys (am_target meta)))
              (reconcile mutation (dispatch_fields (options mon) (am_payload meta))) [] = None)
      as Hnone; [|by rewrite Hnone in Hloop].
    apply update_loop_None. apply Exists_exists in Hex as (k & Hk & Hnone).
    apply Exists_exists. exists k. split; [by apply elem_of_sort_2|].
    by rewrite find_item_reconcile, Hnone.
  - split; [|done]. intros Hall. exfalso.
    apply update_loop_None, Exists_exists in Hloop as (k & Hk%elem_of_sort_1 & Hnone).
    rewrite Forall_forall in Hall. destruct (Hall k Hk) as [[i item] Hsome].
    by rewrite find_item_reconcile, Hsome in Hnone.
Qed.

(** C3 (amended): in the action hook of a delete whose entry is found, the
    handler is called first with one record for each item of the captured
    snapshot, in the order of the snapshot: its action is delete, its key
    and its [previous] are the key and the captured data of the item
    ([previous] is as empty as the data captured), its [current] is empty
    and [hasChanged] answers false for every field and arguments. *)
Theorem C3_delete_records mon event st meta mutation :
  bound_to mon delete event (am_event meta) →
  st !! createFingerprint (hookId mon) event (meta_keys (am_target meta)) = Some mutation →
  ∃ call rest,
    handler_calls (res_effects (action_hook mon event st meta)) = call :: rest
    ∧ call_event call = event
    ∧ call_payload call = am_payload meta
    ∧ Forall2 (fun item r =>
                 action r = delete ∧ key r = item_key item
                 ∧ previous r = item_data item ∧ current r = ∅
                 ∧ ∀ field from to, hasChanged r field from to = Some false)
        (m_current mutation) (call_mutations call).
Proof.
  intros Hb Hst. rewrite (action_hook_found mon delete event st meta mutation) by done.
  cbn zeta. rewrite (bool_decide_eq_true_2 (delete = delete)) by done.
  destruct (update_loop _ _ _ _ _) as [[snapshot' pushed]|]; cbn [res_effects];
    rewrite handler_calls_app, handler_calls_call_handler;
    (eexists _, _; split; [reflexivity|]); cbn; (split_and!; [done..|]);
    apply Forall2_fmap_r, Forall_Forall2_diag, Forall_forall; by intros item _.
Qed.

(** The handler calls of the action hook of an update whose entry is found. *)
Lemma update_handler_calls mon event st meta mutation :
  bound_to mon update event (am_event meta) →
  st !! createFingerprint (hookId mon) event (meta_keys (am_target meta)) = Some mutation →
  ∀ call, call ∈ handler_calls (res_effects (action_hook mon event st meta)) →
  ∃ snapshot' pushed,
    update_loop (options mon) (am_payload meta) (Array.sort (meta_keys (am_target meta)))
      (reconcile mutation (dispatch_fields (options mon) (am_payload meta))) []
    = Some (snapshot', pushed)
    ∧ call_mutations call = update_record snapshot' <$> pushed.
Proof.
  intros Hb Hst call. rewrite (action_hook_found mon update event st meta mutation) by done.
  cbn zeta. rewrite (bool_decide_eq_false_2 (update = delete)) by done.
  destruct (update_loop _ _ _ _ _) as [[snapshot' pushed]|]; cbn [res_effects].
  - rewrite app_nil_l, handler_calls_app, handler_calls_warn_added, app_nil_l.
    destruct (Nat.ltb _ _); [|by intros ?%elem_of_nil].
    rewrite handler_calls_call_handler. intros ->%list_elem_of_singleton. by eexists _, _.
  - rewrite app_nil_l, handler_calls_warn_added. by intros ?%elem_of_nil.
Qed.


(** C9 (amended): with [includeUnchanged], every record given to the handler
    by the action hook of an update holds, in [previous] and in [current],
    every monitored field that the captured snapshot item of its key holds,
    changed or not: in [previous] with the captured value, in [current] with
    the value of the payload or, when the payload does not set the field,
    the captured value. *)
Theorem C9_include_unchanged mon event st meta mutation call r :
  bound_to mon update event (am_event meta) →
  truthy (includeUnchanged (options mon)) = true →
  st !! createFingerprint (hookId mon) event (meta_keys (am_target meta)) = Some mutation →
  call ∈ handler_calls (res_effects (action_hook mon event st meta)) →
  r ∈ call_mutations call →
  ∃ k i item,
    k ∈ meta_keys (am_target meta)
    ∧ find_item (m_current mutation) k = Some (i, item)
    ∧ action r = update ∧ key r = key_value k
    ∧ ∀ f, f ∈ fields (options mon) →
        previous r !! f = item_data item !! f
        ∧ current r !! f = committed (options mon) (am_payload meta) (item_data item) !! f
        ∧ (is_Some (item_data item !! f) →
           is_Some (previous r !! f) ∧ is_Some (current r !! f)).
Proof.
  intros Hb Hiu Hst Hcall Hr.
  destruct (update_handler_calls mon event st meta mutation Hb Hst call Hcall)
    as (snapshot' & pushed & Hloop & Hmut).
  rewrite Hmut in Hr. apply list_elem_of_fmap in Hr as (p & -> & Hp).
  apply update_loop_keeps_monitored in Hloop; [|done].
  destruct Hloop as (Ha & Hb' & Hc).
  destruct (Hc p Hp) as (Hin%elem_of_sort_1 & item' & Hfind & Hcur).
  apply find_item_Some in Hfind as Hi'. destruct Hi' as [Hi' _].
  apply find_item_reconcile_Some in Hfind as (item & Hfind0 & ->).
  exists (pushed_key p), (pushed_previous p), item.
  split_and!; [done..|]. intros f Hf.
  assert (item_data (strip_fields (removedFields mutation
                       (dispatch_fields (options mon) (am_payload meta))) item) !! f
          = item_data item !! f) as Hstrip.
  { rewrite strip_fields_lookup. destruct (decide (f ∈ removedFields _ _)) as [Hrem|]; [|done].
    destruct (removed_monitored _ _ _ _ Hf Hrem) as [Hiu' _]. congruence. }
  destruct (same_keys_lookup _ snapshot' _ _ (eq_sym Ha) Hi') as (itm & Hitm & _).
  assert (previous (update_record snapshot' p) !! f = item_data item !! f) as Hprev.
  { unfold update_record. cbn [previous]. rewrite Hitm. cbn [from_option].
    by rewrite (Hb' _ _ _ Hitm Hi' f Hf). }
  assert (current (update_record snapshot' p) !! f
          = committed (options mon) (am_payload meta) (item_data item) !! f) as Hcurr.
  { unfold update_record. cbn [current]. rewrite (Hcur f Hf).
    by rewrite !committed_lookup, Hstrip. }
  split_and!; [done..|]. intros Hsome. rewrite Hprev, Hcurr. split; [done|].
  rewrite committed_lookup, Hiu. by destruct (spread _ !! f).
Qed.

(** ** The sweep within a capture *)

(** C6 (amended): the sweep runs at the end of a capture that got its
    answer from the store (the capture of an update or of a delete; the
    filter hook of a create returns before, and a failed read throws
    before). It runs on the store that already holds the new entry, removes
    exactly the entries older than five minutes at the time of the sweep,
    and logs one warning for each of them. The capture calls no handler, and
    a later action hook whose fingerprint is that of a swept entry calls
    none either. *)
Theorem C6_sweep_ends_capture host mon a event now_insert now_sweep st payload meta keys0
    currentItems :
  bound_to mon a event (fm_event meta) →
  a ≠ create →
  capture_keys (action_name a) payload meta = Some keys0 →
  readMany host
    (capture_query host (options mon) (fm_collection meta) (Array.sort keys0)
       (capture_fields (options mon) (action_name a) payload)) = inr currentItems →
  let r := filter_hook host mon event now_insert now_sweep st payload meta in
  let st1 :=
    <[createFingerprint (hookId mon) event keys0 :=
        {| m_timestamp := now_insert; m_event := event; m_keys := Array.sort keys0;
           m_fields := capture_fields (options mon) (action_name a) payload;
           m_current := snapshot_item (primary host (fm_collection meta)) <$> currentItems |}]> st in
  res_outcome r = Returned
  ∧ res_store r = filter (fun kv => is_old now_sweep kv.2 = false) st1
  ∧ (∃ old, res_effects r = warn_old <$> old
            ∧ NoDup old
            ∧ ∀ k, k ∈ old ↔ ∃ m, st1 !! k = Some m ∧ is_old now_sweep m = true)
  ∧ handler_calls (res_effects r) = []
  ∧ (∀ a' event' meta' m,
       bound_to mon a' event' (am_event meta') →
       a' ≠ create →
       st1 !! createFingerprint (hookId mon) event' (meta_keys (am_target meta')) = Some m →
       is_old now_sweep m = true →
       handler_calls (res_effects (action_hook mon event' (res_store r) meta')) = []).
Proof.
  intros Hb Ha Hk Hread r st1. subst r.
  rewrite (filter_hook_capture _ _ a _ _ _ _ _ _ keys0) by done.
  cbn zeta. rewrite Hread. fold st1. cbn [res_outcome res_store res_effects].
  split_and!.
  - done.
  - apply sweep_store.
  - exists (oldMutations now_sweep st1). split_and!; [done|apply NoDup_oldMutations|].
    apply elem_of_oldMutations.
  - apply handler_calls_warn_old.
  - intros a' event' meta' m Hb' Ha' Hm Hold.
    rewrite (action_hook_unmatched mon a' event' _ meta'); [done..|].
    rewrite sweep_lookup, Hm, Hold. done.
Qed.

(** ** Records of a create *)

Lemma create_filter_lookup (fs l : list string) (m : obj) g :
  foldl (fun cur k => if negb (Array.includes fs k) then base.delete k cur else cur) m l !! g
  = if decide (g ∈ l ∧ g ∉ fs) then None else m !! g.
Proof.
  revert m. induction l as [|x l IH]; intros m; cbn [foldl].
  { case_decide; [set_solver | done]. }
  rewrite IH. destruct (Array.includes fs x) eqn:Hx; cbn [negb].
  - apply includes_true in Hx. repeat case_decide; try done; set_solver.
  - apply includes_false in Hx. rewrite lookup_delete.
    repeat case_decide; simplify_eq; try done; set_solver.
Qed.

Lemma reads_undefined_insert (m : obj) f g v :
  f ≠ g → reads_undefined (<[f := v]> m) g = reads_undefined m g.
Proof. intros Hne. unfold reads_undefined. by rewrite lookup_insert_ne. Qed.

Lemma create_default_lookup (fs : list string) (m : obj) g :
  foldl (fun cur f => if reads_undefined cur f then <[f := VNull]> cur else cur) m fs !! g
  = if decide (g ∈ fs)
    then (if reads_undefined m g then Some VNull else m !! g)
    else m !! g.
Proof.
  revert m. induction fs as [|x fs IH]; intros m; cbn [foldl].
  { case_decide; [set_solver | done]. }
  rewrite IH. clear IH. destruct (decide (g = x)) as [->|Hne].
  - rewrite (decide_True (P := x ∈ x :: fs)) by set_solver.
    destruct (reads_undefined m x) eqn:Hx.
    + assert (reads_undefined (<[x := VNull]> m) x = false) as ->.
      { unfold reads_undefined. by rewrite lookup_insert_eq. }
      rewrite lookup_insert_eq. by case_decide.
    + rewrite Hx. by case_decide.
  - destruct (reads_undefined m x) eqn:Hx.
    + rewrite reads_undefined_insert, lookup_insert_ne by done.
      repeat case_decide; try done; set_solver.
    + repeat case_decide; try done; set_solver.
Qed.

(** The [current] of a create record holds monitored fields only: a
    monitored field that the payload holds has the value of the payload, or
    [null] when that value is undefined; one that the payload does not hold
    is [null], unless its name is that of a member of [Object.prototype], in
    which case the record does not hold it. *)
Lemma create_current_lookup o payload f :
  create_current o payload !! f
  = if decide (f ∈ fields o)
    then match spread payload !! f with
         | Some v => Some (if decide (v = VUndefined) then VNull else v)
         | None => if Array.includes inherited_names f then None else Some VNull
         end
    else None.
Proof.
  unfold create_current.
  assert (∀ g, foldl (fun cur k => if negb (Array.includes (fields o) k)
                                 then base.delete k cur else cur)
                 (spread payload) (object_keys (spread payload)) !! g
               = if decide (g ∈ fields o) then spread payload !! g else None) as Hcur.
  { intros g. rewrite (create_filter_lookup (fields o) (object_keys (spread payload))).
    destruct (decide (g ∈ fields o)) as [Hg|Hg].
    - by rewrite decide_False by tauto.
    - case_decide; [done|]. apply eq_None_not_Some. rewrite <-elem_of_object_keys. tauto. }
  rewrite create_default_lookup. unfold reads_undefined. rewrite Hcur.
  destruct (decide (f ∈ fields o)) as [Hf|Hf]; [|done].
  destruct (spread payload !! f) as [v|] eqn:Hv.
  - destruct (decide (v = VUndefined)) as [->|Hv']; [done|].
    by rewrite (proj2 (strict_eq_false _ _) Hv').
  - by destruct (Array.includes inherited_names f).
Qed.

Lemma create_current_no_fields o payload : fields o = [] → create_current o payload = ∅.
Proof.
  intros Hf. apply map_eq. intros f. rewrite create_current_lookup, Hf, lookup_empty.
  by rewrite decide_False by set_solver.
Qed.

(** A monitored field named like a member of [Object.prototype] that the
    payload does not hold is not set to [null]. *)
Example create_current_inherited :
  create_current (options (watch ["status"; "title"; "constructor"]))
    (PObject {[ "status" := VStr "draft" ]})
  = {[ "status" := VStr "draft"; "title" := VNull ]}.
Proof. vm_compute. done. Qed.

Lemma hasChanges_no_fields o previous current :
  fields o = [] → hasChangesToMonitoredFields o previous current = false.
Proof. unfold hasChangesToMonitoredFields. by intros ->. Qed.

(** ** How often the handler is called *)

(** The action hook of a create calls the handler once, with one record. *)
Lemma create_calls_handler_once mon event st meta :
  bound_to mon create event (am_event meta) →
  handler_calls (res_effects (action_hook mon event st meta))
  = [ {| call_mutations :=
           [ {| action := create; key := meta_key (am_target meta); previous := ∅;
                current := create_current (options mon) (am_payload meta) |} ];
         call_collection := am_collection meta;
         call_event := event;
         call_payload := am_payload meta |} ].
Proof.
  intros Hb. apply bound_to_tests in Hb as (Hn & _).
  unfold action_hook. rewrite Hn. cbn [action_name String.eqb Ascii.eqb Bool.eqb res_effects].
  apply handler_calls_call_handler.
Qed.

(** The action hook of an update calls the handler at most once, and not
    with an empty array. *)
Lemma update_calls_handler_at_most_once mon event st meta :
  bound_to mon update event (am_event meta) →
  handler_calls (res_effects (action_hook mon event st meta)) = []
  ∨ ∃ call, handler_calls (res_effects (action_hook mon event st meta)) = [call]
            ∧ call_mutations call ≠ [].
Proof.
  intros Hb.
  destruct (st !! createFingerprint (hookId mon) event (meta_keys (am_target meta)))
    as [mutation|] eqn:Hst.
  - rewrite (action_hook_found mon update event st meta mutation) by done.
    cbn zeta. rewrite (bool_decide_eq_false_2 (update = delete)) by done.
    destruct (update_loop _ _ _ _ _) as [[snapshot' pushed]|]; cbn [res_effects].
    + rewrite app_nil_l, handler_calls_app, handler_calls_warn_added, app_nil_l.
      destruct (update_record snapshot' <$> pushed) as [|r rs] eqn:Hrs; [by left|].
      right. cbn [length Nat.ltb Nat.leb]. rewrite handler_calls_call_handler.
      by eexists.
    + left. by rewrite app_nil_l, handler_calls_warn_added.
  - left. by rewrite (action_hook_unmatched mon update event st meta).
Qed.

(** ** The statements at concrete operations *)

(** The update of the status of article 1 from draft to published, captured
    and committed. *)
Example status_round_trip :
  handler_calls
    (res_effects
       (dispatched (watch ["status"]) update
          (captured (table [article 1 "draft" "T"]) (watch ["status"]) update
             (PObject {[ "status" := VStr "published" ]}) [PNum 1])
          (PObject {[ "status" := VStr "published" ]}) (inr [PNum 1])))
  = [ called update (PObject {[ "status" := VStr "published" ]})
        [ {| action := update; key := VNum 1;
             previous := {[ "status" := VStr "draft" ]};
             current := {[ "status" := VStr "published" ]} |} ] ]
  ∧ hasChanged
      {| action := update; key := VNum 1;
         previous := {[ "status" := VStr "draft" ]};
         current := {[ "status" := VStr "published" ]} |}
      "status" (VStr "draft") (VStr "published") = Some true
  ∧ hasChanged
      {| action := update; key := VNum 1;
         previous := {[ "status" := VStr "draft" ]};
         current := {[ "status" := VStr "published" ]} |}
      "status" (VStr "archived") VUndefined = Some false.
Proof. vm_compute. done. Qed.

(** An update captured with the keys 2, 1 and committed with the keys 1, 2:
    the entry is found and the handler gets the records of both articles. *)
Example keys_in_another_order :
  handler_calls
    (res_effects
       (dispatched (watch ["status"]) update
          (captured (table [article 1 "draft" "T"; article 2 "draft" "U"]) (watch ["status"])
             update (PObject {[ "status" := VStr "published" ]}) [PNum 2; PNum 1])
          (PObject {[ "status" := VStr "published" ]}) (inr [PNum 1; PNum 2])))
  = [ called update (PObject {[ "status" := VStr "published" ]})
        [ {| action := update; key := VNum 1;
             previous := {[ "status" := VStr "draft" ]};
             current := {[ "status" := VStr "published" ]} |};
          {| action := update; key := VNum 2;
             previous := {[ "status" := VStr "draft" ]};
             current := {[ "status" := VStr "published" ]} |} ] ].
Proof. vm_compute. done. Qed.

(** C1: with an empty list of monitored fields the action hook monitors no
    field at all, where the documentation of [monitor] says that an empty
    array monitors all fields. The record of a create that commits a title
    has an empty [current], and the update of a title from T to New, captured
    and committed, calls no handler. *)
Theorem C1_empty_fields_monitor_nothing :
  handler_calls
    (res_effects (dispatched (watch []) create ∅ (PObject {[ "title" := VStr "Hello" ]})
                    (inl (PNum 1))))
  = [ called create (PObject {[ "title" := VStr "Hello" ]})
        [ {| action := create; key := VNum 1; previous := ∅; current := ∅ |} ] ]
  ∧ m_current
      <$> captured (table [article 1 "draft" "T"]) (watch []) update
            (PObject {[ "title" := VStr "New" ]}) [PNum 1]
          !! createFingerprint 0 (event_name "articles" update) [PNum 1]
    = Some [ {| item_key := VNum 1; item_data := {[ "title" := VStr "T" ]} |} ]
  ∧ handler_calls
      (res_effects
         (dispatched (watch []) update
            (captured (table [article 1 "draft" "T"]) (watch []) update
               (PObject {[ "title" := VStr "New" ]}) [PNum 1])
            (PObject {[ "title" := VStr "New" ]}) (inr [PNum 1])))
    = [].
Proof. vm_compute. done. Qed.

(** C2: the delete branch of the action hook does not return after its
    handler call. (1) With an empty snapshot (a read that returned no item)
    the handler is called with an empty array, and the update loop that
    follows throws. (2) With a monitored field named like an index of the
    payload array, the update loop that follows builds a record of its own
    and the handler is called a second time for the same delete. *)
Theorem C2_delete_falls_through :
  handler_calls
    (res_effects
       (dispatched (watch ["status"]) delete
          (captured (table []) (watch ["status"]) delete (PArray [PNum 5]) [PNum 5])
          (PArray [PNum 5]) (inr [PNum 5])))
  = [ called delete (PArray [PNum 5]) [] ]
  ∧ res_outcome
      (dispatched (watch ["status"]) delete
         (captured (table []) (watch ["status"]) delete (PArray [PNum 5]) [PNum 5])
         (PArray [PNum 5]) (inr [PNum 5]))
    = Thrown TypeError
  ∧ handler_calls
      (res_effects
         (dispatched (watch ["0"]) delete
            (captured (table [ {[ "id" := VNum 5; "0" := VStr "x" ]} ]) (watch ["0"]) delete
               (PArray [PNum 5]) [PNum 5])
            (PArray [PNum 5]) (inr [PNum 5])))
    = [ called delete (PArray [PNum 5])
          [ {| action := delete; key := VNum 5;
               previous := {[ "0" := VStr "x" ]}; current := ∅ |} ];
        called delete (PArray [PNum 5])
          [ {| action := update; key := VNum 5;
               previous := {[ "0" := VStr "x" ]}; current := {[ "0" := VNum 5 ]} |} ] ].
Proof. vm_compute. done. Qed.

(** C3, as stated, fails: under a monitor of the primary key alone, the
    delete of article 1 is captured without any data (the capture takes the
    key out of the data of each item) and its record has an empty
    [previous]; and the delete of articles 1 and 2, of which the read
    returned only the first, gives one record for two keys. *)
Lemma C3_counterexample :
  handler_calls
    (res_effects
       (dispatched (watch ["id"]) delete
          (captured (table [article 1 "draft" "T"]) (watch ["id"]) delete
             (PArray [PNum 1]) [PNum 1])
          (PArray [PNum 1]) (inr [PNum 1])))
  = [ called delete (PArray [PNum 1])
        [ {| action := delete; key := VNum 1; previous := ∅; current := ∅ |} ] ]
  ∧ handler_calls
      (res_effects
         (dispatched (watch ["status"]) delete
            (captured (table [article 1 "draft" "T"]) (watch ["status"]) delete
               (PArray [PNum 1; PNum 2]) [PNum 1; PNum 2])
            (PArray [PNum 1; PNum 2]) (inr [PNum 1; PNum 2])))
    = [ called delete (PArray [PNum 1; PNum 2])
          [ {| action := delete; key := VNum 1;
               previous := {[ "status" := VStr "draft" ]}; current := ∅ |} ] ].
Proof. vm_compute. done. Qed.

(** C5, as stated, fails for the keys 1 and "1": both have the string form
    1, the sort leaves them in the order given, and the two orders have
    different fingerprints. *)
Lemma C5_counterexample :
  [PNum 1; PStr "1"] ≡ₚ [PStr "1"; PNum 1]
  ∧ createFingerprint 0 "articles.items.update" [PNum 1; PStr "1"]
    ≠ createFingerprint 0 "articles.items.update" [PStr "1"; PNum 1].
Proof. split; [apply Permutation_swap|]. vm_compute. discriminate. Qed.

(** C6, as stated, fails: an entry older than five minutes is still in the
    store, and nothing is logged, after the filter hook of a create and
    after a capture whose read failed. *)
Lemma C6_counterexample :
  is_old 1000000 abandoned = true
  ∧ filter_hook (table []) (watch ["status"]) (event_name "articles" create) 1000000 1000000
      littered (PObject {[ "status" := VStr "draft" ]}) (filter_meta create (inl (PNum 1)))
    = {| res_store := littered; res_effects := []; res_outcome := Returned |}
  ∧ filter_hook unreachable (watch ["status"]) (event_name "articles" update) 1000000 1000000
      littered (PObject {[ "status" := VStr "draft" ]}) (filter_meta update (inr [PNum 1]))
    = {| res_store := littered; res_effects := [];
         res_outcome := Thrown (StoreError "ECONNREFUSED") |}
  ∧ littered !! "0123456789abcdef0123456789abcdef" = Some abandoned.
Proof. vm_compute. done. Qed.

(** C9, as stated, fails for a monitored primary-key field: the capture
    takes the key out of the data of each item, so the record of the update
    holds [id] neither in [previous] nor in [current]. *)
Lemma C9_counterexample :
  handler_calls
    (res_effects
       (dispatched (watch_unchanged ["id"; "status"; "title"]) update
          (captured (table [article 1 "draft" "T"]) (watch_unchanged ["id"; "status"; "title"])
             update (PObject {[ "status" := VStr "published" ]}) [PNum 1])
          (PObject {[ "status" := VStr "published" ]}) (inr [PNum 1])))
  = [ called update (PObject {[ "status" := VStr "published" ]})
        [ {| action := update; key := VNum 1;
             previous := {[ "status" := VStr "draft"; "title" := VStr "T" ]};
             current := {[ "status" := VStr "published"; "title" := VStr "T" ]} |} ] ].
Proof. vm_compute. done. Qed.

(** The fingerprint at the keys 2, 1 and 1, 2. *)
Lemma C5_witness :
  createFingerprint 0 "articles.items.update" [PNum 2; PNum 1]
  = createFingerprint 0 "articles.items.update" [PNum 1; PNum 2]
  ∧ <[createFingerprint 0 "articles.items.update" [PNum 2; PNum 1] := abandoned]> littered
      !! createFingerprint 0 "articles.items.update" [PNum 1; PNum 2]
    = Some abandoned.
Proof.
  apply (C5_fingerprint_permutation 0 "articles.items.update" [PNum 2; PNum 1] [PNum 1; PNum 2]).
  - apply (distinct_strings_numbers [2; 1]%Z).
  - apply Permutation_swap.
Defined.

(** An update of article 1 that no capture preceded. *)
Lemma C7_witness :
  action_hook (watch ["status"]) (event_name "articles" update) ∅
    (action_meta update (PObject {[ "status" := VStr "published" ]}) (inr [PNum 1]))
  = {| res_store := ∅;
       res_effects :=
         [LogWarn ("No matching filter hook for action hook with fingerprint "
                   ++ createFingerprint 0 (event_name "articles" update) [PNum 1])];
       res_outcome := Returned |}
  ∧ handler_calls
      (res_effects
         (action_hook (watch ["status"]) (event_name "articles" update) ∅
            (action_meta update (PObject {[ "status" := VStr "published" ]}) (inr [PNum 1]))))
    = [].
Proof.
  apply (C7_unmatched_dispatch (watch ["status"]) update (event_name "articles" update) ∅
           (action_meta update (PObject {[ "status" := VStr "published" ]}) (inr [PNum 1]))).
  - split; reflexivity.
  - by left.
  - reflexivity.
Defined.

(** The capture of an update while the store cannot be reached. *)
Lemma C8_witness :
  filter_hook unreachable (watch ["status"]) (event_name "articles" update) 1000 1001 littered
    (PObject {[ "status" := VStr "published" ]}) (filter_meta update (inr [PNum 1]))
  = {| res_store := littered; res_effects := [];
       res_outcome := Thrown (StoreError "ECONNREFUSED") |}.
Proof.
  apply (C8_read_failure_propagates unreachable (watch ["status"]) update
           (event_name "articles" update) 1000 1001 littered
           (PObject {[ "status" := VStr "published" ]}) (filter_meta update (inr [PNum 1]))
           [PNum 1] "ECONNREFUSED").
  - split; reflexivity.
  - discriminate.
  - reflexivity.
  - reflexivity.
Defined.

(** The capture of an update of article 1, five minutes and a second after
    the capture of the abandoned entry. *)
Lemma C6_witness :
  res_outcome
    (filter_hook (table [article 1 "draft" "T"]) (watch ["status"])
       (event_name "articles" update) 300000 300001 littered
       (PObject {[ "status" := VStr "published" ]}) (filter_meta update (inr [PNum 1])))
  = Returned
  ∧ res_effects
      (filter_hook (table [article 1 "draft" "T"]) (watch ["status"])
         (event_name "articles" update) 300000 300001 littered
         (PObject {[ "status" := VStr "published" ]}) (filter_meta update (inr [PNum 1])))
    = [warn_old "0123456789abcdef0123456789abcdef"]
  ∧ handler_calls
      (res_effects
         (filter_hook (table [article 1 "draft" "T"]) (watch ["status"])
            (event_name "articles" update) 300000 300001 littered
            (PObject {[ "status" := VStr "published" ]}) (filter_meta update (inr [PNum 1]))))
    = [].
Proof.
  pose proof (C6_sweep_ends_capture (table [article 1 "draft" "T"]) (watch ["status"]) update
                (event_name "articles" update) 300000 300001 littered
                (PObject {[ "status" := VStr "published" ]}) (filter_meta update (inr [PNum 1]))
                [PNum 1] [ {[ "id" := VNum 1; "status" := VStr "draft" ]} ]) as H.
  cbn zeta in H. destruct H as (Hout & _ & _ & Hcalls & _).
  - split; reflexivity.
  - discriminate.
  - reflexivity.
  - vm_compute. reflexivity.
  - split; [exact Hout|]. split; [|exact Hcalls]. vm_compute. reflexivity.
Defined.

(** The delete of article 1, captured with its status. *)
Lemma C3_witness :
  ∃ call rest,
    handler_calls
      (res_effects
         (action_hook (watch ["status"]) (event_name "articles" delete)
            (holding (watch ["status"]) delete [PNum 1]
               (entry delete [PNum 1] ["status"] {[ "status" := VStr "draft" ]}))
            (action_meta delete (PArray [PNum 1]) (inr [PNum 1]))))
    = call :: rest
    ∧ call_event call = event_name "articles" delete
    ∧ call_payload call = PArray [PNum 1]
    ∧ Forall2 (fun item r =>
                 action r = delete ∧ key r = item_key item
                 ∧ previous r = item_data item ∧ current r = ∅
                 ∧ ∀ field from to, hasChanged r field from to = Some false)
        [ {| item_key := VNum 1; item_data := {[ "status" := VStr "draft" ]} |} ]
        (call_mutations call).
Proof.
  apply (C3_delete_records (watch ["status"]) (event_name "articles" delete)
           (holding (watch ["status"]) delete [PNum 1]
              (entry delete [PNum 1] ["status"] {[ "status" := VStr "draft" ]}))
           (action_meta delete (PArray [PNum 1]) (inr [PNum 1]))
           (entry delete [PNum 1] ["status"] {[ "status" := VStr "draft" ]})).
  - split; reflexivity.
  - vm_compute. reflexivity.
Defined.

(** Updates of articles 1 and 2 whose snapshot holds both, or only the
    first. *)
Lemma C10_witness :
  res_outcome
    (action_hook (watch ["status"]) (event_name "articles" update)
       (holding (watch ["status"]) update [PNum 1; PNum 2]
          {| m_timestamp := 1000; m_event := event_name "articles" update;
             m_keys := [PNum 1; PNum 2]; m_fields := ["status"];
             m_current := [ {| item_key := VNum 1; item_data := {[ "status" := VStr "draft" ]} |};
                            {| item_key := VNum 2; item_data := {[ "status" := VStr "draft" ]} |} ] |})
       (action_meta update (PObject {[ "status" := VStr "published" ]}) (inr [PNum 1; PNum 2])))
  = Returned
  ∧ (res_outcome
       (action_hook (watch ["status"]) (event_name "articles" update)
          (holding (watch ["status"]) update [PNum 1; PNum 2]
             (entry update [PNum 1; PNum 2] ["status"] {[ "status" := VStr "draft" ]}))
          (action_meta update (PObject {[ "status" := VStr "published" ]})
             (inr [PNum 1; PNum 2])))
     = Thrown TypeError
     ∧ res_effects
         (action_hook (watch ["status"]) (event_name "articles" update)
            (holding (watch ["status"]) update [PNum 1; PNum 2]
               (entry update [PNum 1; PNum 2] ["status"] {[ "status" := VStr "draft" ]}))
            (action_meta update (PObject {[ "status" := VStr "published" ]})
               (inr [PNum 1; PNum 2])))
       = []).
Proof.
  split.
  - apply (C10_unguarded_snapshot_lookup (watch ["status"]) (event_name "articles" update) _
             (action_meta update (PObject {[ "status" := VStr "published" ]})
                (inr [PNum 1; PNum 2]))
             {| m_timestamp := 1000; m_event := event_name "articles" update;
                m_keys := [PNum 1; PNum 2]; m_fields := ["status"];
                m_current := [ {| item_key := VNum 1; item_data := {[ "status" := VStr "draft" ]} |};
                               {| item_key := VNum 2; item_data := {[ "status" := VStr "draft" ]} |} ] |}).
    + split; reflexivity.
    + vm_compute. reflexivity.
    + repeat constructor; vm_compute; by eexists.
  - destruct (C10_unguarded_snapshot_lookup (watch ["status"]) (event_name "articles" update)
                (holding (watch ["status"]) update [PNum 1; PNum 2]
                   (entry update [PNum 1; PNum 2] ["status"] {[ "status" := VStr "draft" ]}))
                (action_meta update (PObject {[ "status" := VStr "published" ]})
                   (inr [PNum 1; PNum 2]))
                (entry update [PNum 1; PNum 2] ["status"] {[ "status" := VStr "draft" ]}))
      as [_ H].
    + split; reflexivity.
    + vm_compute. reflexivity.
    + destruct H as [H1 H2].
      { apply Exists_cons_tl, Exists_cons_hd. vm_compute. reflexivity. }
      split; [exact H1|]. rewrite H2. vm_compute. reflexivity.
Defined.

(** An update of the status of article 1 under a monitor of the status and
    of the title, with [includeUnchanged]. *)
Lemma C9_witness :
  ∃ k i item,
    k ∈ [PNum 1]
    ∧ find_item
        (m_current (entry update [PNum 1] ["status"; "title"]
                      {[ "status" := VStr "draft"; "title" := VStr "T" ]})) k
      = Some (i, item)
    ∧ update = update ∧ VNum 1 = key_value k
    ∧ ∀ f, f ∈ ["status"; "title"] →
        ({[ "status" := VStr "draft"; "title" := VStr "T" ]} : obj) !! f = item_data item !! f
        ∧ ({[ "status" := VStr "published"; "title" := VStr "T" ]} : obj) !! f
          = committed (options (watch_unchanged ["status"; "title"]))
              (PObject {[ "status" := VStr "published" ]}) (item_data item) !! f
        ∧ (is_Some (item_data item !! f) →
           is_Some (({[ "status" := VStr "draft"; "title" := VStr "T" ]} : obj) !! f)
           ∧ is_Some (({[ "status" := VStr "published"; "title" := VStr "T" ]} : obj) !! f)).
Proof.
  refine (C9_include_unchanged (watch_unchanged ["status"; "title"]) (event_name "articles" update)
           (holding (watch_unchanged ["status"; "title"]) update [PNum 1]
              (entry update [PNum 1] ["status"; "title"]
                 {[ "status" := VStr "draft"; "title" := VStr "T" ]}))
           (action_meta update (PObject {[ "status" := VStr "published" ]}) (inr [PNum 1]))
           (entry update [PNum 1] ["status"; "title"]
              {[ "status" := VStr "draft"; "title" := VStr "T" ]})
           (called update (PObject {[ "status" := VStr "published" ]})
              [ {| action := update; key := VNum 1;
                   previous := {[ "status" := VStr "draft"; "title" := VStr "T" ]};
                   current := {[ "status" := VStr "published"; "title" := VStr "T" ]} |} ])
           {| action := update; key := VNum 1;
              previous := {[ "status" := VStr "draft"; "title" := VStr "T" ]};
              current := {[ "status" := VStr "published"; "title" := VStr "T" ]} |}
           _ _ _ _ _).
  - split; reflexivity.
  - reflexivity.
  - vm_compute. reflexivity.
  - vm_compute. apply list_elem_of_here.
  - apply list_elem_of_here.
Defined.

(** * Further properties of the monitor hook *)

(** ** The action hook of a create *)

(** X1: the action hook of a create does not look at the correlation store: it
    calls the handler once with one record whose [previous] is empty and
    whose [current] holds monitored fields only. A monitored field that the
    payload holds has the value of the payload, or [null] when that value is
    undefined. A monitored field that the payload does not hold is [null],
    unless it is named like a member of [Object.prototype] ([constructor],
    [toString], ...): such a field reads as defined and is left out of the
    record. The record carries no [hasChanged]. *)
Theorem create_dispatch mon event st meta :
  bound_to mon create event (am_event meta) →
  res_store (action_hook mon event st meta) = st
  ∧ res_outcome (action_hook mon event st meta) = Returned
  ∧ ∃ r,
      handler_calls (res_effects (action_hook mon event st meta))
      = [ {| call_mutations := [r]; call_collection := am_collection meta;
             call_event := event; call_payload := am_payload meta |} ]
      ∧ action r = create
      ∧ key r = meta_key (am_target meta)
      ∧ previous r = ∅
      ∧ (∀ f, current r !! f
              = if decide (f ∈ fields (options mon))
                then match spread (am_payload meta) !! f with
                     | Some v => Some (if decide (v = VUndefined) then VNull else v)
                     | None => if Array.includes inherited_names f then None else Some VNull
                     end
                else None)
      ∧ ∀ f from to, hasChanged r f from to = None.
Proof.
  intros Hb. rewrite (create_calls_handler_once mon event st meta Hb).
  apply bound_to_tests in Hb as (Hn & _).
  unfold action_hook. rewrite Hn. cbn [action_name String.eqb Ascii.eqb Bool.eqb].
  cbn [res_store res_outcome]. split_and!; [done..|].
  eexists. split; [reflexivity|]. cbn. split_and!; [done..| |done].
  intros f. apply create_current_lookup.
Qed.

(** ** A subscriber that throws *)

Lemma LogError_call_handler mon event mutations collection payload msg :
  LogError msg ∈ call_handler mon event mutations collection payload
  ↔ msg = "Error in monitor hook handler for event " ++ event
    ∧ handler mon {| call_mutations := mutations; call_collection := collection;
                     call_event := event; call_payload := payload |} = false.
Proof.
  unfold call_handler. rewrite elem_of_cons. destruct (handler mon _).
  - rewrite elem_of_nil. naive_solver.
  - rewrite list_elem_of_singleton. naive_solver.
Qed.

Lemma LogError_warn_added event (l : list string) msg : LogError msg ∉ warn_added event <$> l.
Proof. by intros (f & ? & _)%list_elem_of_fmap. Qed.

Lemma handler_calls_with_handler mon h event mutations collection payload :
  handler_calls (call_handler (with_handler mon h) event mutations collection payload)
  = handler_calls (call_handler mon event mutations collection payload).
Proof. by rewrite !handler_calls_call_handler. Qed.

(** The errors logged are those of the calls in which the handler threw. *)
Lemma logged_nil mon event :
  ∀ msg, LogError msg ∈ ([] : list Effect)
         ↔ msg = "Error in monitor hook handler for event " ++ event
           ∧ ∃ call, call ∈ handler_calls [] ∧ handler mon call = false.
Proof.
  intros msg. split.
  - by intros ?%elem_of_nil.
  - by intros (_ & call & ?%elem_of_nil & _).
Qed.

Lemma logged_app mon event (e1 e2 : list Effect) :
  (∀ msg, LogError msg ∈ e1
          ↔ msg = "Error in monitor hook handler for event " ++ event
            ∧ ∃ call, call ∈ handler_calls e1 ∧ handler mon call = false) →
  (∀ msg, LogError msg ∈ e2
          ↔ msg = "Error in monitor hook handler for event " ++ event
            ∧ ∃ call, call ∈ handler_calls e2 ∧ handler mon call = false) →
  ∀ msg, LogError msg ∈ (e1 ++ e2)%list
         ↔ msg = "Error in monitor hook handler for event " ++ event
           ∧ ∃ call, call ∈ handler_calls (e1 ++ e2)%list ∧ handler mon call = false.
Proof.
  intros H1 H2 msg. rewrite elem_of_app, H1, H2, handler_calls_app.
  setoid_rewrite elem_of_app. naive_solver.
Qed.

Lemma logged_call_handler mon event mutations collection payload :
  ∀ msg, LogError msg ∈ call_handler mon event mutations collection payload
         ↔ msg = "Error in monitor hook handler for event " ++ event
           ∧ ∃ call, call ∈ handler_calls (call_handler mon event mutations collection payload)
                     ∧ handler mon call = false.
Proof.
  intros msg. rewrite LogError_call_handler, handler_calls_call_handler.
  setoid_rewrite list_elem_of_singleton. naive_solver.
Qed.

Lemma logged_warn_added mon event (l : list string) :
  ∀ msg, LogError msg ∈ warn_added event <$> l
         ↔ msg = "Error in monitor hook handler for event " ++ event
           ∧ ∃ call, call ∈ handler_calls (warn_added event <$> l) ∧ handler mon call = false.
Proof.
  intros msg. rewrite handler_calls_warn_added. split.
  - by intros ?%LogError_warn_added.
  - by intros (_ & call & ?%elem_of_nil & _).
Qed.

(** X2: a handler that throws changes nothing but the log: the store, the
    outcome and the handler calls of the action hook are those of the same
    hook with any other subscriber; the hook throws nothing but the
    [TypeError] of a key without snapshot item; and an error is logged
    exactly for the calls in which the handler threw. *)
Theorem handler_failure_contained mon h event st meta :
  res_store (action_hook (with_handler mon h) event st meta)
  = res_store (action_hook mon event st meta)
  ∧ res_outcome (action_hook (with_handler mon h) event st meta)
    = res_outcome (action_hook mon event st meta)
  ∧ handler_calls (res_effects (action_hook (with_handler mon h) event st meta))
    = handler_calls (res_effects (action_hook mon event st meta))
  ∧ (res_outcome (action_hook mon event st meta) = Returned
     ∨ res_outcome (action_hook mon event st meta) = Thrown TypeError)
  ∧ ∀ msg, LogError msg ∈ res_effects (action_hook mon event st meta)
           ↔ msg = "Error in monitor hook handler for event " ++ event
             ∧ ∃ call, call ∈ handler_calls (res_effects (action_hook mon event st meta))
                       ∧ handler mon call = false.
Proof.
  unfold action_hook. cbn [options hookId with_handler].
  destruct (String.eqb _ "create").
  { cbn [res_store res_outcome res_effects].
    split_and!; [done|done|apply handler_calls_with_handler|by left|].
    apply logged_call_handler. }
  destruct (st !! _) as [mutation|].
  2:{ cbn [res_store res_outcome res_effects]. split_and!; [done..|by left|].
      intros msg. split.
      - by intros [=]%list_elem_of_singleton.
      - by intros (_ & call & ?%elem_of_nil & _). }
  assert (∀ msg,
    LogError msg ∈ (if Str.endsWith event ".items.delete"
                    then call_handler mon event (delete_record <$> m_current mutation)
                           (am_collection meta) (am_payload meta)
                    else [])
    ↔ msg = "Error in monitor hook handler for event " ++ event
      ∧ ∃ call, call ∈ handler_calls
                         (if Str.endsWith event ".items.delete"
                          then call_handler mon event (delete_record <$> m_current mutation)
                                 (am_collection meta) (am_payload meta)
                          else [])
                ∧ handler mon call = false) as Hdeleted.
  { destruct (Str.endsWith _ _); [apply logged_call_handler | apply logged_nil]. }
  assert (handler_calls (if Str.endsWith event ".items.delete"
                         then call_handler (with_handler mon h) event
                                (delete_record <$> m_current mutation)
                                (am_collection meta) (am_payload meta)
                         else [])
          = handler_calls (if Str.endsWith event ".items.delete"
                           then call_handler mon event (delete_record <$> m_current mutation)
                                  (am_collection meta) (am_payload meta)
                           else [])) as Hsame.
  { destruct (Str.endsWith _ _); [apply handler_calls_with_handler | done]. }
  destruct (update_loop _ _ _ _ _) as [[snapshot' pushed]|];
    cbn [res_store res_outcome res_effects].
  - split_and!; [done|done| |by left|].
    + rewrite !handler_calls_app, Hsame. do 2 f_equal.
      destruct (Nat.ltb _ _); [apply handler_calls_with_handler | done].
    + apply logged_app; [done|]. apply logged_app; [apply logged_warn_added|].
      destruct (Nat.ltb _ _); [apply logged_call_handler | apply logged_nil].
  - split_and!; [done|done| |by right|].
    + by rewrite !handler_calls_app, Hsame.
    + apply logged_app; [done|]. apply logged_warn_added.
Qed.

(** ** The life of a correlation entry *)

(** X3: the action hook of an update or of a delete takes the entry of its
    fingerprint out of the store before anything else, so also when it
    throws afterwards, and leaves the other entries alone; the same action
    hook run again finds nothing and only logs the warning of an unmatched
    hook. *)
Theorem entry_consumed_once mon a event st meta mutation :
  bound_to mon a event (am_event meta) →
  a ≠ create →
  st !! createFingerprint (hookId mon) event (meta_keys (am_target meta)) = Some mutation →
  res_store (action_hook mon event st meta)
  = base.delete (createFingerprint (hookId mon) event (meta_keys (am_target meta))) st
  ∧ action_hook mon event (res_store (action_hook mon event st meta)) meta
    = {| res_store :=
           base.delete (createFingerprint (hookId mon) event (meta_keys (am_target meta))) st;
         res_effects :=
           [LogWarn ("No matching filter hook for action hook with fingerprint "
                     ++ createFingerprint (hookId mon) event (meta_keys (am_target meta)))];
         res_outcome := Returned |}.
Proof.
  intros Hb Ha Hst.
  assert (res_store (action_hook mon event st meta)
          = base.delete (createFingerprint (hookId mon) event (meta_keys (am_target meta))) st)
    as Hstore.
  { rewrite (action_hook_found mon a event st meta mutation) by done.
    cbn zeta. by destruct (update_loop _ _ _ _ _) as [[snapshot' pushed]|]. }
  split; [done|]. rewrite Hstore.
  apply (action_hook_unmatched mon a); [done..|]. apply lookup_delete_eq.
Qed.

(** ** The filter hook when it throws *)

(** X4: whatever the event name, the payload and the answer of the store, a
    filter hook that throws has logged nothing and has left the correlation
    store as it was. It throws an error for an event that is neither a
    create, an update nor a delete, a [TypeError] for a delete whose payload
    is no array, and otherwise only what the read of the store threw. *)
Theorem filter_hook_throws_clean host mon event now_insert now_sweep st payload meta e :
  res_outcome (filter_hook host mon event now_insert now_sweep st payload meta) = Thrown e →
  res_store (filter_hook host mon event now_insert now_sweep st payload meta) = st
  ∧ res_effects (filter_hook host mon event now_insert now_sweep st payload meta) = []
  ∧ ((e = Error ("Unexpected event " ++ fm_event meta)
      ∧ Str.endsWith (fm_event meta) ".items.create" = false
      ∧ Str.endsWith (fm_event meta) ".items.update" = false
      ∧ Str.endsWith (fm_event meta) ".items.delete" = false)
     ∨ (e = TypeError
        ∧ Str.split_pop (fm_event meta) = "delete"
        ∧ as_keys payload = None)
     ∨ ∃ keys0 fields0 err,
         e = StoreError err
         ∧ readMany host (capture_query host (options mon) (fm_collection meta)
                            (Array.sort keys0) fields0) = inl err).
Proof.
  unfold filter_hook.
  destruct (Str.endsWith (fm_event meta) ".items.create") eqn:Hc; [done|].
  destruct (Str.endsWith (fm_event meta) ".items.update") eqn:Hu;
    destruct (Str.endsWith (fm_event meta) ".items.delete") eqn:Hd;
    cbn [negb andb].
  4:{ cbn. intros [= <-]. split_and!; [done..|]. by left. }
  all: unfold capture_keys;
    destruct (String.eqb (Str.split_pop (fm_event meta)) "delete") eqn:Hn;
    [destruct payload as [o|keys]; cbn [as_keys]|];
    try (cbn; intros [= <-]; split_and!; [done..|]; right; left;
         by apply String.eqb_eq in Hn);
    cbn zeta;
    (destruct (readMany _ _) as [err|items] eqn:Hread;
     [cbn; intros [= <-]; split_and!; [done..|]; right; right; by eexists _, _, _
     |by destruct (sweep _ _)]).
Qed.

(** ** Sweeps one after the other *)

Lemma is_old_mono now now' m : (now ≤ now')%Z → is_old now m = true → is_old now' m = true.
Proof.
  unfold is_old. rewrite !bool_decide_eq_true. lia.
Qed.

(** X5: a sweep after a sweep: what two sweeps leave, the later one alone
    leaves; and a sweep at a time right after a sweep at that time removes
    nothing and logs nothing. *)
Theorem sweep_again now now' (st : Store) :
  (now ≤ now')%Z →
  (sweep now' (sweep now st).1).1 = (sweep now' st).1
  ∧ sweep now (sweep now st).1 = ((sweep now st).1, []).
Proof.
  intros Hle. split.
  - apply map_eq. intros k. rewrite !sweep_lookup.
    destruct (st !! k) as [m|]; [|done].
    destruct (is_old now m) eqn:Ho.
    + by rewrite (is_old_mono now now' m).
    + done.
  - assert (oldMutations now (sweep now st).1 = []) as Hnone.
    { apply elem_of_nil_inv. intros k (m & Hm & Ho)%elem_of_oldMutations.
      rewrite sweep_lookup in Hm. destruct (st !! k) as [m'|]; [|done].
      destruct (is_old now m') eqn:Ho'; [done|]. injection Hm as ->. congruence. }
    unfold sweep at 1. by rewrite Hnone.
Qed.

(** ** The events bound *)

Lemma event_name_inj collection a a' :
  event_name collection a = event_name collection a' → a = a'.
Proof.
  unfold event_name. induction collection as [|c collection IH]; cbn.
  - by destruct a, a'.
  - intros [= H]. by apply IH.
Qed.

(** X6: the hooks are bound once for each kind of event listed in the options,
    however often and in whatever order the list names it, in the order
    create, update, delete; an empty list binds nothing, and the array form
    of the second argument of [monitor] binds all three. *)
Theorem bound_events_spec (mon : Monitor) :
  NoDup (bound_events mon)
  ∧ (∀ event, event ∈ bound_events mon
              ↔ ∃ a, a ∈ events (options mon)
                     ∧ event = event_name (monitorCollection mon) a)
  ∧ bound_events mon `sublist_of`
      (event_name (monitorCollection mon) <$> [create; update; delete])
  ∧ ∀ lastHookId collection monitorFields h,
      bound_events (monitor lastHookId collection (inl monitorFields) h).1
      = event_name collection <$> [create; update; delete].
Proof.
  unfold bound_events. split_and!.
  - apply NoDup_fmap_2_strong.
    + intros a a' _ _. apply event_name_inj.
    + apply NoDup_ListNoDup, List.NoDup_filter, NoDup_ListNoDup.
      by apply (bool_decide_unpack _).
  - intros event. rewrite list_elem_of_fmap. split.
    + intros (a & -> & Ha). apply list_elem_of_In, filter_In in Ha as [_ Ha].
      apply bool_decide_eq_true in Ha. by exists a.
    + intros (a & Ha & ->). exists a. split; [done|].
      apply list_elem_of_In, filter_In. split.
      * destruct a; cbn; tauto.
      * by apply bool_decide_eq_true.
  - apply fmap_sublist.
    generalize [create; update; delete]. intros l.
    induction l as [|a l IH]; cbn; [done|].
    destruct (bool_decide _); [by apply sublist_skip | by apply sublist_cons].
  - intros lastHookId collection monitorFields h. cbn. done.
Qed.

(** ** The records of an update *)

Lemma shake_scoped o previous current :
  scoped o (shake o previous current).1 ∧ scoped o (shake o previous current).2.
Proof.
  split; intros f Hf.
  - rewrite (proj1 (shake_lookup o previous current f)) in Hf.
    unfold shaken_out in Hf.
    destruct (Array.includes (fields o) f) eqn:Hinc; [by apply includes_true|].
    cbn in Hf. by destruct Hf.
  - rewrite (proj2 (shake_lookup o previous current f)) in Hf.
    unfold shaken_out in Hf.
    destruct (Array.includes (fields o) f) eqn:Hinc; [by apply includes_true|].
    cbn in Hf. by destruct Hf.
Qed.

Lemma update_loop_pushed_scoped o payload keys snapshot0 snapshot' mutations' :
  update_loop o payload keys snapshot0 [] = Some (snapshot', mutations') →
  pushed_scoped o keys snapshot' mutations'.
Proof.
  intros Hloop.
  apply (update_loop_invariant o payload (pushed_scoped o)) with (handled := []) in Hloop;
    [done| | |].
  - intros handled k snapshot mutations i item [Hp Hsub] Hk _. split.
    + intros p Hin. destruct (Hp p Hin) as (? & ? & ?). split_and!; [set_solver|done..].
    + by apply sublist_inserts_r.
  - intros handled k snapshot mutations i item [Hp Hsub] Hk _.
    apply find_item_Some in Hk as [Hi _].
    destruct (shake_scoped o (item_data item) (committed o payload (item_data item)))
      as [Hs1 Hs2].
    split.
    + intros p [Hin| ->%list_elem_of_singleton]%elem_of_app.
      * destruct (Hp p Hin) as (? & ? & itm & Hitm & Hscoped).
        split_and!; [set_solver|done|].
        destruct (decide (pushed_previous p = i)) as [->|Hne].
        -- eexists. split; [apply list_lookup_insert_eq; by eapply lookup_lt_Some|exact Hs1].
        -- exists itm. by rewrite list_lookup_insert_ne.
      * cbn. split_and!; [set_solver|done|].
        eexists. split; [apply list_lookup_insert_eq; by eapply lookup_lt_Some|exact Hs1].
    + rewrite fmap_app. by apply sublist_app.
  - split; [|done]. by intros p ?%elem_of_nil.
Qed.

(** X7: the handler of an update is called at most once and never with an empty
    array. The records of the call are update records of keys of the
    operation, they hold monitored fields only in [previous] and in
    [current], and they come in the order of the sorted keys (the order of
    the string forms), at most one for each key reported. *)
Theorem update_call_shape mon event st meta :
  bound_to mon update event (am_event meta) →
  handler_calls (res_effects (action_hook mon event st meta)) = []
  ∨ ∃ call,
      handler_calls (res_effects (action_hook mon event st meta)) = [call]
      ∧ call_mutations call ≠ []
      ∧ call_collection call = am_collection meta
      ∧ call_event call = event
      ∧ call_payload call = am_payload meta
      ∧ Forall (fun r => action r = update
                         ∧ scoped (options mon) (previous r)
                         ∧ scoped (options mon) (current r))
          (call_mutations call)
      ∧ (key <$> call_mutations call)
          `sublist_of` (key_value <$> Array.sort (meta_keys (am_target meta))).
Proof.
  intros Hb.
  destruct (st !! createFingerprint (hookId mon) event (meta_keys (am_target meta)))
    as [mutation|] eqn:Hst.
  2:{ left. by rewrite (action_hook_unmatched mon update event st meta). }
  rewrite (action_hook_found mon update event st meta mutation) by done.
  cbn zeta. rewrite (bool_decide_eq_false_2 (update = delete)) by done.
  destruct (update_loop _ _ _ _ _) as [[snapshot' pushed]|] eqn:Hloop; cbn [res_effects].
  2:{ left. by rewrite app_nil_l, handler_calls_warn_added. }
  rewrite app_nil_l, handler_calls_app, handler_calls_warn_added, app_nil_l.
  destruct (update_record snapshot' <$> pushed) as [|r rs] eqn:Hrs; [by left|].
  right. cbn [length Nat.ltb Nat.leb]. rewrite handler_calls_call_handler.
  eexists. split; [reflexivity|]. cbn [call_mutations call_collection call_event call_payload].
  split_and!; [done..| |].
  - apply update_loop_pushed_scoped in Hloop as [Hp _].
    rewrite <-Hrs. apply Forall_fmap, Forall_forall. intros p Hin.
    destruct (Hp p Hin) as (_ & Hcur & itm & Hitm & Hprev).
    unfold update_record. cbn. rewrite Hitm. by split_and!.
  - apply update_loop_pushed_scoped in Hloop as [_ Hsub].
    rewrite <-Hrs, <-list_fmap_compose.
    change (key ∘ update_record snapshot') with (key_value ∘ pushed_key).
    rewrite list_fmap_compose. by apply fmap_sublist.
Qed.

(** X8: without [includeUnchanged], and for keys of pairwise different string
    forms, [hasChanged(field)] on a record given to the handler of an update
    tells whether the record holds the field: it is true for the fields of
    [previous] and of [current] and false for every other field. *)
Theorem hasChanged_tells_fields_held mon event st meta call r f :
  bound_to mon update event (am_event meta) →
  truthy (includeUnchanged (options mon)) = false →
  distinct_keys (meta_keys (am_target meta)) →
  call ∈ handler_calls (res_effects (action_hook mon event st meta)) →
  r ∈ call_mutations call →
  hasChanged r f VUndefined VUndefined
  = Some (bool_decide (is_Some (previous r !! f) ∨ is_Some (current r !! f))).
Proof.
  intros Hb Hiu Hdistinct Hcall Hr.
  destruct (st !! createFingerprint (hookId mon) event (meta_keys (am_target meta)))
    as [mutation|] eqn:Hst.
  2:{ rewrite (action_hook_unmatched mon update event st meta) in Hcall by done.
      by apply elem_of_nil in Hcall. }
  destruct (update_handler_calls mon event st meta mutation Hb Hst call Hcall)
    as (snapshot' & pushed & Hloop & Hmut).
  rewrite Hmut in Hr. apply list_elem_of_fmap in Hr as (p & -> & Hp).
  apply update_loop_one_turn_each in Hloop.
  destruct Hloop as (_ & _ & Hc).
  { unfold distinct_keys in Hdistinct. by rewrite sort_perm. }
  destruct (Hc p Hp) as (_ & item' & _ & _ & Hprev & Hcur).
  unfold hasChanged, update_record. cbn [action previous current].
  rewrite Hprev, Hcur. cbn [from_option item_data].
  set (prev := item_data item'). set (cur := committed (options mon) (am_payload meta) prev).
  destruct (shake_lookup (options mon) prev cur f) as [E1 E2].
  unfold get. rewrite E1, E2.
  assert (strict_eq VUndefined VUndefined = true) as -> by done. cbn [orb andb].
  rewrite !andb_true_r. f_equal.
  destruct (shaken_out (options mon) prev cur f) eqn:Hout.
  - done.
  - unfold shaken_out in Hout. rewrite Hiu in Hout. cbn [negb andb] in Hout.
    apply orb_false_iff in Hout as [_ Hne].
    unfold get in Hne. rewrite Hne. cbn [negb].
    symmetry. apply bool_decide_eq_true.
    destruct (prev !! f) as [v|] eqn:Hv; [left; by eexists|].
    destruct (cur !! f) as [w|] eqn:Hw; [right; by eexists|].
    cbn in Hne. by apply strict_eq_false in Hne.
Qed.

(** ** No change to a monitored field goes unreported *)

Lemma update_loop_app o payload keys1 keys2 snapshot mutations :
  update_loop o payload (keys1 ++ keys2)%list snapshot mutations
  = match update_loop o payload keys1 snapshot mutations with
    | Some (snapshot1, mutations1) => update_loop o payload keys2 snapshot1 mutations1
    | None => None
    end.
Proof.
  revert snapshot mutations. induction keys1 as [|k keys1 IH]; intros snapshot mutations; [done|].
  rewrite <-app_comm_cons, !update_loop_cons.
  destruct (find_item snapshot k) as [[i item]|]; [|done].
  cbn zeta. by destruct (hasChangesToMonitoredFields _ _ _).
Qed.

Lemma update_loop_extends o payload keys snapshot mutations snapshot' mutations' :
  update_loop o payload keys snapshot mutations = Some (snapshot', mutations') →
  ∃ more, mutations' = (mutations ++ more)%list.
Proof.
  intros Hloop.
  apply (update_loop_invariant o payload
           (fun _ _ ms => ∃ more, ms = (mutations ++ more)%list)) with (handled := [])
    in Hloop; [done| | |].
  - by intros handled k s ms i item Hm _ _.
  - intros handled k s ms i item [more ->] _ _. eexists. by rewrite <-(assoc_L _).
  - exists []. by rewrite app_nil_r.
Qed.

(** With keys of pairwise different string forms, the loop pushes a record
    for every key whose item has a change to a monitored field. *)
Lemma update_loop_complete o payload snapshot0 keys snapshot' mutations' k i item0 :
  NoDup (key_string <$> keys) →
  update_loop o payload keys snapshot0 [] = Some (snapshot', mutations') →
  k ∈ keys →
  find_item snapshot0 k = Some (i, item0) →
  hasChangesToMonitoredFields o (item_data item0) (committed o payload (item_data item0)) = true →
  ∃ p, p ∈ mutations' ∧ pushed_key p = k.
Proof.
  intros Hnd Hloop Hk Hfind Hchg.
  apply list_elem_of_split in Hk as (keys1 & keys2 & ->).
  rewrite update_loop_app in Hloop.
  destruct (update_loop o payload keys1 snapshot0 []) as [[snapshot1 mutations1]|] eqn:Hloop1;
    [|done].
  rewrite fmap_app, fmap_cons in Hnd. apply NoDup_app in Hnd as (Hnd1 & Hfresh & _).
  destruct (update_loop_one_turn_each o payload snapshot0 keys1 snapshot1 mutations1 Hloop1 Hnd1)
    as (Hkeys & Hsame & _).
  destruct (find_item_same_keys snapshot0 snapshot1 k i item0 (eq_sym Hkeys) Hfind)
    as [item1 Hfind1].
  apply find_item_Some in Hfind1 as Hi1. destruct Hi1 as [Hi1 Hs1].
  apply find_item_Some in Hfind as Hi0. destruct Hi0 as [Hi0 _].
  assert (item1 = item0) as ->.
  { assert (snapshot0 !! i = Some item1) as Hi0'; [|by simplify_eq].
    apply Hsame; [done|]. intros k' Hk' Heq. rewrite Hs1 in Heq.
    apply (Hfresh (key_string k')); [by apply list_elem_of_fmap_2|]. rewrite <-Heq. by left. }
  rewrite update_loop_cons, Hfind1 in Hloop. cbn zeta in Hloop. rewrite Hchg in Hloop.
  apply update_loop_extends in Hloop as [more ->].
  eexists. split; [|shelve]. apply elem_of_app. left. apply elem_of_app. right. by left.
  Unshelve. done.
Qed.

(** The record of a key whose item has a change to a monitored field, in
    the action hook of an update whose keys have pairwise different string
    forms and all have an item in the captured snapshot. *)
Lemma update_record_of_key mon event st meta mutation k i item :
  bound_to mon update event (am_event meta) →
  st !! createFingerprint (hookId mon) event (meta_keys (am_target meta)) = Some mutation →
  distinct_keys (meta_keys (am_target meta)) →
  Forall (fun k => is_Some (find_item (m_current mutation) k)) (meta_keys (am_target meta)) →
  k ∈ meta_keys (am_target meta) →
  find_item (m_current mutation) k = Some (i, item) →
  let o := options mon in
  let payload := am_payload meta in
  let data :=
    item_data (strip_fields (removedFields mutation (dispatch_fields o payload)) item) in
  hasChangesToMonitoredFields o data (committed o payload data) = true →
  ∃ call r,
    handler_calls (res_effects (action_hook mon event st meta)) = [call]
    ∧ r ∈ call_mutations call
    ∧ action r = update
    ∧ key r = key_value k
    ∧ previous r = (shake o data (committed o payload data)).1
    ∧ current r = (shake o data (committed o payload data)).2.
Proof.
  intros Hb Hst Hdistinct Hall Hk Hfind o payload data Hchg.
  set (flds := dispatch_fields o payload) in *.
  set (item0 := strip_fields (removedFields mutation flds) item) in *.
  assert (find_item (reconcile mutation flds) k = Some (i, item0)) as Hfind0.
  { by rewrite find_item_reconcile, Hfind. }
  assert (NoDup (key_string <$> Array.sort (meta_keys (am_target meta)))) as Hnd.
  { unfold distinct_keys in Hdistinct. by rewrite sort_perm. }
  rewrite (action_hook_found mon update event st meta mutation) by done.
  cbn zeta. rewrite (bool_decide_eq_false_2 (update = delete)) by done.
  fold o payload flds.
  destruct (update_loop o payload (Array.sort (meta_keys (am_target meta)))
              (reconcile mutation flds) []) as [[snapshot' pushed]|] eqn:Hloop.
  2:{ exfalso. apply update_loop_None, Exists_exists in Hloop as (k' & Hk'%elem_of_sort_1 & Hnone).
      rewrite Forall_forall in Hall. destruct (Hall k' Hk') as [[i' item'] Hsome].
      by rewrite find_item_reconcile, Hsome in Hnone. }
  destruct (update_loop_complete o payload _ _ _ _ k i item0 Hnd Hloop
              (elem_of_sort_2 _ _ Hk) Hfind0 Hchg) as (p & Hp & Hpk).
  destruct (update_loop_one_turn_each o payload _ _ _ _ Hloop Hnd) as (_ & _ & Hrec).
  destruct (Hrec p Hp) as (_ & item0' & Hfind0' & _ & Hprev & Hcur).
  rewrite Hpk, Hfind0 in Hfind0'. injection Hfind0' as Hi <-.
  cbn [res_effects]. rewrite app_nil_l, handler_calls_app, handler_calls_warn_added, app_nil_l.
  destruct pushed as [|p0 pushed]; [by apply elem_of_nil in Hp|].
  cbn [fmap list_fmap length Nat.ltb Nat.leb]. rewrite handler_calls_call_handler.
  eexists _, (update_record snapshot' p). split; [reflexivity|].
  cbn [call_mutations]. split.
  { change (update_record snapshot' p ∈ update_record snapshot' <$> (p0 :: pushed)).
    by apply list_elem_of_fmap_2. }
  unfold update_record. cbn [action key previous current]. rewrite Hprev, Hcur, Hpk.
  cbn [from_option item_data]. by split_and!.
Qed.

(** A monitored field that the payload sets to another value than the one
    held for it is kept by the shake, with both values. *)
Lemma shake_keeps_change o payload (data : obj) f v :
  f ∈ fields o →
  spread payload !! f = Some v →
  get data f ≠ v →
  hasChangesToMonitoredFields o data (committed o payload data) = true
  ∧ (shake o data (committed o payload data)).1 !! f = data !! f
  ∧ (shake o data (committed o payload data)).2 !! f = Some v.
Proof.
  intros Hf Hv Hne.
  assert (committed o payload data !! f = Some v) as Hnew.
  { by rewrite committed_lookup, Hv. }
  assert (get data f ≠ get (committed o payload data) f) as Hdiff.
  { unfold get at 2. by rewrite Hnew. }
  assert (shaken_out o data (committed o payload data) f = false) as Hin.
  { unfold shaken_out. rewrite (proj2 (includes_true (fields o) f) Hf). cbn [negb orb].
    apply andb_false_iff. right. by apply strict_eq_false. }
  split_and!.
  - apply not_false_iff_true. intros Hno.
    by apply (proj1 (hasChanges_false _ _ _)) with (f := f) in Hno.
  - by rewrite (proj1 (shake_lookup o _ _ f)), Hin.
  - by rewrite (proj2 (shake_lookup o _ _ f)), Hin.
Qed.

(** X9: in the action hook of an update whose keys have pairwise different
    string forms and all have an item in the captured snapshot: when the
    payload sets a monitored field to a value other than the one captured
    for a key, the handler is called, once, and one of its records is the
    record of that key, with the captured value of the field in [previous]
    and the new value in [current]. This holds with and without
    [includeUnchanged]. *)
Theorem changed_field_is_reported mon event st meta mutation k i item f v :
  bound_to mon update event (am_event meta) →
  st !! createFingerprint (hookId mon) event (meta_keys (am_target meta)) = Some mutation →
  distinct_keys (meta_keys (am_target meta)) →
  Forall (fun k => is_Some (find_item (m_current mutation) k)) (meta_keys (am_target meta)) →
  k ∈ meta_keys (am_target meta) →
  find_item (m_current mutation) k = Some (i, item) →
  f ∈ fields (options mon) →
  spread (am_payload meta) !! f = Some v →
  get (item_data item) f ≠ v →
  ∃ call r,
    handler_calls (res_effects (action_hook mon event st meta)) = [call]
    ∧ r ∈ call_mutations call
    ∧ action r = update
    ∧ key r = key_value k
    ∧ previous r !! f = item_data item !! f
    ∧ current r !! f = Some v.
Proof.
  intros Hb Hst Hdistinct Hall Hk Hfind Hf Hv Hne.
  set (o := options mon). set (payload := am_payload meta).
  set (data := item_data (strip_fields (removedFields mutation (dispatch_fields o payload)) item)).
  assert (data !! f = item_data item !! f) as Hkept.
  { subst data. rewrite strip_fields_lookup.
    destruct (decide (f ∈ removedFields mutation _)) as [Hrem|]; [|done].
    destruct (removed_monitored o payload mutation f Hf Hrem) as [_ Hnone].
    subst payload. by rewrite Hv in Hnone. }
  destruct (shake_keeps_change o payload data f v Hf Hv) as (Hchg & Hprev & Hcur).
  { unfold get. rewrite Hkept. exact Hne. }
  destruct (update_record_of_key mon event st meta mutation k i item Hb Hst Hdistinct Hall Hk
              Hfind Hchg) as (call & r & Hcalls & Hr & Ha & Hkey & Hp & Hc).
  exists call, r. rewrite Hp, Hc. fold o payload data. rewrite Hprev, Hcur.
  by split_and!.
Qed.

Lemma distinct_keys_strings keys : distinct_keys keys → distinct_strings keys.
Proof.
  unfold distinct_keys. intros Hnd a b Ha Hb Heq.
  apply list_elem_of_lookup in Ha as [ia Ha]. apply list_elem_of_lookup in Hb as [ib Hb].
  assert (ia = ib) as ->; [|by simplify_eq].
  apply (NoDup_lookup _ ia ib (key_string a) Hnd); rewrite list_lookup_fmap.
  - by rewrite Ha.
  - by rewrite Hb, Heq.
Qed.

(** ** An update by the values read before the commit *)







(** ** Between a capture and its dispatch *)

(** An entry outlives a hook run that leaves it alone. *)
Lemma run_hook_leaves_alone mon fingerprint entry (st : Store) run :
  st !! fingerprint = Some entry →
  leaves_alone mon fingerprint (m_timestamp entry) run →
  run_hook mon st run !! fingerprint = Some entry.
Proof.
  intros Hst Hleave. destruct run as [host event now_insert now_sweep payload meta|event meta];
    cbn [run_hook leaves_alone] in *.
  - destruct Hleave as [Hother Hclock]. unfold filter_hook.
    destruct (Str.endsWith (fm_event meta) ".items.create"); [done|].
    destruct (negb _ && negb _); [done|]. cbn zeta.
    destruct (capture_keys _ payload meta) as [keys0|]; [|done].
    destruct (readMany host _) as [err|items]; [done|].
    destruct (sweep now_sweep _) as [st2 warnings] eqn:Hsweep. cbn [res_store].
    change st2 with (st2, warnings).1. rewrite <-Hsweep, sweep_lookup.
    rewrite lookup_insert_ne by (by apply Hother). rewrite Hst.
    unfold is_old. by rewrite bool_decide_eq_false_2 by lia.
  - unfold action_hook. destruct (String.eqb _ "create"); [done|].
    destruct (st !! createFingerprint _ _ _) as [mutation|]; [|done].
    destruct (update_loop _ _ _ _ _) as [[snapshot' pushed]|]; cbn [res_store];
      by rewrite lookup_delete_ne.
Qed.

Lemma runs_leave_alone mon fingerprint entry runs (st : Store) :
  st !! fingerprint = Some entry →
  Forall (leaves_alone mon fingerprint (m_timestamp entry)) runs →
  foldl (run_hook mon) st runs !! fingerprint = Some entry.
Proof.
  intros Hst Hruns. revert st Hst.
  induction Hruns as [|run runs Hrun _ IH]; intros st Hst; [done|].
  cbn [foldl]. apply IH. by apply run_hook_leaves_alone.
Qed.

(** X10: the update of some items, captured and then dispatched with the same
    payload and the same keys, of pairwise different string forms, each of
    which the capture read. The sweep of the capture reads the clock no
    later than five minutes after the insertion, and the hooks of the
    monitor that run between the capture and the dispatch, if any, leave
    the entry alone: none captures or dispatches the same fingerprint, and
    none sweeps later than five minutes after the capture. Then, when the
    payload sets a monitored field, other than the primary key, to another
    value than the one read for an item, the handler is called once and is
    given the record of that item, with the value read before the commit in
    [previous] and the value of the payload in [current]. *)
Theorem update_round_trip host mon event now_insert now_sweep st p fmeta ameta currentItems
    between k i row f v :
  bound_to mon update event (fm_event fmeta) →
  am_event ameta = event →
  am_payload ameta = PObject p →
  am_target ameta = fm_target fmeta →
  readMany host
    (capture_query host (options mon) (fm_collection fmeta)
       (Array.sort (meta_keys (fm_target fmeta)))
       (capture_fields (options mon) (action_name update) (PObject p))) = inr currentItems →
  (now_sweep - now_insert ≤ FIVE_MINUTES)%Z →
  Forall (leaves_alone mon
            (createFingerprint (hookId mon) event (meta_keys (fm_target fmeta))) now_insert)
    between →
  distinct_keys (meta_keys (fm_target fmeta)) →
  let pk := primary host (fm_collection fmeta) in
  Forall (fun k => is_Some (find_item (snapshot_item pk <$> currentItems) k))
    (meta_keys (fm_target fmeta)) →
  k ∈ meta_keys (fm_target fmeta) →
  find_item (snapshot_item pk <$> currentItems) k = Some (i, snapshot_item pk row) →
  f ∈ fields (options mon) →
  f ≠ pk →
  p !! f = Some v →
  get row f ≠ v →
  ∃ call r,
    handler_calls
      (res_effects
         (action_hook mon event
            (foldl (run_hook mon)
               (res_store
                  (filter_hook host mon event now_insert now_sweep st (PObject p) fmeta))
               between)
            ameta))
    = [call]
    ∧ r ∈ call_mutations call
    ∧ action r = update
    ∧ key r = key_value k
    ∧ previous r !! f = row !! f
    ∧ current r !! f = Some v.
Proof.
  intros Hb He Hp Ht Hread Hclock Hbetween Hdistinct pk Hall Hk Hfind Hf Hpk Hv Hne.
  destruct ameta as [aevent acollection apayload atarget]. cbn in He, Hp, Ht.
  subst aevent apayload atarget.
  set (ameta := {| am_event := event; am_collection := acollection;
                   am_payload := PObject p; am_target := fm_target fmeta |}).
  assert (bound_to mon update event (am_event ameta)) as Hb'.
  { destruct Hb as [Hev _]. by split. }
  set (o := options mon).
  set (mutation := {| m_timestamp := now_insert; m_event := event;
                      m_keys := Array.sort (meta_keys (fm_target fmeta));
                      m_fields := capture_fields o (action_name update) (PObject p);
                      m_current := snapshot_item pk <$> currentItems |}).
  assert (res_store (filter_hook host mon event now_insert now_sweep st (PObject p) fmeta)
            !! createFingerprint (hookId mon) event (meta_keys (am_target ameta))
          = Some mutation) as Hlook.
  { apply (capture_then_lookup host mon update); [done..|by apply distinct_keys_strings|done]. }
  apply (runs_leave_alone mon _ mutation between) in Hlook; [|exact Hbetween].
  set (data := item_data (strip_fields (removedFields mutation
                                          (dispatch_fields o (PObject p)))
                            (snapshot_item pk row))).
  assert (data !! f = row !! f) as Hkept.
  { subst data. rewrite strip_fields_lookup.
    destruct (decide (f ∈ removedFields mutation _)) as [Hrem|].
    - destruct (removed_monitored o (PObject p) mutation f Hf Hrem) as [_ Hnone].
      cbn in Hnone. by rewrite Hv in Hnone.
    - cbn. by rewrite lookup_delete_ne. }
  destruct (shake_keeps_change o (PObject p) data f v Hf Hv) as (Hchg & Hprev & Hcur).
  { unfold get. rewrite Hkept. exact Hne. }
  destruct (update_record_of_key mon event _ ameta mutation k i
              (snapshot_item pk row) Hb' Hlook Hdistinct Hall Hk Hfind Hchg)
    as (call & r & Hcalls & Hr & Ha & Hkey & Hpr & Hc).
  exists call, r. rewrite Hpr, Hc. cbn [am_payload ameta]. fold o data.
  rewrite Hprev, Hcur, Hkept. by split_and!.
Qed.

(** ** A capture followed by its dispatch *)

(** The statements written for an update find nothing to report after a
    delete when no monitored field is named like an index of the payload and
    the entry was captured for the monitored fields. *)
Lemma delete_fall_through_silent mon event st meta mutation :
  bound_to mon delete event (am_event meta) →
  st !! createFingerprint (hookId mon) event (meta_keys (am_target meta)) = Some mutation →
  (∀ f, f ∈ fields (options mon) → spread (am_payload meta) !! f = None) →
  (∀ f, f ∈ fields (options mon) → f ∈ m_fields mutation) →
  handler_calls (res_effects (action_hook mon event st meta))
  = [ {| call_mutations := delete_record <$> m_current mutation;
         call_collection := am_collection meta;
         call_event := event;
         call_payload := am_payload meta |} ].
Proof.
  intros Hb Hst Hidx Hcap.
  rewrite (action_hook_found mon delete event st meta mutation) by done.
  cbn zeta. rewrite (bool_decide_eq_true_2 (delete = delete)) by done.
  destruct (update_loop _ _ _ _ _) as [[snapshot' pushed]|] eqn:Hloop; cbn [res_effects].
  2:{ by rewrite handler_calls_app, handler_calls_call_handler, handler_calls_warn_added. }
  apply update_loop_unchanged in Hloop as [_ ->].
  { rewrite handler_calls_app, handler_calls_call_handler, handler_calls_app,
      handler_calls_warn_added. done. }
  intros k i item' _ Hfind.
  apply find_item_reconcile_Some in Hfind as (item & _ & ->).
  apply hasChanges_false. intros f Hf. unfold get.
  rewrite committed_lookup, (Hidx f Hf), strip_fields_lookup.
  destruct (truthy (includeUnchanged (options mon))) eqn:Hiu; [done|].
  rewrite decide_True; [done|].
  apply elem_of_removedFields. split; [by apply Hcap|].
  unfold dispatch_fields. rewrite Hiu, elem_of_payload_fields, (Hidx f Hf).
  by intros [[] _].
Qed.

(** X11: the delete of some items, captured and then dispatched. The sweep of
    the capture reads the clock no later than five minutes after the
    insertion, and the hooks of the monitor that run between the capture
    and the dispatch, if any, leave the entry alone: none captures or
    dispatches the same fingerprint, and none sweeps later than five minutes
    after the capture. Then, when no monitored field is named like an index
    of the array of keys, the handler is called exactly once, with one
    delete record for each item that the capture read, in the order of the
    read. The record holds the primary key of the item as its key and the
    other values read as [previous]. The keys may be reported in another
    order than they were captured in, provided that no two of them have the
    same string form. *)
Theorem delete_round_trip host mon event now_insert now_sweep st keys fmeta ameta currentItems
    between :
  bound_to mon delete event (fm_event fmeta) →
  am_event ameta = event →
  readMany host
    (capture_query host (options mon) (fm_collection fmeta) (Array.sort keys)
       (fields (options mon))) = inr currentItems →
  (now_sweep - now_insert ≤ FIVE_MINUTES)%Z →
  Forall (leaves_alone mon (createFingerprint (hookId mon) event keys) now_insert) between →
  distinct_strings keys →
  keys ≡ₚ meta_keys (am_target ameta) →
  (∀ f, f ∈ fields (options mon) → spread (am_payload ameta) !! f = None) →
  let pk := primary host (fm_collection fmeta) in
  handler_calls
    (res_effects
       (action_hook mon event
          (foldl (run_hook mon)
             (res_store
                (filter_hook host mon event now_insert now_sweep st (PArray keys) fmeta))
             between)
          ameta))
  = [ {| call_mutations :=
           (fun item => {| action := delete; key := get item pk;
                           previous := base.delete pk item; current := ∅ |})
             <$> currentItems;
         call_collection := am_collection ameta;
         call_event := event;
         call_payload := am_payload ameta |} ].
Proof.
  intros Hb He Hread Hclock Hbetween Hd Hp Hidx pk.
  assert (capture_fields (options mon) (action_name delete) (PArray keys)
          = fields (options mon)) as Hflds.
  { unfold capture_fields. cbn. by rewrite orb_true_r. }
  pose proof (capture_then_lookup host mon delete event now_insert now_sweep st (PArray keys)
                fmeta keys (meta_keys (am_target ameta)) currentItems Hb) as Hlook.
  rewrite Hflds in Hlook. specialize (Hlook ltac:(done) eq_refl Hread Hclock Hd Hp).
  assert (createFingerprint (hookId mon) event keys
          = createFingerprint (hookId mon) event (meta_keys (am_target ameta))) as Hfp.
  { unfold createFingerprint. by rewrite (sort_permutation keys (meta_keys (am_target ameta))). }
  rewrite Hfp in Hbetween.
  apply (runs_leave_alone mon _ _ between) in Hlook; [|exact Hbetween].
  assert (bound_to mon delete event (am_event ameta)) as Hb'.
  { destruct Hb as [Hev _]. by split. }
  rewrite (delete_fall_through_silent mon event _ ameta _ Hb' Hlook Hidx) by done.
  cbn [m_current]. by rewrite <-list_fmap_compose.
Qed.

(** X12: a capture that reads its items, and whose sweep reads the clock no
    later than five minutes after its insertion, and the dispatch of the
    same operation leave no entry of their own in the store, whether the
    dispatch returns or throws. When the hooks of the monitor that run in
    between leave the entry alone (none captures or dispatches the same
    fingerprint, none sweeps later than five minutes after the capture),
    the dispatch takes exactly that entry out of the store that they left.
    When no hook runs in between, what is left is the store of before the
    capture, without the entries that were old at the sweep of the capture
    and without an earlier entry of the same fingerprint. *)
Theorem capture_dispatch_store host mon a event now_insert now_sweep st payload fmeta ameta
    keys0 currentItems between :
  bound_to mon a event (fm_event fmeta) →
  a ≠ create →
  am_event ameta = event →
  capture_keys (action_name a) payload fmeta = Some keys0 →
  readMany host
    (capture_query host (options mon) (fm_collection fmeta) (Array.sort keys0)
       (capture_fields (options mon) (action_name a) payload)) = inr currentItems →
  (now_sweep - now_insert ≤ FIVE_MINUTES)%Z →
  Forall (leaves_alone mon (createFingerprint (hookId mon) event keys0) now_insert) between →
  distinct_strings keys0 →
  keys0 ≡ₚ meta_keys (am_target ameta) →
  let captured :=
    res_store (filter_hook host mon event now_insert now_sweep st payload fmeta) in
  res_store (action_hook mon event (foldl (run_hook mon) captured between) ameta)
  = base.delete (createFingerprint (hookId mon) event keys0)
      (foldl (run_hook mon) captured between)
  ∧ res_store (action_hook mon event captured ameta)
    = filter (fun kv => is_old now_sweep kv.2 = false)
        (base.delete (createFingerprint (hookId mon) event keys0) st).
Proof.
  intros Hb Ha He Hk Hread Hclock Hbetween Hd Hp captured. subst captured.
  pose proof (capture_then_lookup host mon a event now_insert now_sweep st payload
                fmeta keys0 (meta_keys (am_target ameta)) currentItems Hb Ha Hk Hread Hclock Hd Hp)
    as Hlook.
  assert (bound_to mon a event (am_event ameta)) as Hb'.
  { destruct Hb as [Hev _]. by split. }
  assert (createFingerprint (hookId mon) event (meta_keys (am_target ameta))
          = createFingerprint (hookId mon) event keys0) as Hfp.
  { unfold createFingerprint. by rewrite (sort_permutation keys0 (meta_keys (am_target ameta))). }
  split.
  { rewrite <-Hfp in Hbetween.
    apply (runs_leave_alone mon _ _ between) in Hlook as Hlook'; [|exact Hbetween].
    rewrite (action_hook_found mon a event _ ameta _ Hb' Ha Hlook'). cbn zeta. rewrite Hfp.
    by destruct (update_loop _ _ _ _ _) as [[snapshot' pushed]|]. }
  rewrite (action_hook_found mon a event _ ameta _ Hb' Ha Hlook). cbn zeta. rewrite Hfp.
  assert (res_store (filter_hook host mon event now_insert now_sweep st payload fmeta)
          = filter (fun kv => is_old now_sweep kv.2 = false)
              (<[createFingerprint (hookId mon) event keys0 :=
                   {| m_timestamp := now_insert; m_event := event; m_keys := Array.sort keys0;
                      m_fields := capture_fields (options mon) (action_name a) payload;
                      m_current := snapshot_item (primary host (fm_collection fmeta))
                                     <$> currentItems |}]> st)) as Hstore.
  { rewrite (filter_hook_capture _ _ a _ _ _ _ _ _ keys0) by done.
    cbn zeta. rewrite Hread. cbn [res_store]. apply sweep_store. }
  assert (base.delete (createFingerprint (hookId mon) event keys0)
            (res_store (filter_hook host mon event now_insert now_sweep st payload fmeta))
          = filter (fun kv => is_old now_sweep kv.2 = false)
              (base.delete (createFingerprint (hookId mon) event keys0) st)) as Hdel.
  { rewrite Hstore. rewrite <-map_filter_delete. by rewrite delete_insert_eq. }
  destruct (update_loop _ _ _ _ _) as [[snapshot' pushed]|]; cbn [res_store]; by apply Hdel.
Qed.

(** * Authorisation of custom endpoints *)

Lemma auth_includes_true ids id : Auth.includes ids id = true ↔ id ∈ ids.
Proof.
  unfold Auth.includes. rewrite existsb_exists. split.
  - intros (x & Hin%list_elem_of_In & Heq%strict_eq_true). by subst.
  - intros Hin. exists id. split; [by apply list_elem_of_In | by apply strict_eq_true].
Qed.

Lemma split_shift_query path query :
  Auth.split_shift (path ++ "?" ++ query) = Auth.split_shift path.
Proof.
  induction path as [|c path IH]; [reflexivity|].
  change (Auth.split_shift (String c (path ++ "?" ++ query))
          = Auth.split_shift (String c path)).
  cbn [Auth.split_shift]. destruct (Ascii.eqb c "?"); [done|]. by f_equal.
Qed.

(** The middleware by the outcome of its [try] block. *)
Lemma endpointAuth_next host req :
  Auth.next_calls (Auth.endpointAuth host req)
  = match (Auth.check host (Auth.split_shift (Auth.originalUrl req)) req).2 with
    | None => [None]
    | Some _ => [Some "ENDPOINT_AUTH_FORBIDDEN"]
    end
  ∧ Auth.errors_logged (Auth.endpointAuth host req)
    = match (Auth.check host (Auth.split_shift (Auth.originalUrl req)) req).2 with
      | None => []
      | Some failure => [failure]
      end.
Proof.
  unfold Auth.endpointAuth, Auth.check.
  destruct (Auth.readByQuery host _) as [message|[|config rest]]; [done|done|].
  destruct (negb (String.eqb (Auth.status config) "enabled")); [done|].
  destruct (truthy (Auth.allow_public_access config)); [done|].
  by destruct (negb _ && negb _).
Qed.

Lemma check_passes host url req :
  (Auth.check host url req).2 = None
  ↔ ∃ config rest, Auth.readByQuery host url = inr (config :: rest)
                   ∧ Auth.lets_through config req.
Proof.
  unfold Auth.check, Auth.lets_through.
  destruct (Auth.readByQuery host url) as [message|[|config rest]].
  { split; [done|]. by intros (? & ? & ? & _). }
  { split; [done|]. by intros (? & ? & ? & _). }
  destruct (String.eqb (Auth.status config) "enabled") eqn:Hst; cbn [negb].
  2:{ apply String.eqb_neq in Hst. split; [done|]. intros (? & ? & ? & ? & _). by simplify_eq. }
  apply String.eqb_eq in Hst.
  destruct (Auth.allow_public_access config) as [[]|] eqn:Hpub; cbn [truthy default].
  { split; [|done]. intros _. exists config, rest. rewrite Hpub. by split_and!; [|done|left]. }
  all: destruct (Auth.includes (Auth.roles config) _) eqn:Hr;
       destruct (Auth.includes (Auth.users config) _) eqn:Hu; cbn [negb andb snd].
  all: try (split; [|done]; intros _; exists config, rest;
            split; [done|]; split; [done|]; right;
            first [left; by apply auth_includes_true | right; by apply auth_includes_true]).
  all: split; [done|]; intros (? & ? & ? & _ & [Hp|[Hin|Hin]]); simplify_eq;
       apply auth_includes_true in Hin; congruence.
Qed.

(** X19: the middleware calls [next] exactly once. It calls it without an error
    when the first item configured for the path of the request is enabled
    and allows public access or lists the role or the user of the request;
    in every other case, a failed read among them, it logs the one reason
    and calls [next] with the same forbidden error. *)
Theorem endpointAuth_decision host req :
  let url := Auth.split_shift (Auth.originalUrl req) in
  ((∃ config rest, Auth.readByQuery host url = inr (config :: rest)
                   ∧ Auth.lets_through config req)
   ∧ Auth.next_calls (Auth.endpointAuth host req) = [None]
   ∧ Auth.errors_logged (Auth.endpointAuth host req) = [])
  ∨ ((¬ ∃ config rest, Auth.readByQuery host url = inr (config :: rest)
                       ∧ Auth.lets_through config req)
     ∧ Auth.next_calls (Auth.endpointAuth host req) = [Some "ENDPOINT_AUTH_FORBIDDEN"]
     ∧ ∃ failure, Auth.errors_logged (Auth.endpointAuth host req) = [failure]).
Proof.
  intros url. destruct (endpointAuth_next host req) as [-> ->]. fold url.
  pose proof (check_passes host url req) as Hiff.
  destruct (Auth.check host url req).2 as [failure|].
  - right. split_and!; [|done|by exists failure]. intros H%Hiff. done.
  - left. split_and!; [by apply Hiff|done|done].
Qed.

(** X20: the query string of a request has no part in the decision, and neither
    has the [admin] flag that [elevateRights] sets: the middleware calls
    [next] in the same way for a path with and without a query string, and
    for an accountability before and after [elevateRights], which changes
    no other property. *)
Theorem endpointAuth_ignores_query_and_admin host path query a :
  Auth.next_calls
    (Auth.endpointAuth host
       {| Auth.originalUrl := path ++ "?" ++ query;
          Auth.accountability := Some (Auth.elevateRights a) |})
  = Auth.next_calls
      (Auth.endpointAuth host {| Auth.originalUrl := path; Auth.accountability := Some a |})
  ∧ get (Auth.elevateRights a) "admin" = VBool true
  ∧ ∀ name, name ≠ "admin" → Auth.elevateRights a !! name = a !! name.
Proof.
  split_and!.
  - destruct (endpointAuth_next host
                {| Auth.originalUrl := path ++ "?" ++ query;
                   Auth.accountability := Some (Auth.elevateRights a) |}) as [-> _].
    destruct (endpointAuth_next host
                {| Auth.originalUrl := path; Auth.accountability := Some a |}) as [-> _].
    cbn [Auth.originalUrl]. rewrite split_shift_query.
    unfold Auth.check. cbn [Auth.accountability Auth.property].
    assert (get (Auth.elevateRights a) "role" = get a "role") as ->.
    { unfold get, Auth.elevateRights. by rewrite lookup_insert_ne. }
    assert (get (Auth.elevateRights a) "user" = get a "user") as ->.
    { unfold get, Auth.elevateRights. by rewrite lookup_insert_ne. }
    destruct (Auth.readByQuery host _) as [message|[|config rest]]; [done|done|].
    destruct (negb (String.eqb (Auth.status config) "enabled")); [done|].
    destruct (truthy (Auth.allow_public_access config)); [done|].
    by destruct (negb _ && negb _).
  - unfold get, Auth.elevateRights. by rewrite lookup_insert_eq.
  - intros name Hne. unfold Auth.elevateRights. by rewrite lookup_insert_ne.
Qed.

(** * Logging of synchronisation errors *)

(** X21: [logSyncError] writes the line to the console before anything else
    and throws only what [getSchema] throws or, with a schema, what the
    constructor of the items service throws; in both cases it creates no
    item. With a schema and a service, it creates one item, unless
    [JSON.stringify] throws on the debug data, in which case it creates
    none; that error, like the error of a creation that fails, is logged as
    fatal and is not thrown. The message of the item created is the first
    255 UTF-16 code units of the message of the line, and all of it when it
    is no longer than that. *)
Theorem logSyncError_contains_failure host details :
  let r := Errors.logSyncError host details in
  let setup := from_option Some (Errors.newItemsService host) (Errors.getSchema host) in
  head r.1 = Some (Errors.LogError (Errors.console_line details))
  ∧ r.2 = setup
  ∧ match setup, Errors.sync_errors_item details with
    | Some _, _ => r.1 = [Errors.LogError (Errors.console_line details)]
    | None, inl err =>
        r.1 = [Errors.LogError (Errors.console_line details); Errors.LogFatal err]
        ∧ Errors.debugData details = Some (Errors.StringifyThrows err)
    | None, inr item =>
        Errors.created r.1 = [item]
        ∧ Errors.fatal r.1 = option_list (Errors.createOne host item)
        ∧ (∀ err, Errors.debugData details ≠ Some (Errors.StringifyThrows err))
        ∧ Errors.message item = take 255 (Errors.full_message details)
        ∧ (length (Errors.message item) ≤ 255)%nat
        ∧ Errors.message item `prefix_of` Errors.full_message details
        ∧ ((length (Errors.full_message details) ≤ 255)%nat →
             Errors.message item = Errors.full_message details)
    end.
Proof.
  intros r setup. subst r setup. unfold Errors.logSyncError.
  destruct (Errors.getSchema host) as [err|] eqn:Hs; [done|]. cbn [from_option].
  destruct (Errors.newItemsService host) as [err|] eqn:Hn; [done|].
  destruct (Errors.sync_errors_item details) as [err|item] eqn:Hitem.
  - split_and!; [done..|]. unfold Errors.sync_errors_item in Hitem.
    destruct (Errors.debugData details) as [[json| |err']|]; by simplify_eq.
  - assert (Errors.message item
            = take Errors.MAX_MESSAGE_LENGTH (Errors.full_message details)) as Hmsg.
    { unfold Errors.sync_errors_item in Hitem.
      destruct (Errors.debugData details) as [[json| |err']|]; by simplify_eq. }
    split_and!; [done|done| | | |done| | |].
    + cbn. by destruct (Errors.createOne host item).
    + cbn. by destruct (Errors.createOne host item).
    + unfold Errors.sync_errors_item in Hitem. intros err' Hd. by rewrite Hd in Hitem.
    + rewrite Hmsg, length_take. unfold Errors.MAX_MESSAGE_LENGTH. lia.
    + rewrite Hmsg. apply prefix_take.
    + intros Hlen. rewrite Hmsg. by apply take_ge.
Qed.

(** * The copy made by [minimalUpsert] *)

Lemma Json_induction (P : MinimalUpsert.Json → Prop) :
  P MinimalUpsert.JUndefined →
  P MinimalUpsert.JNull →
  (∀ b, P (MinimalUpsert.JBool b)) →
  (∀ n, P (MinimalUpsert.JNum n)) →
  (∀ s, P (MinimalUpsert.JStr s)) →
  (∀ t, P (MinimalUpsert.JDate t)) →
  (∀ items, Forall P items → P (MinimalUpsert.JArray items)) →
  (∀ props, Forall (fun kv => P kv.2) props → P (MinimalUpsert.JObject props)) →
  ∀ val, P val.
Proof.
  intros Hu Hn Hb Hz Hs Hd Ha Ho. fix IH 1.
  intros [| |b|n|s|t|items|props];
    [exact Hu|exact Hn|apply Hb|apply Hz|apply Hs|apply Hd| |].
  - apply Ha. induction items as [|item items IHitems]; constructor; [apply IH | exact IHitems].
  - apply Ho. induction props as [|[key value] props IHprops]; constructor;
      [apply IH | exact IHprops].
Qed.

Lemma cloneDeep_object props :
  MinimalUpsert.cloneDeep (MinimalUpsert.JObject props)
  = MinimalUpsert.CObject (MinimalUpsert.copy_props MinimalUpsert.cloneDeep props).1
      (MinimalUpsert.copy_props MinimalUpsert.cloneDeep props).2.
Proof.
  change (MinimalUpsert.cloneDeep (MinimalUpsert.JObject props))
    with (let '(proto, out) := MinimalUpsert.copy_props MinimalUpsert.cloneDeep props in
          MinimalUpsert.CObject proto out).
  by destruct (MinimalUpsert.copy_props MinimalUpsert.cloneDeep props).
Qed.

Lemma copy_props_cons clone key value props :
  MinimalUpsert.copy_props clone ((key, value) :: props)
  = if MinimalUpsert.is_undefined value then MinimalUpsert.copy_props clone props
    else if String.eqb key "__proto__" then
      (match (MinimalUpsert.copy_props clone props).1 with
       | Some proto => Some proto
       | None => if MinimalUpsert.settable (clone value) then Some (clone value) else None
       end, (MinimalUpsert.copy_props clone props).2)
    else ((MinimalUpsert.copy_props clone props).1,
          (key, clone value) :: (MinimalUpsert.copy_props clone props).2).
Proof.
  destruct value; cbn [MinimalUpsert.copy_props MinimalUpsert.is_undefined]; [done|..];
    fold (MinimalUpsert.copy_props clone);
    destruct (MinimalUpsert.copy_props clone props) as [proto out];
    destruct (String.eqb key "__proto__"); cbn [fst snd]; by destruct proto.
Qed.

Lemma own_cloneDeep_undefined val :
  MinimalUpsert.is_undefined (MinimalUpsert.own (MinimalUpsert.cloneDeep val))
  = MinimalUpsert.is_undefined val.
Proof.
  destruct val; try done. rewrite cloneDeep_object. done.
Qed.

(** The properties of the copy of an object are the copies of the
    properties taken over. *)
Lemma copy_props_out clone props :
  (MinimalUpsert.copy_props clone props).2
  = (fun kv => (kv.1, clone kv.2)) <$> List.filter MinimalUpsert.copied props.
Proof.
  induction props as [|[key value] props IH]; [done|].
  rewrite copy_props_cons. unfold MinimalUpsert.copied at 1. cbn [List.filter fst snd].
  destruct (MinimalUpsert.is_undefined value); cbn [negb andb]; [done|].
  destruct (String.eqb key "__proto__"); cbn [negb snd]; [done|].
  cbn. by rewrite IH.
Qed.

Lemma copy_props_no_proto clone props :
  Forall (fun kv => String.eqb kv.1 "__proto__" = false) props →
  (MinimalUpsert.copy_props clone props).1 = None.
Proof.
  induction 1 as [|[key value] props Hkey _ IH]; [done|].
  rewrite copy_props_cons. destruct (MinimalUpsert.is_undefined value); [done|].
  cbn in Hkey. by rewrite Hkey.
Qed.

Lemma own_cloneDeep_plain val :
  MinimalUpsert.plain (MinimalUpsert.own (MinimalUpsert.cloneDeep val)) = true.
Proof.
  induction val as [| | | | | |items IH|props IH] using Json_induction; try done.
  - cbn [MinimalUpsert.cloneDeep MinimalUpsert.own MinimalUpsert.plain].
    induction IH as [|item items Hitem _ IHitems]; [done|].
    cbn. by rewrite Hitem, IHitems.
  - rewrite cloneDeep_object, copy_props_out.
    cbn [MinimalUpsert.own MinimalUpsert.plain].
    induction IH as [|[key value] props Hvalue _ IHprops]; [done|].
    cbn [List.filter]. unfold MinimalUpsert.copied at 1. cbn [fst snd].
    destruct (MinimalUpsert.is_undefined value) eqn:Hdef; cbn [negb andb]; [done|].
    destruct (String.eqb key "__proto__") eqn:Hkey; cbn [negb]; [done|].
    cbn in Hvalue. cbn. by rewrite Hkey, own_cloneDeep_undefined, Hdef, Hvalue, IHprops.
Qed.

Lemma cloneDeep_of_plain val :
  MinimalUpsert.plain val = true →
  MinimalUpsert.own (MinimalUpsert.cloneDeep val) = val
  ∧ MinimalUpsert.default_prototypes (MinimalUpsert.cloneDeep val) = true.
Proof.
  induction val as [| | | | | |items IH|props IH] using Json_induction; try done.
  - cbn [MinimalUpsert.cloneDeep MinimalUpsert.own MinimalUpsert.plain
         MinimalUpsert.default_prototypes].
    intros Hplain.
    induction IH as [|item items Hitem _ IHitems]; [done|].
    cbn in Hplain. apply andb_true_iff in Hplain as [H1 H2].
    destruct (Hitem H1) as [Ho Hd]. destruct (IHitems H2) as [Hos Hds].
    cbn. rewrite Ho, Hd. split; [|done]. by injection Hos as ->.
  - rewrite cloneDeep_object. cbn [MinimalUpsert.plain]. intros Hplain.
    assert (Forall (fun kv => String.eqb kv.1 "__proto__" = false) props) as Hkeys.
    { apply Forall_forall. intros [key value] Hin%list_elem_of_In.
      rewrite forallb_forall in Hplain. specialize (Hplain _ Hin). cbn in Hplain.
      cbn. by destruct (String.eqb key "__proto__"). }
    rewrite copy_props_no_proto by done. rewrite copy_props_out.
    cbn [MinimalUpsert.own MinimalUpsert.default_prototypes]. clear Hkeys.
    induction IH as [|[key value] props Hvalue _ IHprops]; [done|].
    cbn [forallb] in Hplain. apply andb_true_iff in Hplain as [H1 H2].
    apply andb_true_iff in H1 as [H1 Hp].
    apply andb_true_iff in H1 as [Hkey%negb_true_iff Hdef%negb_true_iff].
    assert (MinimalUpsert.copied (key, value) = true) as Hc.
    { unfold MinimalUpsert.copied. cbn [fst snd]. by rewrite Hdef, Hkey. }
    cbn [List.filter]. rewrite !Hc. cbn in Hvalue.
    destruct (Hvalue Hp) as [Ho Hd]. destruct (IHprops H2) as [Hos Hds].
    rewrite fmap_cons. cbn [fst snd List.map forallb]. rewrite Ho, Hd, Hds.
    split; [|done]. by injection Hos as ->.
Qed.

Lemma copy_props_proto clone props1 value props2 :
  MinimalUpsert.is_undefined value = false →
  MinimalUpsert.settable (clone value) = true →
  Forall (fun kv => String.eqb kv.1 "__proto__" = false) props2 →
  (MinimalUpsert.copy_props clone (props1 ++ ("__proto__", value) :: props2)%list).1
  = Some (clone value).
Proof.
  intros Hdef Hset Hkeys. induction props1 as [|[key value1] props1 IH].
  - cbn [app]. rewrite copy_props_cons, Hdef. cbn [String.eqb fst].
    rewrite copy_props_no_proto by done. by rewrite Hset.
  - rewrite <-app_comm_cons, copy_props_cons.
    destruct (MinimalUpsert.is_undefined value1); [done|].
    destruct (String.eqb key "__proto__"); cbn [fst]; by rewrite IH.
Qed.

(** X22: the copy that [cloneDeep] makes of an object has, in their order, the
    properties of the object whose value is not undefined and whose name is
    not [__proto__], each with the copy of its value. A property named
    [__proto__] is never copied: its value, when it is an object, an array,
    a date or [null], becomes the prototype of the copy instead. The copy of
    an array has as many elements, and the copy of a date is an empty
    object, so that the time of the date is lost. Through its own
    properties, a copy shows no date, no undefined property and no
    [__proto__] property; a value that has none of these is copied as it
    is, with the prototype of objects everywhere. *)
Theorem cloneDeep_spec val :
  MinimalUpsert.plain (MinimalUpsert.own (MinimalUpsert.cloneDeep val)) = true
  ∧ (MinimalUpsert.plain val = true →
       MinimalUpsert.own (MinimalUpsert.cloneDeep val) = val
       ∧ MinimalUpsert.default_prototypes (MinimalUpsert.cloneDeep val) = true)
  ∧ (∀ props, ∃ proto,
       MinimalUpsert.cloneDeep (MinimalUpsert.JObject props)
       = MinimalUpsert.CObject proto
           ((fun kv => (kv.1, MinimalUpsert.cloneDeep kv.2))
              <$> List.filter MinimalUpsert.copied props)
       ∧ (Forall (fun kv => String.eqb kv.1 "__proto__" = false) props → proto = None))
  ∧ (∀ props1 value props2,
       MinimalUpsert.settable (MinimalUpsert.cloneDeep value) = true →
       Forall (fun kv => String.eqb kv.1 "__proto__" = false) props2 →
       ∃ out,
         MinimalUpsert.cloneDeep
           (MinimalUpsert.JObject (props1 ++ ("__proto__", value) :: props2)%list)
         = MinimalUpsert.CObject (Some (MinimalUpsert.cloneDeep value)) out)
  ∧ (∀ items, ∃ items',
       MinimalUpsert.cloneDeep (MinimalUpsert.JArray items) = MinimalUpsert.CArray items'
       ∧ length items' = length items)
  ∧ ∀ time,
      MinimalUpsert.cloneDeep (MinimalUpsert.JDate time) = MinimalUpsert.CObject None [].
Proof.
  split_and!.
  - apply own_cloneDeep_plain.
  - apply cloneDeep_of_plain.
  - intros props. eexists. rewrite cloneDeep_object, copy_props_out.
    split; [reflexivity|]. apply copy_props_no_proto.
  - intros props1 value props2 Hset Hkeys. eexists.
    rewrite cloneDeep_object, (copy_props_proto _ props1 value props2); [done| |done..].
    by destruct value.
  - intros items. eexists. split; [reflexivity | apply length_map].
  - done.
Qed.

(** ** The further properties on the example data *)

(** The create of article 1 as a draft. *)
Lemma create_dispatch_witness :
  res_store (action_hook status_watch (event_name "articles" create) ∅
               (action_meta create (PObject {[ "status" := VStr "draft" ]}) (inl (PNum 1))))
  = ∅
  ∧ res_outcome (action_hook status_watch (event_name "articles" create) ∅
                   (action_meta create (PObject {[ "status" := VStr "draft" ]}) (inl (PNum 1))))
    = Returned.
Proof.
  destruct (create_dispatch status_watch (event_name "articles" create) ∅
              (action_meta create (PObject {[ "status" := VStr "draft" ]}) (inl (PNum 1))))
    as (Hstore & Hout & _).
  - split; reflexivity.
  - split; [exact Hstore | exact Hout].
Defined.

(** The update that publishes article 1, dispatched twice. *)
Lemma entry_consumed_once_witness :
  res_store (action_hook status_watch (event_name "articles" update) (draft_store update)
               publish_meta)
  = base.delete (createFingerprint (hookId status_watch) (event_name "articles" update)
                   (meta_keys (am_target publish_meta))) (draft_store update)
  ∧ action_hook status_watch (event_name "articles" update)
      (res_store (action_hook status_watch (event_name "articles" update) (draft_store update)
                    publish_meta)) publish_meta
    = {| res_store :=
           base.delete (createFingerprint (hookId status_watch) (event_name "articles" update)
                          (meta_keys (am_target publish_meta))) (draft_store update);
         res_effects :=
           [LogWarn ("No matching filter hook for action hook with fingerprint "
                     ++ createFingerprint (hookId status_watch) (event_name "articles" update)
                          (meta_keys (am_target publish_meta)))];
         res_outcome := Returned |}.
Proof.
  refine (entry_consumed_once status_watch update (event_name "articles" update)
            (draft_store update) publish_meta (draft_entry update) _ _ _).
  - split; reflexivity.
  - discriminate.
  - vm_compute. reflexivity.
Defined.

(** A capture on a store that cannot be reached. *)
Lemma filter_hook_throws_clean_witness :
  res_store (filter_hook unreachable status_watch (event_name "articles" update) 1000 1001
               littered publish (filter_meta update (inr [PNum 1])))
  = littered
  ∧ res_effects (filter_hook unreachable status_watch (event_name "articles" update) 1000 1001
                   littered publish (filter_meta update (inr [PNum 1])))
    = [].
Proof.
  destruct (filter_hook_throws_clean unreachable status_watch (event_name "articles" update)
              1000 1001 littered publish (filter_meta update (inr [PNum 1]))
              (StoreError "ECONNREFUSED")) as (Hstore & Heffects & _).
  - vm_compute. reflexivity.
  - split; [exact Hstore | exact Heffects].
Defined.

(** Two sweeps of the littered store, five and ten minutes after the entry
    was left. *)
Lemma sweep_again_witness :
  (sweep 600002 (sweep 300001 littered).1).1 = (sweep 600002 littered).1
  ∧ sweep 300001 (sweep 300001 littered).1 = ((sweep 300001 littered).1, []).
Proof.
  refine (sweep_again 300001 600002 littered _). lia.
Defined.

(** The update that publishes article 1. *)
Lemma update_call_shape_witness :
  handler_calls (res_effects (action_hook status_watch (event_name "articles" update)
                                (draft_store update) publish_meta)) = []
  ∨ ∃ call,
      handler_calls (res_effects (action_hook status_watch (event_name "articles" update)
                                    (draft_store update) publish_meta)) = [call]
      ∧ call_mutations call ≠ []
      ∧ call_collection call = am_collection publish_meta
      ∧ call_event call = event_name "articles" update
      ∧ call_payload call = am_payload publish_meta
      ∧ Forall (fun r => action r = update
                         ∧ scoped (options status_watch) (previous r)
                         ∧ scoped (options status_watch) (current r))
          (call_mutations call)
      ∧ (key <$> call_mutations call)
          `sublist_of` (key_value <$> Array.sort (meta_keys (am_target publish_meta))).
Proof.
  refine (update_call_shape status_watch (event_name "articles" update) (draft_store update)
            publish_meta _).
  split; reflexivity.
Defined.

Lemma hasChanged_tells_fields_held_witness :
  hasChanged published_record "status" VUndefined VUndefined
  = Some (bool_decide (is_Some (previous published_record !! "status")
                       ∨ is_Some (current published_record !! "status"))).
Proof.
  refine (hasChanged_tells_fields_held status_watch (event_name "articles" update)
            (draft_store update) publish_meta (called update publish [published_record])
            published_record "status" _ _ _ _ _).
  - split; reflexivity.
  - reflexivity.
  - apply (bool_decide_unpack _). vm_compute. exact I.
  - vm_compute. apply list_elem_of_here.
  - apply list_elem_of_here.
Defined.

(** The delete of article 1, captured from the table and dispatched. *)
Lemma delete_round_trip_witness :
  handler_calls
    (res_effects
       (action_hook status_watch (event_name "articles" delete)
          (foldl (run_hook status_watch)
             (res_store (filter_hook (table [article 1 "draft" "T"]) status_watch
                           (event_name "articles" delete) 1000 1001 ∅ (PArray [PNum 1])
                           (filter_meta delete (inr [PNum 1]))))
             meanwhile)
          remove_meta))
  = [ {| call_mutations :=
           (fun item => {| action := delete; key := get item "id";
                           previous := base.delete "id" item; current := ∅ |})
             <$> [ ({[ "id" := VNum 1; "status" := VStr "draft" ]} : obj) ];
         call_collection := am_collection remove_meta;
         call_event := event_name "articles" delete;
         call_payload := am_payload remove_meta |} ].
Proof.
  refine (delete_round_trip (table [article 1 "draft" "T"]) status_watch
            (event_name "articles" delete) 1000 1001 ∅ [PNum 1]
            (filter_meta delete (inr [PNum 1])) remove_meta
            [ {[ "id" := VNum 1; "status" := VStr "draft" ]} ] meanwhile _ _ _ _ _ _ _ _).
  - split; reflexivity.
  - reflexivity.
  - vm_compute. reflexivity.
  - vm_compute. discriminate.
  - constructor; [split|constructor; [|constructor]].
    + intros keys0 Hkeys. vm_compute in Hkeys. injection Hkeys as <-.
      vm_compute. discriminate.
    + vm_compute. discriminate.
    + vm_compute. discriminate.
  - apply (distinct_strings_numbers [1]%Z).
  - reflexivity.
  - intros f Hf. apply list_elem_of_singleton in Hf as ->. vm_compute. reflexivity.
Defined.

(** The update that publishes article 1, captured from the table on the
    littered store and dispatched. *)
Lemma capture_dispatch_store_witness :
  res_store
    (action_hook status_watch (event_name "articles" update)
       (foldl (run_hook status_watch)
          (res_store (filter_hook (table [article 1 "draft" "T"]) status_watch
                        (event_name "articles" update) 1000 1001 littered publish
                        (filter_meta update (inr [PNum 1]))))
          meanwhile)
       publish_meta)
  = base.delete (createFingerprint (hookId status_watch) (event_name "articles" update)
                   [PNum 1])
      (foldl (run_hook status_watch)
         (res_store (filter_hook (table [article 1 "draft" "T"]) status_watch
                       (event_name "articles" update) 1000 1001 littered publish
                       (filter_meta update (inr [PNum 1]))))
         meanwhile)
  ∧ res_store
      (action_hook status_watch (event_name "articles" update)
         (res_store (filter_hook (table [article 1 "draft" "T"]) status_watch
                       (event_name "articles" update) 1000 1001 littered publish
                       (filter_meta update (inr [PNum 1])))) publish_meta)
    = filter (fun kv => is_old 1001 kv.2 = false)
        (base.delete (createFingerprint (hookId status_watch) (event_name "articles" update)
                        [PNum 1]) littered).
Proof.
  refine (capture_dispatch_store (table [article 1 "draft" "T"]) status_watch update
            (event_name "articles" update) 1000 1001 littered publish
            (filter_meta update (inr [PNum 1])) publish_meta [PNum 1]
            [ {[ "id" := VNum 1; "status" := VStr "draft" ]} ] meanwhile _ _ _ _ _ _ _ _ _).
  - split; reflexivity.
  - discriminate.
  - reflexivity.
  - reflexivity.
  - vm_compute. reflexivity.
  - vm_compute. discriminate.
  - constructor; [split|constructor; [|constructor]].
    + intros keys0 Hkeys. vm_compute in Hkeys. injection Hkeys as <-.
      vm_compute. discriminate.
    + vm_compute. discriminate.
    + vm_compute. discriminate.
  - apply (distinct_strings_numbers [1]%Z).
  - reflexivity.
Defined.

Lemma changed_field_is_reported_witness :
  ∃ call r,
    handler_calls (res_effects (action_hook status_watch (event_name "articles" update)
                                  (draft_store update) publish_meta)) = [call]
    ∧ r ∈ call_mutations call
    ∧ action r = update
    ∧ key r = key_value (PNum 1)
    ∧ previous r !! "status" = item_data draft_item !! "status"
    ∧ current r !! "status" = Some (VStr "published").
Proof.
  refine (changed_field_is_reported status_watch (event_name "articles" update)
            (draft_store update) publish_meta (draft_entry update) (PNum 1) 0 draft_item
            "status" (VStr "published") _ _ _ _ _ _ _ _ _).
  - split; reflexivity.
  - vm_compute. reflexivity.
  - apply (bool_decide_unpack _). vm_compute. exact I.
  - constructor; [vm_compute; eexists; reflexivity | constructor].
  - apply list_elem_of_here.
  - vm_compute. reflexivity.
  - apply list_elem_of_here.
  - vm_compute. reflexivity.
  - vm_compute. discriminate.
Defined.

(** The update that publishes article 1, captured from the table and
    dispatched. *)
Lemma update_round_trip_witness :
  ∃ call r,
    handler_calls
      (res_effects
         (action_hook status_watch (event_name "articles" update)
            (foldl (run_hook status_watch)
               (res_store (filter_hook (table [article 1 "draft" "T"]) status_watch
                             (event_name "articles" update) 1000 1001 littered
                             (PObject {[ "status" := VStr "published" ]})
                             (filter_meta update (inr [PNum 1]))))
               meanwhile)
            publish_meta))
    = [call]
    ∧ r ∈ call_mutations call
    ∧ action r = update
    ∧ key r = key_value (PNum 1)
    ∧ previous r !! "status"
      = ({[ "id" := VNum 1; "status" := VStr "draft" ]} : obj) !! "status"
    ∧ current r !! "status" = Some (VStr "published").
Proof.
  refine (update_round_trip (table [article 1 "draft" "T"]) status_watch
            (event_name "articles" update) 1000 1001 littered
            {[ "status" := VStr "published" ]} (filter_meta update (inr [PNum 1]))
            publish_meta [ {[ "id" := VNum 1; "status" := VStr "draft" ]} ] meanwhile
            (PNum 1) 0 {[ "id" := VNum 1; "status" := VStr "draft" ]} "status"
            (VStr "published") _ _ _ _ _ _ _ _ _ _ _ _ _ _ _).
  - split; reflexivity.
  - reflexivity.
  - reflexivity.
  - reflexivity.
  - vm_compute. reflexivity.
  - vm_compute. discriminate.
  - constructor; [split|constructor; [|constructor]].
    + intros keys0 Hkeys. vm_compute in Hkeys. injection Hkeys as <-.
      vm_compute. discriminate.
    + vm_compute. discriminate.
    + vm_compute. discriminate.
  - apply (bool_decide_unpack _). vm_compute. exact I.
  - constructor; [vm_compute; eexists; reflexivity | constructor].
  - apply list_elem_of_here.
  - vm_compute. reflexivity.
  - apply list_elem_of_here.
  - discriminate.
  - vm_compute. reflexivity.
  - vm_compute. discriminate.
Defined.

(** * Locks *)

Import ThreadSafe.


(** The calls of [grant] among the events, and the requests that returned
    without waiting. *)
Lemma entered_app e1 e2 : entered (e1 ++ e2)%list = (entered e1 ++ entered e2)%list.
Proof. apply omap_app. Qed.

Lemma entered_granted (batch : list LockQueueItem) :
  entered (Granted ∘ grant <$> batch) = grant <$> batch.
Proof. induction batch as [|x batch IH]; [done|]. cbn. by f_equal. Qed.

Lemma grant_shared_spec q :
  q = ((grant_shared q).1 ++ (grant_shared q).2)%list
  ∧ Forall (fun x => shared x = true) (grant_shared q).1
  ∧ ∀ x, head (grant_shared q).2 = Some x → shared x = false.
Proof.
  induction q as [|next q (IH1 & IH2 & IH3)]; [by split_and!|].
  cbn [grant_shared]. destruct (shared next) eqn:Hs.
  - destruct (grant_shared q) as [granted rest]. cbn in *. split_and!; [by f_equal|by constructor|done].
  - cbn. split_and!; [done|done|]. intros x [= <-]. done.
Qed.

Lemma granted_app e1 e2 : granted (e1 ++ e2)%list = (granted e1 ++ granted e2)%list.
Proof. apply omap_app. Qed.

Lemma resolved_app e1 e2 : resolved (e1 ++ e2)%list = (resolved e1 ++ resolved e2)%list.
Proof. apply omap_app. Qed.

Lemma granted_batch (batch : list LockQueueItem) :
  granted (Granted ∘ grant <$> batch) = grant <$> batch
  ∧ resolved (Granted ∘ grant <$> batch) = [].
Proof. induction batch as [|x batch [IH1 IH2]]; [done|]. cbn. split; [by f_equal|done]. Qed.

(** What one release takes from the queue. *)
Lemma release_queue l :
  ∃ batch,
    queue l = (batch ++ queue (release l).1)%list
    ∧ granted (release l).2 = grant <$> batch
    ∧ resolved (release l).2 = [].
Proof.
  unfold release. destruct (_shared l && Nat.ltb 0 (shares l)).
  { by exists []. }
  destruct (queue l) as [|next q] eqn:Hq.
  { by exists []. }
  destruct (shared next).
  - destruct (grant_shared_spec q) as (Hsplit & _). destruct (grant_shared q) as [batch rest].
    exists (next :: batch). cbn [fst snd queue] in *.
    change (granted (Granted (grant next) :: (Granted ∘ grant <$> batch)))
      with (grant next :: granted (Granted ∘ grant <$> batch)).
    change (resolved (Granted (grant next) :: (Granted ∘ grant <$> batch)))
      with (resolved (Granted ∘ grant <$> batch)).
    destruct (granted_batch batch) as [-> ->]. split_and!; [by rewrite Hsplit at 1|done|done].
  - by exists [next].
Qed.

(** X13: a release by the last holder, with requests waiting, hands the lock
    over: it grants either the one exclusive request at the head of the
    queue, or all the shared requests up to the first exclusive one, in the
    order of the queue, and takes them out of the queue. The lock becomes
    exclusive or shared as the requests granted are, and the count of
    shares stays as it is. *)
Theorem release_hands_over l :
  _shared l && Nat.ltb 0 (shares l) = false →
  queue l ≠ [] →
  ∃ batch,
    batch ≠ []
    ∧ queue l = (batch ++ queue (release l).1)%list
    ∧ (release l).2 = (Granted ∘ grant <$> batch)
    ∧ shares (release l).1 = shares l
    ∧ Forall (fun x => shared x = _shared (release l).1) batch
    ∧ if _shared (release l).1
      then ∀ x, head (queue (release l).1) = Some x → shared x = false
      else length batch = 1.
Proof.
  intros Hlast Hq. unfold release. rewrite Hlast.
  destruct (queue l) as [|next q]; [done|].
  destruct (shared next) eqn:Hs.
  - destruct (grant_shared_spec q) as (Hsplit & Hall & Hhead).
    destruct (grant_shared q) as [granted rest]. cbn in *.
    exists (next :: granted). cbn. split_and!; [done|by f_equal|done|done|by constructor|done].
  - exists [next]. cbn. split_and!; [done..|by constructor|done].
Qed.

Lemma run_cons l op ops :
  run l (op :: ops)
  = ((run (step l op).1 ops).1, ((step l op).2 ++ (run (step l op).1 ops).2)%list).
Proof. cbn [run]. destruct (step l op) as [l1 e1]. cbn [fst snd]. by destruct (run l1 ops). Qed.

(** X14: over any sequence of requests and releases on a lock, no request is
    lost and none is served twice: the requests made split into those that
    returned without waiting, all of them shared, and those that waited; the
    calls of [grant], followed by the queue that is left, are the queue of
    before followed by the requests that waited, in the order in which they
    were made. *)
Theorem requests_served_in_order l ops :
  ∃ waited now,
    requested ops ≡ₚ (waited ++ now)%list
    ∧ waited `sublist_of` requested ops
    ∧ now `sublist_of` requested ops
    ∧ Forall (fun x => shared x = true) now
    ∧ resolved (run l ops).2 = grant <$> now
    ∧ (granted (run l ops).2 ++ (grant <$> queue (run l ops).1))%list
      = grant <$> (queue l ++ waited)%list.
Proof.
  revert l. induction ops as [|op ops IH]; intros l.
  { exists [], []. cbn. rewrite app_nil_r. split_and!; done. }
  rewrite run_cons. cbn [fst snd].
  destruct (IH (step l op).1) as (waited & now & Hperm & Hw & Hn & Hall & Hres & Hgr).
  rewrite granted_app, resolved_app, <-(assoc_L _), Hgr, Hres.
  destruct op as [shared0 waiter|]; cbn [step].
  - change (requested (Request shared0 waiter :: ops))
      with ({| shared := shared0; grant := waiter |} :: requested ops).
    unfold request. destruct (_shared l && shared0) eqn:Hnow; cbn [fst snd queue].
    + exists waited, ({| shared := shared0; grant := waiter |} :: now).
      apply andb_true_iff in Hnow as [_ ->].
      split_and!; [|by apply sublist_cons|by apply sublist_skip|by constructor|done|done].
      by rewrite <-Permutation_middle, Hperm.
    + exists ({| shared := shared0; grant := waiter |} :: waited), now.
      split_and!; [|by apply sublist_skip|by apply sublist_cons|done|done|].
      * cbn. by rewrite Hperm.
      * cbn. by rewrite <-(assoc_L _).
  - change (requested (Release :: ops)) with (requested ops).
    destruct (release_queue l) as (batch & Hq & Hg & Hr).
    exists waited, now. rewrite Hg, Hr. split_and!; [done..|].
    rewrite Hq at 1. by rewrite !fmap_app, (assoc_L _).
Qed.

(** X15: used with exclusive requests only, a lock has one holder at most: from
    an exclusive lock whose waiters are all exclusive, and with at most one
    holder, no sequence of exclusive requests and of releases made by
    holders leads to two holders. *)
Theorem exclusive_use_is_mutex l ops (n m : nat) :
  _shared l = false →
  Forall (fun x => shared x = false) (queue l) →
  Forall (fun x => shared x = false) (requested ops) →
  (n ≤ 1)%nat →
  holders n l ops = Some m →
  (m ≤ 1)%nat.
Proof.
  revert l n. induction ops as [|op ops IH]; intros l n Hex Hq Hops Hn.
  { cbn. intros [= <-]. done. }
  destruct op as [shared0 waiter|].
  - change (requested (Request shared0 waiter :: ops))
      with ({| shared := shared0; grant := waiter |} :: requested ops) in Hops.
    apply Forall_cons in Hops as [Hsh Hops]. cbn in Hsh. subst shared0.
    cbn [holders step]. unfold request. rewrite Hex. cbn [andb].
    change (length (entered [])) with 0.
    rewrite Nat.add_0_r. apply IH; [done| |done|done].
    cbn. apply Forall_app. split; [done|]. by constructor.
  - change (requested (Release :: ops)) with (requested ops) in Hops.
    cbn [holders step]. unfold release. rewrite Hex. cbn [andb].
    destruct (queue l) as [|next q] eqn:Hql.
    + destruct n as [|n]; [done|].
      change (length (entered [Released])) with 0.
      apply IH; [done| |done|lia]. by constructor.
    + apply Forall_cons in Hq as [-> Hq].
      destruct n as [|n]; [done|].
      change (length (entered [Granted (grant next)])) with 1.
      apply IH; [done|done|done|lia].
Qed.

(** X16: the shared requests that a release grants together are not counted as
    shares. When that release leaves an exclusive request at the head of the
    queue, the next release, made by one holder of the batch, grants the
    exclusive request: the lock is exclusive again and has as many holders
    as the batch had requests, all but one of them holders of the shared
    lock. *)
Theorem shared_batch_not_counted l batch x rest :
  _shared l = false →
  shares l = 0 →
  queue l = (batch ++ x :: rest)%list →
  batch ≠ [] →
  Forall (fun y => shared y = true) batch →
  shared x = false →
  (run l [Release; Release]).2 = ((Granted ∘ grant <$> batch) ++ [Granted (grant x)])%list
  ∧ _shared (run l [Release; Release]).1 = false
  ∧ shares (run l [Release; Release]).1 = 0
  ∧ queue (run l [Release; Release]).1 = rest
  ∧ holders 1 l [Release; Release] = Some (length batch).
Proof.
  intros Hex Hsh Hq Hne Hall Hx.
  destruct batch as [|next batch]; [done|]. apply Forall_cons in Hall as [Hnext Hall].
  assert (grant_shared (batch ++ x :: rest) = (batch, x :: rest)) as Hgs.
  { clear -Hall Hx. induction batch as [|y batch IH]; cbn.
    - by rewrite Hx.
    - apply Forall_cons in Hall as [-> Hall]. by rewrite IH. }
  assert (release l
          = ({| target := target l; _shared := true; shares := 0; queue := x :: rest;
                listening := listening l |},
             Granted (grant next) :: (Granted ∘ grant <$> batch))) as Hr1.
  { unfold release. rewrite Hex, Hq, Hsh. cbn [andb app]. by rewrite Hnext, Hgs. }
  assert (∀ t ln,
            release {| target := t; _shared := true; shares := 0; queue := x :: rest;
                       listening := ln |}
            = ({| target := t; _shared := false; shares := 0; queue := rest; listening := ln |},
               [Granted (grant x)])) as Hr2.
  { intros t ln. unfold release. cbn. by rewrite Hx. }
  cbn [run holders step]. rewrite Hr1, Hr2. cbn [fst snd _shared shares queue].
  split_and!; [by rewrite app_nil_r|done..|].
  change (entered (Granted (grant next) :: (Granted ∘ grant <$> batch)))
    with (grant next :: entered (Granted ∘ grant <$> batch)).
  change (length (entered [Granted (grant x)])) with 1.
  rewrite entered_granted. cbn [length Nat.add]. rewrite length_fmap. f_equal. lia.
Qed.

(** ** The map of the locks in use *)

Lemma release_target l : target (release l).1 = target l.
Proof.
  unfold release. destruct (_shared l && Nat.ltb 0 (shares l)); [done|].
  destruct (queue l) as [|next q]; [done|].
  destruct (shared next); [|done]. by destruct (grant_shared q).
Qed.

Lemma release_listening l :
  listening (release l).1
  = listening l && negb (bool_decide (Released ∈ (release l).2)).
Proof.
  unfold release. destruct (_shared l && Nat.ltb 0 (shares l)).
  { cbn. by rewrite andb_true_r. }
  destruct (queue l) as [|next q].
  { cbn. rewrite bool_decide_eq_true_2 by (by left). by rewrite andb_false_r. }
  destruct (shared next).
  - destruct (grant_shared q) as [batch rest]. cbn [fst snd listening].
    rewrite bool_decide_eq_false_2; [by rewrite andb_true_r|].
    intros [[=]|Hin]%elem_of_cons. apply list_elem_of_fmap in Hin as (? & [=] & _).
  - cbn [fst snd listening].
    rewrite bool_decide_eq_false_2; [by rewrite andb_true_r|].
    by intros [=]%list_elem_of_singleton.
Qed.

Lemma release_emits l :
  Released ∈ (release l).2 → (release l).2 = [Released].
Proof.
  unfold release. destruct (_shared l && Nat.ltb 0 (shares l)).
  { by intros ?%elem_of_nil. }
  destruct (queue l) as [|next q]; [done|].
  destruct (shared next).
  - destruct (grant_shared q) as [batch rest]. cbn [fst snd].
    intros [[=]|Hin]%elem_of_cons. apply list_elem_of_fmap in Hin as (? & [=] & _).
  - by intros [=]%list_elem_of_singleton.
Qed.

Lemma request_target l shared0 waiter :
  target (request l shared0 waiter).1 = target l
  ∧ listening (request l shared0 waiter).1 = listening l.
Proof. unfold request. by destruct (_shared l && shared0). Qed.

(** Replacing a lock by one of the same target and the same listener. *)
Lemma registered_insert s a l l' :
  registered s →
  heap s !! a = Some l →
  target l' = target l →
  listening l' = listening l →
  registered {| heap := <[a := l']> (heap s); currentLocks := currentLocks s |}.
Proof.
  intros [Ha Hb] Hl Ht Hln. split; cbn [heap currentLocks].
  - intros t a0 Hm. destruct (Ha t a0 Hm) as (l0 & Hl0 & Ht0 & Hln0).
    destruct (decide (a0 = a)) as [->|Hne].
    + exists l'. rewrite list_lookup_insert_eq by (by eapply lookup_lt_Some).
      simplify_eq. by rewrite Ht, Hln.
    + exists l0. by rewrite list_lookup_insert_ne.
  - intros a0 l0 Hl0 Hln0. destruct (decide (a0 = a)) as [->|Hne].
    + rewrite list_lookup_insert_eq in Hl0 by (by eapply lookup_lt_Some).
      simplify_eq. rewrite Ht. apply Hb; [done|]. by rewrite <-Hln.
    + rewrite list_lookup_insert_ne in Hl0 by done. by apply Hb.
Qed.

Lemma registered_acquireLock s target0 shared0 waiter :
  registered s → registered (acquireLock s target0 shared0 waiter).1.1.
Proof.
  intros Hreg. unfold acquireLock.
  destruct (currentLocks s !! target0) as [existingLock|] eqn:Hm.
  - destruct (heap s !! existingLock) as [l|] eqn:Hl; [|done].
    destruct (request l shared0 waiter) as [l' events] eqn:Hr. cbn [fst].
    destruct (request_target l shared0 waiter) as [Ht Hln]. rewrite Hr in Ht, Hln.
    by apply (registered_insert s existingLock l l').
  - destruct Hreg as [Ha Hb]. split; cbn [fst heap currentLocks].
    + intros t a Hin. apply lookup_insert_Some in Hin as [[<- <-]|[Hne Hin]].
      * eexists. by rewrite lookup_app_r, Nat.sub_diag by done.
      * destruct (Ha t a Hin) as (l & Hl & Ht & Hln). exists l.
        by rewrite lookup_app_l by (by eapply lookup_lt_Some).
    + intros a l Hl Hln. apply lookup_app_Some in Hl as [Hl|[Hge Hl]].
      * specialize (Hb a l Hl Hln).
        rewrite lookup_insert_ne; [done|]. intros Heq. rewrite <-Heq in Hb. by rewrite Hm in Hb.
      * apply list_lookup_singleton_Some in Hl as [Hz <-]. cbn [target].
        rewrite lookup_insert_eq. f_equal. lia.
Qed.

Lemma registered_release_lock s address :
  registered s → registered (release_lock s address).1.
Proof.
  intros Hreg. unfold release_lock.
  destruct (heap s !! address) as [l|] eqn:Hl; [|done].
  pose proof (release_target l) as Ht. pose proof (release_listening l) as Hln.
  destruct (release l) as [l' events]. cbn [fst snd] in *.
  destruct (bool_decide (Released ∈ events) && listening l) eqn:Hfire.
  2:{ apply (registered_insert s address l l'); [done..|].
      rewrite Hln. destruct (listening l); [|done].
      rewrite andb_true_r in Hfire. by rewrite Hfire. }
  apply andb_true_iff in Hfire as [Hrel Hlis]. rewrite Hrel, Hlis in Hln. cbn in Hln.
  destruct Hreg as [Ha Hb]. pose proof (Hb address l Hl Hlis) as Hown.
  split; cbn [heap currentLocks].
  - intros t a [Hne Hin]%lookup_delete_Some.
    destruct (Ha t a Hin) as (l0 & Hl0 & Ht0 & Hln0). exists l0.
    rewrite list_lookup_insert_ne; [done|]. intros Heq. subst a. by simplify_eq.
  - intros a l0 Hl0 Hln0. destruct (decide (a = address)) as [->|Hne].
    { rewrite list_lookup_insert_eq in Hl0 by (by eapply lookup_lt_Some).
      simplify_eq. by rewrite Hln in Hln0. }
    rewrite list_lookup_insert_ne in Hl0 by done.
    pose proof (Hb a l0 Hl0 Hln0) as Hin.
    rewrite lookup_delete_ne; [done|]. intros Heq. rewrite Heq in Hown. by simplify_eq.
Qed.

Lemma registered_calls calls s : registered s → registered (foldl call s calls).
Proof.
  revert s. induction calls as [|c calls IH]; intros s Hreg; [done|].
  cbn [foldl]. apply IH. destruct c; cbn [call].
  - by apply registered_acquireLock.
  - by apply registered_release_lock.
Qed.

Lemma registered_no_locks : registered no_locks.
Proof. split; [by intros t a ?|by intros a l ?]. Qed.

(** X17: after any calls of [acquireLock] and of [release], every entry of the
    map of the locks in use is a lock of that target, and a release leaves
    the map as it is or removes the entry of the very lock released, when it
    emits ['released'] for the first time: the release of a lock that is no
    longer in the map never removes the lock that took its place. *)
Theorem release_removes_own_entry calls address :
  let s := foldl call no_locks calls in
  (∀ t a, currentLocks s !! t = Some a → ∃ l, heap s !! a = Some l ∧ target l = t)
  ∧ (currentLocks (release_lock s address).1 = currentLocks s
     ∨ ∃ l, heap s !! address = Some l
            ∧ currentLocks s !! target l = Some address
            ∧ (release_lock s address).2 = [Released]
            ∧ currentLocks (release_lock s address).1
              = base.delete (target l) (currentLocks s)).
Proof.
  intros s. destruct (registered_calls calls no_locks registered_no_locks) as [Ha Hb].
  fold s in Ha, Hb. split.
  { intros t a Hin. destruct (Ha t a Hin) as (l & ? & ? & _). by exists l. }
  unfold release_lock. destruct (heap s !! address) as [l|] eqn:Hl; [|by left].
  pose proof (release_emits l) as Hemit.
  destruct (release l) as [l' events]. cbn [fst snd currentLocks] in *.
  destruct (bool_decide (Released ∈ events) && listening l) eqn:Hfire; [|by left].
  apply andb_true_iff in Hfire as [Hrel%bool_decide_eq_true Hlis].
  right. exists l. split_and!; [done|by apply Hb|by apply Hemit|done].
Qed.

(** X18: a second request for a target held exclusively waits on the lock of
    the first, whether it is shared or not; the release of the first holder
    grants it and leaves the lock in the map; its own release emits
    ['released'] and leaves the map as it was before the first request. *)
Theorem acquire_waits_for_release s t w1 shared2 w2 :
  currentLocks s !! t = None →
  let r1 := acquireLock s t false w1 in
  let r2 := acquireLock r1.1.1 t shared2 w2 in
  let r3 := release_lock r2.1.1 r1.1.2 in
  let r4 := release_lock r3.1 r1.1.2 in
  r1.2 = [Resolved w1]
  ∧ r2.1.2 = r1.1.2 ∧ r2.2 = []
  ∧ r3.2 = [Granted w2] ∧ currentLocks r3.1 !! t = Some r1.1.2
  ∧ r4.2 = [Released] ∧ currentLocks r4.1 = currentLocks s.
Proof.
  intros Hfree r1 r2 r3 r4.
  assert (r1 = ({| heap := (heap s ++ [{| target := t; _shared := false; shares := 0;
                                          queue := []; listening := true |}])%list;
                   currentLocks := <[t := length (heap s)]> (currentLocks s) |},
                length (heap s), [Resolved w1])) as Hr1.
  { subst r1. unfold acquireLock. by rewrite Hfree. }
  assert (r2 = ({| heap := (heap s ++ [{| target := t; _shared := false; shares := 0;
                                          queue := [{| shared := shared2; grant := w2 |}];
                                          listening := true |}])%list;
                   currentLocks := <[t := length (heap s)]> (currentLocks s) |},
                length (heap s), [])) as Hr2.
  { subst r2. rewrite Hr1. unfold acquireLock. cbn [fst snd currentLocks heap].
    rewrite lookup_insert_eq, lookup_app_r, Nat.sub_diag by done. cbn.
    f_equal. f_equal. f_equal.
    rewrite insert_app_r_alt, Nat.sub_diag by done. done. }
  assert (r3 = ({| heap := (heap s ++ [{| target := t; _shared := shared2; shares := 0;
                                          queue := []; listening := true |}])%list;
                   currentLocks := <[t := length (heap s)]> (currentLocks s) |},
                [Granted w2])) as Hr3.
  { subst r3. rewrite Hr2, Hr1. unfold release_lock. cbn [fst snd currentLocks heap].
    rewrite lookup_app_r, Nat.sub_diag by done. cbn [lookup list_lookup].
    unfold release. cbn [_shared shares queue andb shared grant grant_shared target listening].
    destruct shared2; cbn [fst snd fmap list_fmap];
      rewrite bool_decide_eq_false_2 by (by intros [=]%list_elem_of_singleton);
      cbn [andb]; by rewrite insert_app_r_alt, Nat.sub_diag by done. }
  assert (r4 = ({| heap := (heap s ++ [{| target := t; _shared := shared2; shares := 0;
                                          queue := []; listening := false |}])%list;
                   currentLocks := currentLocks s |},
                [Released])) as Hr4.
  { subst r4. rewrite Hr3, Hr1. unfold release_lock. cbn [fst snd currentLocks heap].
    rewrite lookup_app_r, Nat.sub_diag by done. cbn [lookup list_lookup].
    unfold release. cbn [_shared shares queue target listening Nat.ltb Nat.leb].
    rewrite andb_false_r. rewrite bool_decide_eq_true_2 by (by left). cbn [andb].
    rewrite insert_app_r_alt, Nat.sub_diag by done.
    by rewrite delete_insert_eq, delete_id by done. }
  rewrite Hr4, Hr3, Hr2, Hr1. cbn [fst snd currentLocks].
  split_and!; [done..| |done|done]. by rewrite lookup_insert_eq.
Qed.

(** ** Shared holders and the map *)

(** A request for a target whose lock is the last object made. *)
Lemma acquireLock_existing h (m : gmap nat nat) l t shared0 waiter :
  m !! t = Some (length h) →
  acquireLock {| heap := (h ++ [l])%list; currentLocks := m |} t shared0 waiter
  = ({| heap := (h ++ [(request l shared0 waiter).1])%list; currentLocks := m |},
     length h, (request l shared0 waiter).2).
Proof.
  intros Hm. unfold acquireLock. cbn [heap currentLocks]. rewrite Hm.
  rewrite lookup_app_r, Nat.sub_diag by done. cbn [lookup list_lookup].
  destruct (request l shared0 waiter) as [l' events]. cbn [fst snd].
  by rewrite insert_app_r_alt, Nat.sub_diag by done.
Qed.

(** The release of the last object made. *)
Lemma release_lock_last h (m : gmap nat nat) l :
  release_lock {| heap := (h ++ [l])%list; currentLocks := m |} (length h)
  = ({| heap := (h ++ [(release l).1])%list;
        currentLocks :=
          if bool_decide (Released ∈ (release l).2) && listening l
          then base.delete (target l) m else m |},
     (release l).2).
Proof.
  unfold release_lock. cbn [heap currentLocks].
  rewrite lookup_app_r, Nat.sub_diag by done. cbn [lookup list_lookup].
  destruct (release l) as [l' events]. cbn [fst snd].
  by rewrite insert_app_r_alt, Nat.sub_diag by done.
Qed.

(** X23: two shared requests wait for the exclusive holder of a target. Its
    release grants both. The release of one of the two then emits
    ['released'] and takes the lock out of the map, although the other has
    not released; an exclusive request for the same target that follows gets
    a new lock at once. *)
Theorem released_while_shared s t w0 w1 w2 w3 :
  currentLocks s !! t = None →
  let a := length (heap s) in
  let s1 := (acquireLock s t false w0).1.1 in
  let s2 := (acquireLock s1 t true w1).1.1 in
  let s3 := (acquireLock s2 t true w2).1.1 in
  let r4 := release_lock s3 a in
  let r5 := release_lock r4.1 a in
  let r6 := acquireLock r5.1 t false w3 in
  (acquireLock s1 t true w1).2 = []
  ∧ (acquireLock s2 t true w2).2 = []
  ∧ r4.2 = [Granted w1; Granted w2]
  ∧ r5.2 = [Released]
  ∧ currentLocks r5.1 = currentLocks s
  ∧ r6.2 = [Resolved w3]
  ∧ r6.1.2 = S a.
Proof.
  intros Hfree a s1 s2 s3 r4 r5 r6.
  assert (<[t := a]> (currentLocks s) !! t = Some (length (heap s))) as Hm.
  { by rewrite lookup_insert_eq. }
  assert (s1 = {| heap := (heap s ++ [{| target := t; _shared := false; shares := 0;
                                         queue := []; listening := true |}])%list;
                  currentLocks := <[t := a]> (currentLocks s) |}) as Hs1.
  { subst s1. unfold acquireLock. by rewrite Hfree. }
  assert ((acquireLock s1 t true w1).2 = []
          ∧ s2 = {| heap := (heap s ++ [{| target := t; _shared := false; shares := 0;
                                           queue := [{| shared := true; grant := w1 |}];
                                           listening := true |}])%list;
                    currentLocks := <[t := a]> (currentLocks s) |}) as [He2 Hs2].
  { subst s2. rewrite Hs1, acquireLock_existing by exact Hm. done. }
  assert ((acquireLock s2 t true w2).2 = []
          ∧ s3 = {| heap := (heap s ++ [{| target := t; _shared := false; shares := 0;
                                           queue := [{| shared := true; grant := w1 |};
                                                     {| shared := true; grant := w2 |}];
                                           listening := true |}])%list;
                    currentLocks := <[t := a]> (currentLocks s) |}) as [He3 Hs3].
  { subst s3. rewrite Hs2, acquireLock_existing by exact Hm. done. }
  assert (r4 = ({| heap := (heap s ++ [{| target := t; _shared := true; shares := 0;
                                          queue := []; listening := true |}])%list;
                   currentLocks := <[t := a]> (currentLocks s) |},
                [Granted w1; Granted w2])) as Hr4.
  { subst r4. rewrite Hs3. subst a. rewrite release_lock_last. cbn.
    rewrite bool_decide_eq_false_2; [done|].
    intros [[=]|[[=]|[]%elem_of_nil]%elem_of_cons]%elem_of_cons. }
  assert (r5 = ({| heap := (heap s ++ [{| target := t; _shared := true; shares := 0;
                                          queue := []; listening := false |}])%list;
                   currentLocks := currentLocks s |},
                [Released])) as Hr5.
  { subst r5. rewrite Hr4. cbn [fst]. subst a. rewrite release_lock_last. cbn.
    rewrite bool_decide_eq_true_2 by (by left). cbn.
    by rewrite delete_insert_eq, delete_id by done. }
  assert (r6.2 = [Resolved w3] ∧ r6.1.2 = S a) as [He6 Ha6].
  { subst r6. rewrite Hr5. cbn [fst]. unfold acquireLock. cbn [currentLocks heap].
    rewrite Hfree. cbn [fst snd]. split; [done|]. rewrite length_app. cbn. subst a. lia. }
  rewrite Hr4, Hr5. cbn [fst snd currentLocks]. by split_and!.
Qed.

(** On no lock at all. *)
Lemma released_while_shared_witness :
  (release_lock
     (acquireLock (acquireLock (acquireLock no_locks 7 false 0).1.1 7 true 1).1.1 7 true 2).1.1
     (length (heap no_locks))).2
  = [Granted 1; Granted 2].
Proof.
  destruct (released_while_shared no_locks 7 0 1 2 3) as (_ & _ & H & _).
  - reflexivity.
  - exact H.
Defined.

(** ** The properties of the locks on example data *)

(** The release of the lock that two readers and a writer wait for. *)
Lemma release_hands_over_witness :
  ∃ batch,
    batch ≠ []
    ∧ queue readers_then_writer = (batch ++ queue (release readers_then_writer).1)%list
    ∧ (release readers_then_writer).2 = (Granted ∘ grant <$> batch)
    ∧ shares (release readers_then_writer).1 = shares readers_then_writer
    ∧ Forall (fun x => shared x = _shared (release readers_then_writer).1) batch
    ∧ if _shared (release readers_then_writer).1
      then ∀ x, head (queue (release readers_then_writer).1) = Some x → shared x = false
      else length batch = 1.
Proof.
  refine (release_hands_over readers_then_writer _ _).
  - reflexivity.
  - discriminate.
Defined.

(** Two exclusive requests on a new exclusive lock, each followed by a
    release. *)
Lemma exclusive_use_is_mutex_witness :
  holders 1 (new_lock 0 false) [Request false 1; Release; Request false 2; Release] = Some 1
  ∧ (1 ≤ 1)%nat.
Proof.
  split; [reflexivity|].
  refine (exclusive_use_is_mutex (new_lock 0 false)
            [Request false 1; Release; Request false 2; Release] 1 1 _ _ _ _ _).
  - reflexivity.
  - constructor.
  - repeat constructor.
  - lia.
  - reflexivity.
Defined.

Lemma shared_batch_not_counted_witness :
  (run readers_then_writer [Release; Release]).2
  = ((Granted ∘ grant <$> [ {| shared := true; grant := 1 |}; {| shared := true; grant := 2 |} ])
     ++ [Granted (grant {| shared := false; grant := 3 |})])%list
  ∧ _shared (run readers_then_writer [Release; Release]).1 = false
  ∧ shares (run readers_then_writer [Release; Release]).1 = 0
  ∧ queue (run readers_then_writer [Release; Release]).1 = []
  ∧ holders 1 readers_then_writer [Release; Release]
    = Some (length [ {| shared := true; grant := 1 |}; {| shared := true; grant := 2 |} ]).
Proof.
  refine (shared_batch_not_counted readers_then_writer
            [ {| shared := true; grant := 1 |}; {| shared := true; grant := 2 |} ]
            {| shared := false; grant := 3 |} [] _ _ _ _ _ _).
  - reflexivity.
  - reflexivity.
  - reflexivity.
  - discriminate.
  - repeat constructor.
  - reflexivity.
Defined.

(** Two requests for target 7, the first on no lock at all: the second is
    granted by the release of the first. *)
Lemma acquire_waits_for_release_witness :
  (acquireLock no_locks 7 false 1).2 = [Resolved 1]
  ∧ (acquireLock (acquireLock no_locks 7 false 1).1.1 7 true 2).2 = []
  ∧ (release_lock (acquireLock (acquireLock no_locks 7 false 1).1.1 7 true 2).1.1
       (acquireLock no_locks 7 false 1).1.2).2 = [Granted 2].
Proof.
  destruct (acquire_waits_for_release no_locks 7 1 true 2) as (H1 & _ & H2 & H3 & _).
  - reflexivity.
  - split; [exact H1|]. split; [exact H2 | exact H3].
Defined.
